(** * Substreams orchestrator: a shallow embedding and its checked properties

    The development follows the Go packages of the repository:
    - [Block]: [block.Range] and [block.Segmenter] (uint64 block arithmetic);
    - [Tracking]: the [bytesMeter] counters;
    - [Orchestrator]: [Squashable] and [Squasher] (the merge engine);
    - [Stage]: the segment x stage state matrix and its [NextJob] rule.

    Go's [uint64] and [int] are modelled as [Z] with the wrap-around written
    out ([wrap64], [to_int]); a run-time panic is an explicit result. *)

From stdpp Require Import base numbers list strings gmap sorting.

Local Open Scope Z_scope.

(** ** Machine integers *)

Module Mach.

Definition two64 : Z := 2 ^ 64.
Definition two63 : Z := 2 ^ 63.

(** A value of Go's [uint64]. *)
Definition is_u64 (x : Z) : Prop := 0 <= x < two64.

(** A value of Go's [int] (64 bits on the supported targets). *)
Definition is_int (x : Z) : Prop := - two63 <= x < two63.

(** Result of a uint64 operation: reduction modulo 2^64. *)
Definition wrap64 (x : Z) : Z := x mod two64.

(** Conversion [int(x)] of a uint64: the same 64 bits read as signed. *)
Definition to_int (x : Z) : Z :=
  let y := wrap64 x in if y <? two63 then y else y - two64.

(** Conversion [uint64(n)] of an int: the same 64 bits read as unsigned. *)
Definition to_u64 (n : Z) : Z := wrap64 n.

End Mach.

(** ** Package block *)

Module Block.
Import Mach.

(** [block.Range]: the half-open interval [[StartBlock, ExclusiveEndBlock)]. *)
Record Range : Type := mkRange {
  StartBlock : Z;
  ExclusiveEndBlock : Z
}.

#[global] Instance Range_eq_dec : EqDecision Range.
Proof. solve_decision. Defined.

(** What a function that returns a [*Range] gives: Go's [nil], a range, or
    a call of [NewRange] with bounds that are no Range of the spec. *)
Inductive RangeResult : Type :=
| NilRange
| Built (r : Range)
| Unbuilt (startBlock exclusiveEndBlock : Z).

(** Modelled from the spec: [block.NewRange] is not among the sources. The
    spec's Range is a half-open interval with [start < exclusiveEnd]: for
    such bounds the constructor gives the range. What it does with other
    bounds cannot be read from the sources: the model gives no range there,
    it only records the bounds of the call. *)
Definition NewRange (startBlock exclusiveEndBlock : Z) : RangeResult :=
  if startBlock <? exclusiveEndBlock
  then Built (mkRange startBlock exclusiveEndBlock)
  else Unbuilt startBlock exclusiveEndBlock.

(** [utils.MinOf] on two uint64. *)
Definition MinOf (a b : Z) : Z := if a <? b then a else b.

(** [block.Segmenter]. The fields are private and [NewSegmenter] is the only
    constructor, so a Segmenter always has a non-zero interval: building one
    with interval 0 panics in [computeCount] (integer division by zero). *)
Record Segmenter : Type := mkSegmenter {
  interval : Z;
  initialBlock : Z;
  exclusiveEndBlock : Z;
  count : Z
}.

Definition computeCount (interval initialBlock exclusiveEndBlock : Z) : Z :=
  let initSegment := initialBlock / interval in
  let lastSegment := exclusiveEndBlock / interval in
  to_int (wrap64 (wrap64 (lastSegment - initSegment) + 1)).

(** [None] is the division-by-zero panic of [computeCount]. *)
Definition NewSegmenter (interval initialBlock exclusiveEndBlock : Z)
  : option Segmenter :=
  if interval =? 0 then None
  else Some (mkSegmenter interval initialBlock exclusiveEndBlock
               (computeCount interval initialBlock exclusiveEndBlock)).

Definition Count (s : Segmenter) : Z := count s.

Definition firstRange (s : Segmenter) : RangeResult :=
  if exclusiveEndBlock s <? initialBlock s then NilRange
  else
    let floorLowerBound :=
      wrap64 (initialBlock s - initialBlock s mod interval s) in
    let upperBound := wrap64 (floorLowerBound + interval s) in
    NewRange (initialBlock s) (MinOf upperBound (exclusiveEndBlock s)).

Definition rangeFromBegin (s : Segmenter) (idx : Z) : RangeResult :=
  if count s <=? idx then NilRange
  else
    let baseBlock := wrap64 (initialBlock s - initialBlock s mod interval s) in
    let baseBlock := wrap64 (baseBlock + wrap64 (to_u64 idx * interval s)) in
    let upperBound := wrap64 (baseBlock + interval s) in
    NewRange baseBlock (MinOf upperBound (exclusiveEndBlock s)).

Definition Segmenter_Range (s : Segmenter) (idx : Z) : RangeResult :=
  if idx <? 0 then NilRange
  else if idx =? 0 then firstRange s
  else rangeFromBegin s idx.

Definition IndexForBlock (s : Segmenter) (blockNum : Z) : Z :=
  let blockSegment := blockNum / interval s in
  let initSegment := initialBlock s / interval s in
  to_int (wrap64 (blockSegment - initSegment)).

(** What [IsPartial] gives: a panic (the explicit one, or the nil
    dereference when [Range] returns nil), an answer, or the call of
    [NewRange] with bounds that are no Range of the spec. *)
Inductive PartialResult : Type :=
| IsPartialPanics
| Partial (b : bool)
| PartialUnbuilt (startBlock exclusiveEndBlock : Z).

Definition IsPartial (s : Segmenter) (segmentIndex : Z) : PartialResult :=
  if count s <=? segmentIndex then IsPartialPanics
  else match Segmenter_Range s segmentIndex with
       | NilRange => IsPartialPanics
       | Built r => Partial (negb (ExclusiveEndBlock r mod interval s =? 0))
       | Unbuilt a b => PartialUnbuilt a b
       end.

(** The ceiling of [a / b], as the specification of [Range(0)] writes it. *)
Definition ceil_div (a b : Z) : Z := (a + b - 1) / b.

(** Modelled from the spec: the ordering of [block.Ranges] (its [Len], [Less]
    and [Swap]) is not among the sources. The spec orders ranges first by
    start, then by exclusive end. *)
Definition range_leb (a b : Range) : bool :=
  (StartBlock a <? StartBlock b)
  || ((StartBlock a =? StartBlock b)
      && (ExclusiveEndBlock a <=? ExclusiveEndBlock b)).

Fixpoint insert_sorted (x : Range) (l : list Range) : list Range :=
  match l with
  | [] => [x]
  | y :: l' => if range_leb x y then x :: y :: l' else y :: insert_sorted x l'
  end.

(** [sort.Sort] on a [block.Ranges]: the order is total on the values, so the
    sorted list is determined, however the library sorts. *)
Definition sortRanges (l : list Range) : list Range :=
  foldr insert_sorted [] l.

(** Modelled from the spec: [Range.Split] is not among the sources. It cuts
    the range at the multiples of [chunk] that fall strictly inside it and
    returns the pieces in order (the minimal covering sequence of aligned
    sub-ranges). [fuel] bounds the number of pieces. *)
Fixpoint split_from (fuel : nat) (chunk start stop : Z) : list Range :=
  match fuel with
  | O => []
  | S fuel' =>
      let next := (start / chunk + 1) * chunk in
      if stop <=? next then [mkRange start stop]
      else mkRange start next :: split_from fuel' chunk next stop
  end.

Definition Split (r : Range) (chunk : Z) : list Range :=
  if (chunk <=? 0) || (ExclusiveEndBlock r <=? StartBlock r) then [r]
  else split_from
         (Z.to_nat (ExclusiveEndBlock r / chunk - StartBlock r / chunk + 1))
         chunk (StartBlock r) (ExclusiveEndBlock r).

End Block.

(** ** Package tracking *)

Module Tracking.
Import Mach.

(** [bytesMeter]: the two uint64 counters (the mutex and the logger carry no
    data). *)
Record bytesMeter : Type := mkBytesMeter {
  bytesWritten : Z;
  bytesRead : Z
}.

(** A call either returns with the updated meter or panics. *)
Inductive Outcome : Type :=
| Returned (b : bytesMeter)
| Panicked (msg : string).

Definition AddBytesWritten (b : bytesMeter) (n : Z) : Outcome :=
  if n <? 0 then Panicked "negative value"
  else Returned (mkBytesMeter (wrap64 (bytesWritten b + to_u64 n)) (bytesRead b)).

Definition AddBytesRead (b : bytesMeter) (n : Z) : Outcome :=
  Returned (mkBytesMeter (bytesWritten b) (wrap64 (bytesRead b + to_u64 n))).

Definition BytesWritten (b : bytesMeter) : Z := bytesWritten b.
Definition BytesRead (b : bytesMeter) : Z := bytesRead b.

(** The meter a well-typed program can hold: both fields are uint64. *)
Definition meter_ok (b : bytesMeter) : Prop :=
  is_u64 (bytesWritten b) /\ is_u64 (bytesRead b).

End Tracking.

(** ** Package orchestrator: the squasher *)

Module Orchestrator.
Import Mach Block.

(** The fields of [state.Store] that the squasher reads. The squasher never
    assigns them, and the store's methods are taken to leave them as they
    are; the key-value content of a store lives in the world below. *)
Record Store : Type := mkStore {
  Name : string;
  ModuleInitialBlock : Z;
  StoreInitialBlock : Z
}.

(** The calls the squasher makes on its collaborators, each with its outcome
    ([ok = true]: the call returned a nil error). *)
Inductive Event : Type :=
| EvLoadFrom (r : Range) (ok : bool)
| EvMerge (r : Range) (ok : bool)
| EvWriteState (e : Z) (ok : bool)
| EvDeletePartialFile (e : Z) (ok : bool)
| EvNotify (moduleName : string) (e : Z).

(** What the sources leave outside: the context, the methods of
    [state.Store] that touch durable storage, the notifier, and
    [Range.Split]. [World] is the state of all of it; every operation may
    change it and (where the Go method returns an error) reports success. *)
Record Env : Type := mkEnv {
  World : Type;
  ctxDone : World -> World * bool;
  storeLoadFrom : World -> Range -> World * bool;
  storeMerge : World -> Range -> World * bool;
  storeWriteState : World -> Z -> World * bool;
  storeDeletePartialFile : World -> Z -> World * bool;
  notifierNotify : World -> string -> Z -> World;
  rangeSplit : Range -> Z -> list Range
}.

(** Computations over the world that log the calls they make. *)
Definition M (E : Env) (A : Type) : Type := World E -> A * World E * list Event.

Definition ret {E : Env} {A : Type} (a : A) : M E A := fun w => (a, w, []).

Definition bind {E : Env} {A B : Type} (m : M E A) (k : A -> M E B) : M E B :=
  fun w =>
    let '(a, w1, l1) := m w in
    let '(b, w2, l2) := k a w1 in
    (b, w2, l1 ++ l2).

Notation "x <- m ;; k" := (bind m (fun x => k))
  (at level 100, m at next level, right associativity).

Definition ctx_done (E : Env) : M E bool :=
  fun w => let '(w', b) := ctxDone E w in (b, w', []).

Definition LoadFrom (E : Env) (r : Range) : M E bool :=
  fun w => let '(w', ok) := storeLoadFrom E w r in (ok, w', [EvLoadFrom r ok]).

Definition Merge (E : Env) (r : Range) : M E bool :=
  fun w => let '(w', ok) := storeMerge E w r in (ok, w', [EvMerge r ok]).

Definition WriteState (E : Env) (e : Z) : M E bool :=
  fun w => let '(w', ok) := storeWriteState E w e in (ok, w', [EvWriteState e ok]).

Definition DeletePartialFile (E : Env) (e : Z) : M E bool :=
  fun w =>
    let '(w', ok) := storeDeletePartialFile E w e in
    (ok, w', [EvDeletePartialFile e ok]).

Definition Notify (E : Env) (moduleName : string) (e : Z) : M E unit :=
  fun w => (tt, notifierNotify E w moduleName e, [EvNotify moduleName e]).

(** The errors [squash] and [Squash] return. *)
Inductive SquashError : Type :=
| ErrContext
| ErrInitializingPartial (moduleName : string)
| ErrMerging
| ErrWritingState
| ErrStartBeforeInitial (moduleName : string) (start initial : Z)
| ErrSquashingRange (r : Range) (cause : SquashError)
| ErrModuleNotFound (moduleName : string).

Inductive Outcome : Type :=
| Done
| Failed (err : SquashError)
| Panicked.

Record Squashable : Type := mkSquashable {
  name : string;
  builder : Store;
  ranges : list Range;
  storeSaveInterval : Z;
  targetExclusiveBlock : Z;
  nextExpectedStartBlock : Z;
  targetReached : bool
}.

Definition set_ranges (s : Squashable) (rs : list Range) : Squashable :=
  mkSquashable (name s) (builder s) rs (storeSaveInterval s)
    (targetExclusiveBlock s) (nextExpectedStartBlock s) (targetReached s).

Definition set_nextExpectedStartBlock (s : Squashable) (b : Z) : Squashable :=
  mkSquashable (name s) (builder s) (ranges s) (storeSaveInterval s)
    (targetExclusiveBlock s) b (targetReached s).

Definition set_targetReached (s : Squashable) (b : bool) : Squashable :=
  mkSquashable (name s) (builder s) (ranges s) (storeSaveInterval s)
    (targetExclusiveBlock s) (nextExpectedStartBlock s) b.

Definition NewSquashable (initialBuilder : Store)
    (targetExclusiveBlock storeSaveInterval nextExpectedStartBlock : Z)
  : Squashable :=
  mkSquashable (Name initialBuilder) initialBuilder [] storeSaveInterval
    targetExclusiveBlock nextExpectedStartBlock false.

Definition cumulateBoundedRange (s : Squashable) (blockRange : Range)
  : Squashable :=
  if ExclusiveEndBlock blockRange <=? StoreInitialBlock (builder s) then s
  else set_ranges s (sortRanges (ranges s ++ [blockRange])).

(** The loop of [mergeAvailablePartials]. [rs] is the current value of
    [s.ranges]; every iteration that does not leave the loop drops its head,
    and every exit stores [rs] back. [notifier] tells whether the notifier
    is non-nil. A zero [storeSaveInterval] makes the modulo panic. *)
Fixpoint mergeLoop (E : Env) (notifier : bool) (rs : list Range)
    (s : Squashable) {struct rs} : M E (Outcome * Squashable) :=
  cancelled <- ctx_done E ;;
  if (cancelled : bool) then ret (Failed ErrContext, set_ranges s rs)
  else
    match rs with
    | [] => ret (Done, set_ranges s rs)
    | squashableRange :: rest =>
        if negb (nextExpectedStartBlock s =? StartBlock squashableRange)
        then ret (Done, set_ranges s rs)
        else
          loaded <- LoadFrom E squashableRange ;;
          if negb loaded
          then ret (Failed (ErrInitializingPartial (name s)), set_ranges s rs)
          else
            merged <- Merge E squashableRange ;;
            if negb merged then ret (Failed ErrMerging, set_ranges s rs)
            else
              let s :=
                set_nextExpectedStartBlock s (ExclusiveEndBlock squashableRange) in
              if storeSaveInterval s =? 0 then ret (Panicked, set_ranges s rs)
              else
                let endsOnBoundary :=
                  ExclusiveEndBlock squashableRange mod storeSaveInterval s =? 0 in
                written <-
                  (if endsOnBoundary
                   then WriteState E (ExclusiveEndBlock squashableRange)
                   else (_ <- DeletePartialFile E
                                (ExclusiveEndBlock squashableRange) ;;
                         ret true)) ;;
                if negb written
                then ret (Failed ErrWritingState, set_ranges s rs)
                else
                  if ExclusiveEndBlock squashableRange
                     =? targetExclusiveBlock s
                  then
                    let s := set_targetReached s true in
                    _ <- (if notifier
                          then Notify E (Name (builder s))
                                 (ExclusiveEndBlock squashableRange)
                          else ret tt) ;;
                    mergeLoop E notifier rest s
                  else mergeLoop E notifier rest s
    end.

Definition mergeAvailablePartials (E : Env) (notifier : bool) (s : Squashable)
  : M E (Outcome * Squashable) :=
  mergeLoop E notifier (ranges s) s.

(** First loop of [squash]: the check of each sub-range against the module's
    initial block, then [cumulateBoundedRange]. The sub-ranges accepted before
    a rejected one stay in [s.ranges]. *)
Fixpoint cumulateLoop (brs : list Range) (s : Squashable)
  : option SquashError * Squashable :=
  match brs with
  | [] => (None, s)
  | br :: rest =>
      if StartBlock br <? ModuleInitialBlock (builder s)
      then (Some (ErrStartBeforeInitial (name s) (StartBlock br)
                    (ModuleInitialBlock (builder s))), s)
      else cumulateLoop rest (cumulateBoundedRange s br)
  end.

(** Second loop of [squash]: one [mergeAvailablePartials] per sub-range. *)
Fixpoint mergeEach (E : Env) (notifier : bool) (brs : list Range)
    (s : Squashable) : M E (Outcome * Squashable) :=
  match brs with
  | [] => ret (Done, s)
  | br :: rest =>
      res <- mergeAvailablePartials E notifier s ;;
      match res with
      | (Done, s') => mergeEach E notifier rest s'
      | (Failed err, s') => ret (Failed (ErrSquashingRange br err), s')
      | (Panicked, s') => ret (Panicked, s')
      end
  end.

Definition squash (E : Env) (notifier : bool) (s : Squashable)
    (blockRange : Range) : M E (Outcome * Squashable) :=
  let splitBlockRanges := rangeSplit E blockRange (storeSaveInterval s) in
  match cumulateLoop splitBlockRanges s with
  | (Some err, s') => ret (Failed err, s')
  | (None, s') => mergeEach E notifier splitBlockRanges s'
  end.

(** A caller that keeps calling [squash] whatever the previous call
    returned; the outcomes are collected in call order. *)
Fixpoint squashAll (E : Env) (notifier : bool) (calls : list Range)
    (s : Squashable) : M E (list Outcome * Squashable) :=
  match calls with
  | [] => ret ([], s)
  | r :: rest =>
      res <- squash E notifier s r ;;
      res' <- squashAll E notifier rest (snd res) ;;
      ret (fst res :: fst res', snd res')
  end.

Record Squasher : Type := mkSquasher {
  squashables : gmap string Squashable;
  squasher_storeSaveInterval : Z;
  squasher_targetExclusiveBlock : Z;
  squasher_notifier : bool
}.

(** The two ways [NewSquasher] builds a Squashable from a store builder:
    without a saved snapshot ([LastKVSavedBlock = 0]) from a clone of the
    builder, expecting the module's initial block next; with one, from the
    store loaded from it (when the load succeeds), expecting the snapshot's
    end next. The clone and the loaded store are taken to carry the
    builder's name and initial blocks. *)
Definition newSquashableFor (builder : Store) (lastKVSavedBlock : Z)
    (targetExclusiveBlock storeSaveInterval : Z) : Squashable :=
  let storagePresent := negb (lastKVSavedBlock =? 0) in
  if negb storagePresent
  then NewSquashable builder targetExclusiveBlock storeSaveInterval
         (ModuleInitialBlock builder)
  else NewSquashable builder targetExclusiveBlock storeSaveInterval
         lastKVSavedBlock.

Definition Squash (E : Env) (sq : Squasher) (moduleName : string)
    (outgoingReqRange : Range) : M E (Outcome * Squasher) :=
  match squashables sq !! moduleName with
  | None => ret (Failed (ErrModuleNotFound moduleName), sq)
  | Some squashable =>
      res <- squash E (squasher_notifier sq) squashable outgoingReqRange ;;
      ret (fst res,
           mkSquasher (<[moduleName := snd res]> (squashables sq))
             (squasher_storeSaveInterval sq)
             (squasher_targetExclusiveBlock sq) (squasher_notifier sq))
  end.

Definition IsEmpty (s : Squashable) : bool :=
  match ranges s with [] => true | _ => false end.

(** The two messages [StoresReady] collects. *)
Inductive ReadyIssue : Type :=
| TargetNotReached (moduleName : string)
| MissingRanges (moduleName : string) (rs : list Range).

(** The body of the [range] loop of [StoresReady], over the squashables in
    the order in which the loop visits them. *)
Fixpoint readyIssues (visit : list Squashable) (errs : list ReadyIssue)
  : list ReadyIssue :=
  match visit with
  | [] => errs
  | v :: rest =>
      let errs :=
        if negb (targetReached v) then errs ++ [TargetNotReached (name v)]
        else errs in
      let errs :=
        if negb (IsEmpty v) then errs ++ [MissingRanges (name v) (ranges v)]
        else errs in
      readyIssues rest errs
  end.

(** [StoresReady]. Go visits a map in an unspecified order: [visit] is the
    order of this call, a permutation of the map's entries. [None] is the nil
    error; the error carries the messages that Go joins with ["; "]. *)
Definition StoresReady (sq : Squasher) (visit : list (string * Squashable))
  : option (list ReadyIssue) :=
  let errs := readyIssues (visit.*2) [] in
  if negb (length errs =? 0)%nat then Some errs else None.

End Orchestrator.

(** ** Package stage: the segment x stage matrix *)

Module Stage.
Import Mach Block.

(** [UnitState]; [UnitPending] is the zero value that [make] fills new rows
    with. *)
Inductive UnitState : Type :=
| UnitPending
| UnitPartialPresent
| UnitScheduled
| UnitMerging
| UnitCompleted.

#[global] Instance UnitState_eq_dec : EqDecision UnitState.
Proof. solve_decision. Defined.

Record Unit : Type := mkUnit {
  Segment : Z;
  Stage : Z
}.

#[global] Instance Unit_eq_dec : EqDecision Unit.
Proof. solve_decision. Defined.

(** The segmenter as [stages.go] uses it. This version of [block.Segmenter]
    (with [FirstIndex] and [LastIndex]) is not among the sources: the values
    of the three methods called here are taken as given. *)
Record SegmenterView : Type := mkSegmenterView {
  FirstIndex : Z;
  LastIndex : Z;
  RangeOf : Z -> option Range
}.

(** A [Stage], reduced to the segmenter that [Stages] consults. *)
Record StageT : Type := mkStage {
  stage_segmenter : SegmenterView
}.

(** Segment and stage indices are Go [int]s. The model is exact while they
    stay within [0, 2^63 - 1), where no operation on them wraps. *)
Record Stages : Type := mkStages {
  segmenter : SegmenterView;
  stages : list StageT;
  segmentStates : list (list UnitState);
  segmentOffset : Z
}.

(** A call returns a value or panics (index out of range). The loop of
    [NextJob] is bounded by a count of the segments left; [OutOfFuel] marks a
    loop cut short, which [NextJob] never returns. *)
Inductive Result (A : Type) : Type :=
| Ok (a : A)
| Panic
| OutOfFuel.
Arguments Ok {A} a.
Arguments Panic {A}.
Arguments OutOfFuel {A}.

(** Slice indexing [l[i]]: a negative or too large index panics. *)
Definition index {A : Type} (l : list A) (i : Z) : option A :=
  if i <? 0 then None else l !! Z.to_nat i.

Definition GetState (s : Stages) (u : Unit) : option UnitState :=
  row ← index (segmentStates s) (Segment u - segmentOffset s);
  index row (Stage u).

Definition setState (s : Stages) (u : Unit) (state : UnitState)
  : option Stages :=
  let i := Segment u - segmentOffset s in
  row ← index (segmentStates s) i;
  _ ← index row (Stage u);
  Some (mkStages (segmenter s) (stages s)
          (<[Z.to_nat i := <[Z.to_nat (Stage u) := state]> row]>
             (segmentStates s))
          (segmentOffset s)).

(** Modelled from the spec: [markSegmentScheduled] is not among the sources;
    the unit handed out moves to the state [scheduled]. *)
Definition markSegmentScheduled (s : Stages) (u : Unit) : option Stages :=
  setState s u UnitScheduled.

Definition growSegments (s : Stages) : Stages :=
  let by_ := length (segmentStates s) in
  let by_ := if (by_ =? 0)%nat then 2%nat else by_ in
  mkStages (segmenter s) (stages s)
    (segmentStates s
       ++ replicate by_ (replicate (length (stages s)) UnitPending))
    (segmentOffset s).

(** The loop of [dependenciesCompleted]: stages [n - 1] down to [0] of the
    segment [seg]; it stops at the first stage that is not completed. *)
Fixpoint lowerStagesCompleted (s : Stages) (seg : Z) (n : nat)
  : option bool :=
  match n with
  | O => Some true
  | S i =>
      st ← GetState s (mkUnit seg (Z.of_nat i));
      if negb (bool_decide (st = UnitCompleted)) then Some false
      else lowerStagesCompleted s seg i
  end.

(** [None] is a panic. *)
Definition dependenciesCompleted (s : Stages) (u : Unit) : option bool :=
  stage ← index (stages s) (Stage u);
  if Segment u <=? FirstIndex (stage_segmenter stage) then Some true
  else if Stage u =? 0 then Some true
  else lowerStagesCompleted s (Segment u - 1) (Z.to_nat (Stage u)).

(** The inner loop of [NextJob]: stages [n - 1] down to [0] of one segment;
    the unit found, if any. *)
Fixpoint stageLoop (s : Stages) (segmentIdx : Z) (n : nat)
  : option (option Unit) :=
  match n with
  | O => Some None
  | S i =>
      let stageIdx := Z.of_nat i in
      let unit := mkUnit segmentIdx stageIdx in
      segmentState ← GetState s unit;
      if negb (bool_decide (segmentState = UnitPending))
      then stageLoop s segmentIdx i
      else
        stage ← index (stages s) stageIdx;
        if segmentIdx <? FirstIndex (stage_segmenter stage)
        then stageLoop s segmentIdx i
        else
          completed ← dependenciesCompleted s unit;
          if negb completed then stageLoop s segmentIdx i
          else Some (Some unit)
  end.

(** The outer loop of [NextJob] from segment [segmentIdx] on. *)
Fixpoint segmentLoop (fuel : nat) (segmentIdx : Z) (s : Stages)
  : Result (Stages * option (Unit * option Range)) :=
  let s :=
    if Z.of_nat (length (segmentStates s)) <=? segmentIdx - segmentOffset s
    then growSegments s else s in
  if LastIndex (segmenter s) <? segmentIdx then Ok (s, None)
  else
    match stageLoop s segmentIdx (length (stages s)) with
    | None => Panic
    | Some (Some unit) =>
        match markSegmentScheduled s unit with
        | None => Panic
        | Some s' => Ok (s', Some (unit, RangeOf (segmenter s) (Segment unit)))
        end
    | Some None =>
        match fuel with
        | O => OutOfFuel
        | S fuel' => segmentLoop fuel' (segmentIdx + 1) s
        end
    end.

(** [NextJob]: the unit and its range, or [None] for the zero unit with a nil
    range. The loop visits the segments [FirstIndex .. LastIndex], so their
    count bounds it. *)
Definition NextJob (s : Stages)
  : Result (Stages * option (Unit * option Range)) :=
  segmentLoop
    (Z.to_nat (LastIndex (segmenter s) - FirstIndex (segmenter s) + 1))
    (FirstIndex (segmenter s)) s.

End Stage.

(** ** Specification vocabulary for the squasher *)

Module OrchestratorSpec.
Import Block Orchestrator.

(** A well-formed range is not empty. *)
Definition wfRange (r : Range) : Prop := StartBlock r < ExclusiveEndBlock r.

(** The ranges merged into the store, in order: the successful [Merge]
    calls of a log. *)
Fixpoint merged (evs : list Event) : list Range :=
  match evs with
  | [] => []
  | EvMerge r true :: evs' => r :: merged evs'
  | _ :: evs' => merged evs'
  end.

(** The ranges a log touches at all: every [LoadFrom] and [Merge] call. *)
Fixpoint touched (evs : list Event) : list Range :=
  match evs with
  | [] => []
  | EvLoadFrom r _ :: evs' => r :: touched evs'
  | EvMerge r _ :: evs' => r :: touched evs'
  | _ :: evs' => touched evs'
  end.

(** [chain a ms b]: the ranges [ms] are contiguous, the first starts at [a]
    and the last ends at [b]. *)
Fixpoint chain (a : Z) (ms : list Range) (b : Z) : Prop :=
  match ms with
  | [] => a = b
  | r :: ms' => StartBlock r = a /\ chain (ExclusiveEndBlock r) ms' b
  end.

Definition range_le (a b : Range) : Prop := range_leb a b = true.

(** The fields of a Squashable that no method changes. *)
Definition same_config (s s' : Squashable) : Prop :=
  name s' = name s /\ builder s' = builder s
  /\ storeSaveInterval s' = storeSaveInterval s
  /\ targetExclusiveBlock s' = targetExclusiveBlock s.

(** The Squashable after a fragment [r] was merged and persisted, before its
    range is dropped from the pending list. *)
Definition after_merge (s : Squashable) (r : Range) : Squashable :=
  let s1 := set_nextExpectedStartBlock s (ExclusiveEndBlock r) in
  if ExclusiveEndBlock r =? targetExclusiveBlock s
  then set_targetReached s1 true else s1.

(** The call that persists a merged fragment ending at [e]: [WriteState] on
    a boundary, else [DeletePartialFile] (whose failure [ok = false] is only
    logged). *)
Definition persist_event (s : Squashable) (e : Z) (ok : bool) : Event :=
  if e mod storeSaveInterval s =? 0 then EvWriteState e true
  else EvDeletePartialFile e ok.

Definition notify_events (notifier : bool) (s : Squashable) (e : Z)
  : list Event :=
  if (e =? targetExclusiveBlock s) && notifier
  then [EvNotify (Name (builder s)) e] else [].

(** The runs of the loop of [mergeAvailablePartials], one constructor per
    way through its body: [MergeRun notifier rs s evs out s'] when the loop,
    entered with pending list [rs] in state [s], logs [evs] and leaves with
    [out] in state [s']. *)
Inductive MergeRun (notifier : bool)
  : list Range -> Squashable -> list Event -> Outcome -> Squashable -> Prop :=
| run_cancelled rs s :
    MergeRun notifier rs s [] (Failed ErrContext) (set_ranges s rs)
| run_empty s :
    MergeRun notifier [] s [] Done (set_ranges s [])
| run_stalled r rest s :
    nextExpectedStartBlock s <> StartBlock r ->
    MergeRun notifier (r :: rest) s [] Done (set_ranges s (r :: rest))
| run_load_failed r rest s :
    nextExpectedStartBlock s = StartBlock r ->
    MergeRun notifier (r :: rest) s [EvLoadFrom r false]
      (Failed (ErrInitializingPartial (name s))) (set_ranges s (r :: rest))
| run_merge_failed r rest s :
    nextExpectedStartBlock s = StartBlock r ->
    MergeRun notifier (r :: rest) s [EvLoadFrom r true; EvMerge r false]
      (Failed ErrMerging) (set_ranges s (r :: rest))
| run_panicked r rest s :
    nextExpectedStartBlock s = StartBlock r ->
    storeSaveInterval s = 0 ->
    MergeRun notifier (r :: rest) s [EvLoadFrom r true; EvMerge r true]
      Panicked
      (set_ranges (set_nextExpectedStartBlock s (ExclusiveEndBlock r))
         (r :: rest))
| run_write_failed r rest s :
    nextExpectedStartBlock s = StartBlock r ->
    storeSaveInterval s <> 0 ->
    ExclusiveEndBlock r mod storeSaveInterval s = 0 ->
    MergeRun notifier (r :: rest) s
      [EvLoadFrom r true; EvMerge r true;
       EvWriteState (ExclusiveEndBlock r) false]
      (Failed ErrWritingState)
      (set_ranges (set_nextExpectedStartBlock s (ExclusiveEndBlock r))
         (r :: rest))
| run_merged r rest s ok evs out s' :
    nextExpectedStartBlock s = StartBlock r ->
    storeSaveInterval s <> 0 ->
    MergeRun notifier rest (after_merge s r) evs out s' ->
    MergeRun notifier (r :: rest) s
      ([EvLoadFrom r true; EvMerge r true;
        persist_event s (ExclusiveEndBlock r) ok]
       ++ notify_events notifier s (ExclusiveEndBlock r) ++ evs)
      out s'.

(** What follows the successful merge of a fragment ending at [e] on a
    boundary, read off the rest [post] of the log: the next call is
    [WriteState(e)], and right after it comes [Notify(moduleName, e)]
    exactly when the write succeeded, [e] is the target and a notifier is
    set; no [DeletePartialFile] stands in either place. *)
Definition boundary_followup (notifier : bool) (s : Squashable) (e : Z)
    (post : list Event) : Prop :=
  exists (ok : bool) (post' : list Event),
    post = EvWriteState e ok :: post'
    /\ (ok = true /\ e = targetExclusiveBlock s /\ notifier = true ->
        exists post'', post' = EvNotify (Name (builder s)) e :: post'')
    /\ (~ (ok = true /\ e = targetExclusiveBlock s /\ notifier = true) ->
        forall n e' post'', post' <> EvNotify n e' :: post'')
    /\ (forall e' ok' post'', post' <> EvDeletePartialFile e' ok' :: post'').

(** The rule above, for every successful boundary merge of a log. *)
Fixpoint boundary_rule (notifier : bool) (s : Squashable) (evs : list Event)
  : Prop :=
  match evs with
  | [] => True
  | EvMerge r true :: post =>
      (ExclusiveEndBlock r mod storeSaveInterval s = 0 ->
       boundary_followup notifier s (ExclusiveEndBlock r) post)
      /\ boundary_rule notifier s post
  | _ :: post => boundary_rule notifier s post
  end.

(** The parts of the result of a computation on a Squashable. *)
Definition run_outcome {A W : Type} (res : A * Squashable * W * list Event)
  : A := res.1.1.1.
Definition run_state {A W : Type} (res : A * Squashable * W * list Event)
  : Squashable := res.1.1.2.
Definition run_world {A W : Type} (res : A * Squashable * W * list Event)
  : W := res.1.2.
Definition run_events {A W : Type} (res : A * Squashable * W * list Event)
  : list Event := res.2.

(** What one call of [mergeAvailablePartials], and then the second loop of
    [squash], does to a Squashable. *)
Definition merge_facts (s : Squashable) (evs : list Event) (s' : Squashable)
  : Prop :=
  same_config s s'
  /\ chain (nextExpectedStartBlock s) (merged evs) (nextExpectedStartBlock s')
  /\ (forall x, x ∈ touched evs -> x ∈ ranges s)
  /\ ranges s' `suffix_of` ranges s
  /\ (forall x, x ∈ ranges s -> x ∈ ranges s' \/ x ∈ merged evs).

(** The messages of [StoresReady] for one Squashable. *)
Definition issues_of (v : Squashable) : list ReadyIssue :=
  (if targetReached v then [] else [TargetNotReached (name v)])
  ++ (if IsEmpty v then [] else [MissingRanges (name v) (ranges v)]).

(** An environment in which nothing fails and the context is never
    cancelled, over the trivial world; [Range.Split] as modelled. *)
Definition quietEnv : Env :=
  mkEnv unit
    (fun w => (w, false))
    (fun w _ => (w, true))
    (fun w _ => (w, true))
    (fun w _ => (w, true))
    (fun w _ => (w, true))
    (fun w _ _ => w)
    Split.

End OrchestratorSpec.

(** ** Specification vocabulary for the stage matrix *)

Module StageSpec.
Import Block Stage.

(** The state of a unit as [NextJob] sees it: rows that are not allocated
    yet read as pending, which is what [growSegments] fills them with. *)
Definition state_at (s : Stages) (seg stage : Z) : UnitState :=
  default UnitPending (GetState s (mkUnit seg stage)).

(** First segment index of a stage. *)
Definition stage_first (s : Stages) (stage : Z) : Z :=
  default 0 ((FirstIndex ∘ stage_segmenter) <$> index (stages s) stage).

(** The stage indices [n - 1, ..., 0]: from the highest to the lowest. *)
Fixpoint stage_order (n : nat) : list Z :=
  match n with
  | O => []
  | S i => Z.of_nat i :: stage_order i
  end.

(** Every stage below [stage] is completed in segment [seg]. *)
Definition lower_completed (s : Stages) (seg stage : Z) : bool :=
  forallb (fun i => bool_decide (state_at s seg i = UnitCompleted))
    (stage_order (Z.to_nat stage)).

(** The dependencies of a unit are completed: it is in the first segment of
    its stage, or its stage is 0, or every lower stage of the previous
    segment is completed. *)
Definition deps_done (s : Stages) (u : Unit) : bool :=
  (Segment u =? stage_first s (Stage u))
  || (Stage u =? 0)
  || lower_completed s (Segment u - 1) (Stage u).

(** A unit that [NextJob] may hand out: pending, of a stage that has
    started, with its dependencies completed. *)
Definition eligible (s : Stages) (u : Unit) : bool :=
  bool_decide (state_at s (Segment u) (Stage u) = UnitPending)
  && (stage_first s (Stage u) <=? Segment u)
  && deps_done s u.

(** The units of the segments [from .. LastIndex] in scan order: segments
    in increasing order, and within a segment the stages from the highest
    to the lowest. *)
Definition scan_from (s : Stages) (from : Z) : list Unit :=
  seg ← seqZ from (LastIndex (segmenter s) - from + 1);
  mkUnit seg <$> stage_order (length (stages s)).

Definition scan_order (s : Stages) : list Unit :=
  scan_from s (FirstIndex (segmenter s)).

(** The number of rows one call of [growSegments] appends. *)
Definition growth (rows : nat) : nat := if (rows =? 0)%nat then 2%nat else rows.

(** The states on which [NextJob] does not panic: the offset is a valid
    index at or below the first segment of the segmenter and of every
    stage, one growth of the matrix reaches the first segment (it then
    reaches every later one), and every row has one entry per stage. *)
Definition wf (s : Stages) : Prop :=
  0 <= segmentOffset s
  /\ segmentOffset s <= FirstIndex (segmenter s)
  /\ FirstIndex (segmenter s) - segmentOffset s
     < Z.of_nat (length (segmentStates s)
                 + growth (length (segmentStates s)))
  /\ Forall (fun row => length row = length (stages s)) (segmentStates s)
  /\ Forall (fun st => segmentOffset s <= FirstIndex (stage_segmenter st))
       (stages s).

(** [s'] is [s] with some pending rows appended. *)
Definition grown (s s' : Stages) : Prop :=
  segmenter s' = segmenter s /\ stages s' = stages s
  /\ segmentOffset s' = segmentOffset s
  /\ exists k,
       segmentStates s'
       = segmentStates s
         ++ replicate k (replicate (length (stages s)) UnitPending).

(** What [NextJob] returns for the unit found. *)
Definition job_of (s : Stages) (u : Unit) : Unit * option Range :=
  (u, RangeOf (segmenter s) (Segment u)).

End StageSpec.

(** ** Callers of the bytes meter *)

Module TrackingRuns.
Import Mach Tracking.

(** A caller that reports the written byte counts [ns] one after the other;
    a panic ends the run. *)
Fixpoint addAllBytesWritten (b : bytesMeter) (ns : list Z) : Outcome :=
  match ns with
  | [] => Returned b
  | n :: rest =>
      match AddBytesWritten b n with
      | Returned b' => addAllBytesWritten b' rest
      | Panicked msg => Panicked msg
      end
  end.

(** The same for the read byte counts. *)
Fixpoint addAllBytesRead (b : bytesMeter) (ns : list Z) : Outcome :=
  match ns with
  | [] => Returned b
  | n :: rest =>
      match AddBytesRead b n with
      | Returned b' => addAllBytesRead b' rest
      | Panicked msg => Panicked msg
      end
  end.

(** The sum of a list of integers. *)
Definition total (ns : list Z) : Z := foldr Z.add 0 ns.

End TrackingRuns.

(** ** Sequences of runs of the squasher *)

Module SquashRuns.
Import Block Orchestrator OrchestratorSpec.

(** What any sequence of [squash] calls amounts to for one Squashable: runs
    of the loop of [mergeAvailablePartials], between which the pending list
    is replaced (by [cumulateBoundedRange]). [Runs notifier s evs s'] when
    such a sequence leads from [s] to [s'] and logs [evs]. *)
Inductive Runs (notifier : bool)
  : Squashable -> list Event -> Squashable -> Prop :=
| runs_done s :
    Runs notifier s [] s
| runs_merge s evs out s1 evs' s' :
    MergeRun notifier (ranges s) s evs out s1 ->
    Runs notifier s1 evs' s' ->
    Runs notifier s (evs ++ evs') s'
| runs_pending s rs evs s' :
    Runs notifier (set_ranges s rs) evs s' ->
    Runs notifier s evs s'.

(** The calls a log may hold for a Squashable: [WriteState] at a multiple
    of the (non-zero) save interval, [DeletePartialFile] off the multiples,
    [Notify] with the store's name and the target block when a notifier is
    set. *)
Definition disciplined (notifier : bool) (s : Squashable) (ev : Event)
  : Prop :=
  match ev with
  | EvWriteState e _ =>
      storeSaveInterval s <> 0 /\ e mod storeSaveInterval s = 0
  | EvDeletePartialFile e _ =>
      storeSaveInterval s <> 0 /\ e mod storeSaveInterval s <> 0
  | EvNotify n e =>
      n = Name (builder s) /\ e = targetExclusiveBlock s /\ notifier = true
  | _ => True
  end.

(** The blocks a log notifies. *)
Fixpoint notified (evs : list Event) : list Z :=
  match evs with
  | [] => []
  | EvNotify _ e :: evs' => e :: notified evs'
  | _ :: evs' => notified evs'
  end.

(** The merged ranges of a log that end at block [t]. *)
Definition merged_ending_at (t : Z) (evs : list Event) : list Range :=
  filter (fun r => ExclusiveEndBlock r = t) (merged evs).

(** A Squashable that can merge nothing any more: its pending list is
    sorted and holds a range that starts before the expected block. *)
Definition wedged (s : Squashable) : Prop :=
  StronglySorted range_le (ranges s)
  /\ exists x, x ∈ ranges s /\ StartBlock x < nextExpectedStartBlock s.

(** An environment in which [WriteState] fails and all else succeeds. *)
Definition writeFailsEnv : Env :=
  mkEnv unit
    (fun w => (w, false))
    (fun w _ => (w, true))
    (fun w _ => (w, true))
    (fun w _ => (w, false))
    (fun w _ => (w, true))
    (fun w _ _ => w)
    Split.

(** The state in which the loop of [mergeAvailablePartials] is left, by
    outcome: [s] on entry, [evs] the calls logged, [s'] on exit. *)
Definition exit_state (s : Squashable) (out : Outcome) (evs : list Event)
    (s' : Squashable) : Prop :=
  match out with
  | Done =>
      ranges s' = []
      \/ exists r rest,
           ranges s' = r :: rest /\ nextExpectedStartBlock s' <> StartBlock r
  | Failed ErrContext => True
  | Failed (ErrInitializingPartial n) =>
      n = name s
      /\ exists r rest,
           ranges s' = r :: rest /\ nextExpectedStartBlock s' = StartBlock r
           /\ last evs = Some (EvLoadFrom r false)
  | Failed ErrMerging =>
      exists r rest,
        ranges s' = r :: rest /\ nextExpectedStartBlock s' = StartBlock r
        /\ last evs = Some (EvMerge r false)
  | Failed ErrWritingState =>
      storeSaveInterval s <> 0
      /\ exists r rest,
           ranges s' = r :: rest
           /\ nextExpectedStartBlock s' = ExclusiveEndBlock r
           /\ ExclusiveEndBlock r mod storeSaveInterval s = 0
           /\ last evs = Some (EvWriteState (ExclusiveEndBlock r) false)
  | Failed _ => False
  | Panicked =>
      storeSaveInterval s = 0
      /\ exists r rest,
           ranges s' = r :: rest
           /\ nextExpectedStartBlock s' = ExclusiveEndBlock r
           /\ last evs = Some (EvMerge r true)
  end.

(** A logged call that did not fail in a way the squasher reports: a
    failed [DeletePartialFile] is only logged as a warning. *)
Definition call_succeeded (ev : Event) : Prop :=
  match ev with
  | EvLoadFrom _ ok | EvMerge _ ok | EvWriteState _ ok => ok = true
  | EvDeletePartialFile _ _ | EvNotify _ _ => True
  end.

(** Nothing mergeable is left pending: no range is pending, or the first
    one does not start at the expected block. *)
Definition nothing_mergeable (s : Squashable) : Prop :=
  ranges s = []
  \/ exists r rest,
       ranges s = r :: rest /\ nextExpectedStartBlock s <> StartBlock r.

(** An environment in which deleting a partial file fails and all else
    succeeds. *)
Definition deleteFailsEnv : Env :=
  mkEnv unit
    (fun w => (w, false))
    (fun w _ => (w, true))
    (fun w _ => (w, true))
    (fun w _ => (w, true))
    (fun w _ => (w, false))
    (fun w _ _ => w)
    Split.

(** An environment whose context is cancelled from the start; the store
    calls would succeed. *)
Definition cancelledEnv : Env :=
  mkEnv unit
    (fun w => (w, true))
    (fun w _ => (w, true))
    (fun w _ => (w, true))
    (fun w _ => (w, true))
    (fun w _ => (w, true))
    (fun w _ _ => w)
    Split.

End SquashRuns.

(** ** Callers of the stage matrix *)

Module StageRuns.
Import Block Stage StageSpec.

(** [previousUnitComplete]; [None] is a panic. *)
Definition previousUnitComplete (s : Stages) (u : Unit) : option bool :=
  if Segment u - segmentOffset s <=? 0 then Some true
  else
    st ← GetState s (mkUnit (Segment u - 1) (Stage u));
    Some (bool_decide (st = UnitCompleted)).




(** [s'] has the segmenter, the stages and the offset of [s], at least as
    many rows, and rows of the right length if [s] has. *)
Definition evolved (s s' : Stages) : Prop :=
  segmenter s' = segmenter s /\ stages s' = stages s
  /\ segmentOffset s' = segmentOffset s
  /\ (length (segmentStates s) <= length (segmentStates s'))%nat
  /\ (Forall (fun row => length row = length (stages s)) (segmentStates s) ->
      Forall (fun row => length row = length (stages s)) (segmentStates s')).

End StageRuns.

(** * Properties *)

(** ** Machine integers *)

Section MachFacts.
Import Mach.

Lemma two64_eq : two64 = 18446744073709551616.
Proof. reflexivity. Qed.

Lemma two63_eq : two63 = 9223372036854775808.
Proof. reflexivity. Qed.

Lemma wrap64_small (x : Z) : is_u64 x -> wrap64 x = x.
Proof. intros Hx. unfold wrap64. apply Z.mod_small. exact Hx. Qed.

Lemma wrap64_range (x : Z) : is_u64 (wrap64 x).
Proof. unfold is_u64, wrap64. apply Z.mod_pos_bound. reflexivity. Qed.

Lemma to_int_small (x : Z) : 0 <= x < two63 -> to_int x = x.
Proof.
  intros Hx. unfold to_int.
  rewrite wrap64_small by (unfold is_u64; rewrite two64_eq, two63_eq in *; lia).
  destruct (Z.ltb_spec x two63); lia.
Qed.

Lemma to_int_high (x : Z) : two63 <= x < two64 -> to_int x = x - two64.
Proof.
  intros Hx. unfold to_int.
  rewrite wrap64_small by (unfold is_u64; rewrite two64_eq, two63_eq in *; lia).
  destruct (Z.ltb_spec x two63); lia.
Qed.

Lemma to_u64_negative (n : Z) : - two63 <= n < 0 -> to_u64 n = n + two64.
Proof.
  intros Hn. unfold to_u64, wrap64.
  symmetry. apply (Z.mod_unique n two64 (-1)).
  - left. rewrite two64_eq, two63_eq in *. lia.
  - lia.
Qed.

End MachFacts.

(** ** The segmenter *)

Section SegmenterFacts.
Import Mach Block.

Lemma MinOf_min (a b : Z) : MinOf a b = Z.min a b.
Proof. unfold MinOf. destruct (Z.ltb_spec a b); lia. Qed.

Lemma NewSegmenter_fields (I b0 bN : Z) (s : Segmenter) :
  NewSegmenter I b0 bN = Some s ->
  I <> 0 /\ interval s = I /\ initialBlock s = b0 /\ exclusiveEndBlock s = bN
  /\ count s = computeCount I b0 bN.
Proof.
  unfold NewSegmenter. destruct (Z.eqb_spec I 0) as [|Hne]; [discriminate|].
  intros [= <-]. simpl. auto.
Qed.

(** The floor of the initial block, as both range functions compute it. *)
Lemma floor_base (I b0 : Z) :
  0 < I -> is_u64 b0 -> wrap64 (b0 - b0 mod I) = b0 / I * I.
Proof.
  intros HI Hb. unfold is_u64 in *.
  pose proof (Z.div_mod b0 I ltac:(lia)) as Hdm.
  pose proof (Z.mod_pos_bound b0 I HI) as Hm.
  assert (b0 - b0 mod I = b0 / I * I) as -> by lia.
  assert (0 <= b0 / I) by (apply Z.div_pos; lia).
  apply wrap64_small. unfold is_u64. nia.
Qed.

(** Without wrap-around the count is the number of interval-aligned segments
    that meet [[b0, bN]]. *)
Lemma computeCount_positive (I b0 bN k : Z) :
  0 < I -> is_u64 b0 -> is_u64 bN -> b0 <= bN ->
  0 < k < computeCount I b0 bN ->
  computeCount I b0 bN = bN / I - b0 / I + 1 /\ bN / I - b0 / I + 1 < two63.
Proof.
  intros HI Hb0 HbN Hle Hk. unfold computeCount in *.
  unfold is_u64 in *.
  assert (0 <= b0 / I) by (apply Z.div_pos; lia).
  assert (b0 / I <= bN / I) by (apply Z.div_le_mono; lia).
  assert (bN / I <= bN) by (apply Z.div_le_upper_bound; nia).
  set (d := bN / I - b0 / I) in *.
  assert (0 <= d < two64) as Hd by lia.
  rewrite (wrap64_small d) in * by exact Hd.
  destruct (Z_lt_ge_dec (d + 1) two63) as [Hs|Hs].
  - rewrite (wrap64_small (d + 1)) in *
      by (unfold is_u64; rewrite two64_eq, two63_eq in *; lia).
    rewrite to_int_small in * by lia. lia.
  - exfalso. destruct (Z_lt_ge_dec (d + 1) two64) as [Hs'|Hs'].
    + rewrite (wrap64_small (d + 1)) in Hk by (unfold is_u64; lia).
      rewrite to_int_high in Hk by lia. lia.
    + assert (d + 1 = two64) as Heq by lia.
      rewrite Heq in Hk.
      change (to_int (wrap64 two64)) with 0 in Hk. lia.
Qed.

(** Start block of the segment [k > 0]: no wrap-around below the count. *)
Lemma rangeFromBegin_start (I b0 bN k : Z) :
  0 < I -> is_u64 b0 -> is_u64 bN -> b0 <= bN ->
  0 < k < computeCount I b0 bN ->
  wrap64 (wrap64 (b0 - b0 mod I) + wrap64 (to_u64 k * I)) = b0 / I * I + k * I
  /\ b0 / I * I + k * I <= bN.
Proof.
  intros HI Hb0 HbN Hle Hk.
  destruct (computeCount_positive I b0 bN k HI Hb0 HbN Hle Hk) as [Hc Hlt].
  rewrite Hc in Hk. rewrite floor_base by assumption.
  unfold is_u64 in *.
  assert (0 <= b0 / I) by (apply Z.div_pos; lia).
  pose proof (Z.mul_div_le bN I HI) as HbNfloor.
  assert (b0 / I * I + k * I <= bN) as Hbound by nia.
  unfold to_u64.
  rewrite (wrap64_small k) by (unfold is_u64; rewrite two64_eq, two63_eq in *; lia).
  rewrite (wrap64_small (k * I)) by (unfold is_u64; nia).
  rewrite wrap64_small by (unfold is_u64; nia).
  split; [reflexivity | exact Hbound].
Qed.

Lemma to_int_range (x : Z) : - two63 <= to_int x < two63.
Proof.
  unfold to_int. pose proof (wrap64_range x) as Hw. unfold is_u64 in Hw.
  rewrite two64_eq, two63_eq in *.
  destruct (Z.ltb_spec (wrap64 x) 9223372036854775808); lia.
Qed.

(** [NewRange] on the bounds of a Range of the spec, and on other bounds. *)
Lemma NewRange_Built (a b : Z) : a < b -> NewRange a b = Built (mkRange a b).
Proof. intros H. unfold NewRange. destruct (Z.ltb_spec a b); [reflexivity|lia]. Qed.

Lemma NewRange_Unbuilt (a b : Z) : b <= a -> NewRange a b = Unbuilt a b.
Proof. intros H. unfold NewRange. destruct (Z.ltb_spec a b); [lia|reflexivity]. Qed.

Lemma NewRange_inv (a b : Z) (r : Range) :
  NewRange a b = Built r -> a < b /\ r = mkRange a b.
Proof.
  unfold NewRange. destruct (Z.ltb_spec a b); [|discriminate].
  intros [= <-]. auto.
Qed.

(** A positive count is the exact number of segments: the conversion to [int]
    did not wrap. *)
Lemma computeCount_exact (I b0 bN : Z) :
  0 < I -> is_u64 b0 -> is_u64 bN -> b0 <= bN ->
  0 < computeCount I b0 bN ->
  computeCount I b0 bN = bN / I - b0 / I + 1 /\ bN / I - b0 / I + 1 < two63.
Proof.
  intros HI Hb0 HbN Hle Hpos. unfold computeCount in *. unfold is_u64 in *.
  assert (0 <= b0 / I) by (apply Z.div_pos; lia).
  assert (b0 / I <= bN / I) by (apply Z.div_le_mono; lia).
  assert (bN / I <= bN) by (apply Z.div_le_upper_bound; nia).
  set (d := bN / I - b0 / I) in *.
  rewrite (wrap64_small d) in * by (unfold is_u64; lia).
  destruct (Z_lt_ge_dec (d + 1) two63) as [Hs|Hs].
  - rewrite (wrap64_small (d + 1)) in *
      by (unfold is_u64; rewrite two64_eq, two63_eq in *; lia).
    rewrite to_int_small in * by lia. lia.
  - exfalso. destruct (Z_lt_ge_dec (d + 1) two64) as [Hs'|Hs'].
    + rewrite (wrap64_small (d + 1)) in Hpos by (unfold is_u64; lia).
      rewrite to_int_high in Hpos by lia. lia.
    + assert (d + 1 = two64) as Heq by lia.
      rewrite Heq in Hpos.
      change (to_int (wrap64 two64)) with 0 in Hpos. lia.
Qed.

(** What [Range] does at a valid index when the initial block does not
    exceed the exclusive end: it calls [NewRange] on these bounds, with the
    one sum that may wrap left as the code computes it. *)
Lemma Segmenter_Range_exact (I b0 bN : Z) (s : Segmenter) (k : Z) :
  is_u64 I -> is_u64 b0 -> is_u64 bN -> b0 <= bN ->
  NewSegmenter I b0 bN = Some s ->
  0 <= k < Count s ->
  Count s = bN / I - b0 / I + 1
  /\ Count s < two63
  /\ b0 / I * I + k * I <= bN
  /\ Segmenter_Range s k
     = NewRange (if k =? 0 then b0 else b0 / I * I + k * I)
         (MinOf (wrap64 (b0 / I * I + k * I + I)) bN).
Proof.
  intros HI Hb0 HbN Hle Hnew Hk.
  destruct (NewSegmenter_fields _ _ _ _ Hnew) as (Hne & Hi & Hb & He & Hc).
  assert (0 < I) as HIpos by (unfold is_u64 in HI; lia).
  unfold Count in *. rewrite Hc in *.
  destruct (computeCount_exact I b0 bN) as [Hcount Hsmall];
    try assumption; try lia.
  split; [exact Hcount|]. split; [lia|].
  pose proof (Z.mul_div_le b0 I HIpos) as Hfloor.
  unfold Segmenter_Range.
  destruct (Z.ltb_spec k 0) as [Hcontra|_]; [lia|].
  destruct (Z.eqb_spec k 0) as [->|Hk0].
  - split; [lia|]. unfold firstRange. rewrite Hi, Hb, He.
    destruct (Z.ltb_spec bN b0) as [Hcontra|_]; [lia|].
    rewrite floor_base by assumption.
    replace (b0 / I * I + 0 * I + I) with (b0 / I * I + I) by lia.
    reflexivity.
  - destruct (rangeFromBegin_start I b0 bN k) as [Hstart Hbound];
      try assumption; try lia.
    split; [exact Hbound|].
    unfold rangeFromBegin. rewrite Hc, Hi, Hb, He.
    destruct (Z.leb_spec (computeCount I b0 bN) k) as [Hcontra|_]; [lia|].
    rewrite Hstart. reflexivity.
Qed.

(** The bounds of a segment that holds a block form a Range: [Range]
    returns it. *)
Lemma Segmenter_Range_Built (I b0 bN : Z) (s : Segmenter) (k : Z) :
  is_u64 I -> is_u64 b0 -> is_u64 bN -> b0 <= bN ->
  NewSegmenter I b0 bN = Some s ->
  0 <= k < Count s ->
  k < Count s - 1 \/ (b0 < bN /\ bN mod I <> 0 /\ bN + I < two64) ->
  Segmenter_Range s k
  = Built (mkRange (if k =? 0 then b0 else b0 / I * I + k * I)
             (Z.min (b0 / I * I + k * I + I) bN))
  /\ (if k =? 0 then b0 else b0 / I * I + k * I)
     < Z.min (b0 / I * I + k * I + I) bN.
Proof.
  intros HI Hb0 HbN Hle Hnew Hk Hcase.
  destruct (NewSegmenter_fields _ _ _ _ Hnew) as (Hne & _).
  assert (0 < I) as HIpos by (unfold is_u64 in HI; lia).
  destruct (Segmenter_Range_exact I b0 bN s k)
    as (Hcount & Hsmall & Hbound & Hr); try assumption.
  assert (0 <= b0 / I) by (apply Z.div_pos; unfold is_u64 in *; lia).
  assert (0 <= b0 / I * I) by (apply Z.mul_nonneg_nonneg; lia).
  assert (0 <= k * I) by (apply Z.mul_nonneg_nonneg; lia).
  pose proof (Z.div_mod b0 I ltac:(lia)) as Hdm0.
  pose proof (Z.mod_pos_bound b0 I HIpos) as Hm0.
  pose proof (Z.div_mod bN I ltac:(lia)) as HdmN.
  pose proof (Z.mod_pos_bound bN I HIpos) as HmN.
  assert (b0 / I * I + k * I + I < two64
          /\ (if k =? 0 then b0 else b0 / I * I + k * I)
             < Z.min (b0 / I * I + k * I + I) bN) as [Hfit Hlt].
  { destruct Hcase as [Hbefore|(Hlt & Hmod & Hov)].
    - assert (b0 / I * I + k * I + I <= bN) by nia.
      split; [unfold is_u64 in *; lia|].
      destruct (Z.eqb_spec k 0); lia.
    - split; [lia|].
      assert (b0 / I * I + k * I <> bN).
      { intros Heq. apply Hmod. rewrite <- Heq.
        replace (b0 / I * I + k * I) with ((b0 / I + k) * I) by lia.
        apply Z.mod_mul. lia. }
      destruct (Z.eqb_spec k 0); lia. }
  rewrite Hr, wrap64_small, MinOf_min by (unfold is_u64 in *; lia).
  split; [apply NewRange_Built; exact Hlt|exact Hlt].
Qed.

End SegmenterFacts.

Ltac mach_bounds :=
  unfold Mach.is_u64, Mach.is_int in *;
  rewrite ?two64_eq, ?two63_eq in *; lia.

Section SegmenterClaims.
Import Mach Block.

(** C3, as amended. For a Segmenter built from interval [I], initial block
    [b0] and exclusive end [bN] with [b0 < bN] (and [bN + I] within uint64),
    [Range(0)] is [[b0, min(floor(b0/I)*I + I, bN))], and for every index
    [0 < k < Count()] whose segment starts below [bN], [Range(k)] is
    [[base + k*I, min(base + (k+1)*I, bN))] with [base = floor(b0/I)*I].
    The one index this leaves out is the last when [bN] is a multiple of
    [I]: its segment would start at [bN] and hold no block. *)
Theorem Segmenter_Range_bounds (I b0 bN : Z) (s : Segmenter) :
  is_u64 I -> is_u64 b0 -> is_u64 bN -> b0 < bN -> bN + I < two64 ->
  NewSegmenter I b0 bN = Some s ->
  Segmenter_Range s 0 = Built (mkRange b0 (Z.min (b0 / I * I + I) bN))
  /\ (forall k : Z, 0 < k < Count s ->
        b0 / I * I + k * I < bN ->
        Segmenter_Range s k
        = Built (mkRange (b0 / I * I + k * I)
                   (Z.min (b0 / I * I + (k + 1) * I) bN)))
  /\ (forall k : Z, 0 < k < Count s ->
        b0 / I * I + k * I < bN
        \/ (k = Count s - 1 /\ bN mod I = 0 /\ b0 / I * I + k * I = bN)).
Proof.
  intros HI Hb0 HbN Hlt Hov Hnew.
  destruct (NewSegmenter_fields _ _ _ _ Hnew) as (Hne & Hi & Hb & He & Hc).
  assert (0 < I) as HIpos by (unfold is_u64 in HI; lia).
  assert (0 <= b0 / I) as Hq by (apply Z.div_pos; unfold is_u64 in *; lia).
  assert (0 <= b0 / I * I) by (apply Z.mul_nonneg_nonneg; lia).
  pose proof (Z.div_mod b0 I ltac:(lia)) as Hdm0.
  pose proof (Z.mod_pos_bound b0 I HIpos) as Hm0.
  pose proof (Z.div_mod bN I ltac:(lia)) as HdmN.
  pose proof (Z.mod_pos_bound bN I HIpos) as HmN.
  split; [|split].
  - unfold Segmenter_Range, firstRange. simpl.
    rewrite Hi, Hb, He.
    destruct (Z.ltb_spec bN b0) as [Hcontra|_]; [lia|].
    rewrite floor_base by assumption.
    rewrite wrap64_small, MinOf_min by (unfold is_u64 in *; lia).
    apply NewRange_Built. lia.
  - intros k Hk Hstart.
    destruct (Segmenter_Range_exact I b0 bN s k)
      as (_ & _ & _ & Hr); try assumption; try lia.
    rewrite Hr. destruct (Z.eqb_spec k 0); [lia|].
    rewrite wrap64_small, MinOf_min by (unfold is_u64 in *; lia).
    replace (b0 / I * I + (k + 1) * I) with (b0 / I * I + k * I + I) by lia.
    apply NewRange_Built. lia.
  - intros k Hk.
    destruct (Segmenter_Range_exact I b0 bN s k)
      as (Hcount & _ & Hbound & Hr); try assumption; try lia.
    destruct (Z_lt_ge_dec (b0 / I * I + k * I) bN) as [Hbelow|Hat];
      [left; exact Hbelow|right].
    assert (b0 / I * I + k * I = bN) as Heq by lia.
    assert (bN mod I = 0) as Hmod.
    { rewrite <- Heq.
      replace (b0 / I * I + k * I) with ((b0 / I + k) * I) by lia.
      apply Z.mod_mul. lia. }
    split; [nia|]. split; [exact Hmod|exact Heq].
Qed.

Lemma Segmenter_Range_bounds_witness :
  let s := mkSegmenter 10 5 75 8 in
  Segmenter_Range s 0 = Built (mkRange 5 (Z.min (5 / 10 * 10 + 10) 75))
  /\ (forall k : Z, 0 < k < Count s ->
        5 / 10 * 10 + k * 10 < 75 ->
        Segmenter_Range s k
        = Built (mkRange (5 / 10 * 10 + k * 10)
                   (Z.min (5 / 10 * 10 + (k + 1) * 10) 75)))
  /\ (forall k : Z, 0 < k < Count s ->
        5 / 10 * 10 + k * 10 < 75
        \/ (k = Count s - 1 /\ 75 mod 10 = 0 /\ 5 / 10 * 10 + k * 10 = 75)).
Proof.
  apply (Segmenter_Range_bounds 10 5 75 (mkSegmenter 10 5 75 8));
    try mach_bounds; try lia; reflexivity.
Defined.

(** C3 as stated fails when the initial block is a multiple of the interval:
    the ceiling formula gives the empty bounds [[0, 0)], the code the range
    [[0, 10)]. *)
Lemma Segmenter_Range_first_not_ceiling :
  NewSegmenter 10 0 35 = Some (mkSegmenter 10 0 35 4)
  /\ Segmenter_Range (mkSegmenter 10 0 35 4) 0 = Built (mkRange 0 10)
  /\ mkRange 0 (Z.min (ceil_div 0 10 * 10) 35) = mkRange 0 0
  /\ Segmenter_Range (mkSegmenter 10 0 35 4) 0
     <> Built (mkRange 0 (Z.min (ceil_div 0 10 * 10) 35)).
Proof. repeat split; try reflexivity. vm_compute. discriminate. Qed.

(** C4, as amended. For every Segmenter and every valid index
    [0 <= k < Count()] at which [Range(k)] returns a range,
    [IndexForBlock] of that range's start block is [k]. When the initial
    block does not exceed the exclusive end, [Range(k)] returns a range at
    every valid index below [Count() - 1], and at every valid index when
    [b0 < bN], [bN] is not a multiple of [I] and [bN + I] is within
    uint64. *)
Theorem IndexForBlock_Range_start (I b0 bN : Z) (s : Segmenter) (k : Z) :
  is_u64 I -> is_u64 b0 -> is_u64 bN ->
  NewSegmenter I b0 bN = Some s ->
  0 <= k < Count s ->
  (forall r : Range,
     Segmenter_Range s k = Built r -> IndexForBlock s (StartBlock r) = k)
  /\ (b0 <= bN ->
      k < Count s - 1 \/ (b0 < bN /\ bN mod I <> 0 /\ bN + I < two64) ->
      exists r : Range, Segmenter_Range s k = Built r).
Proof.
  intros HI Hb0 HbN Hnew Hk.
  destruct (NewSegmenter_fields _ _ _ _ Hnew) as (Hne & Hi & Hb & He & Hc).
  assert (0 < I) as HIpos by (unfold is_u64 in HI; lia).
  assert (0 <= b0 / I) as HF by (apply Z.div_pos; unfold is_u64 in *; lia).
  assert (0 <= bN / I) as HG by (apply Z.div_pos; unfold is_u64 in *; lia).
  assert (k < two63) as Hk63.
  { unfold Count in Hk. rewrite Hc in Hk. unfold computeCount in Hk.
    pose proof (to_int_range (wrap64 (wrap64 (bN / I - b0 / I) + 1))). lia. }
  split.
  - intros r Hr.
    destruct (Z_le_gt_dec b0 bN) as [Hle|Hgt].
    + (* the initial block does not exceed the exclusive end *)
      destruct (Segmenter_Range_exact I b0 bN s k)
        as (Hcount & Hsmall & Hbound & Hcall); try assumption.
      rewrite Hcall in Hr. apply NewRange_inv in Hr as [_ ->].
      unfold IndexForBlock. rewrite Hi, Hb. cbn [StartBlock].
      destruct (Z.eqb_spec k 0) as [->|Hk0].
      * rewrite Z.sub_diag. reflexivity.
      * replace (b0 / I * I + k * I) with ((b0 / I + k) * I) by lia.
        rewrite Z.div_mul by lia.
        replace (b0 / I + k - b0 / I) with k by lia.
        rewrite (wrap64_small k) by mach_bounds.
        apply to_int_small. lia.
    + (* the exclusive end is below the initial block *)
      unfold Segmenter_Range in Hr.
      destruct (Z.ltb_spec k 0) as [Hcontra|_]; [lia|].
      destruct (Z.eqb_spec k 0) as [->|Hk0].
      { unfold firstRange in Hr. rewrite Hb, He in Hr.
        destruct (Z.ltb_spec bN b0); [discriminate|lia]. }
      assert (bN / I <= b0 / I) as HGF by (apply Z.div_le_mono; lia).
      assert (I = 1) as ->.
      { destruct (Z.eq_dec I 1) as [|HI1]; [assumption|exfalso].
        assert (b0 / I * 2 <= b0 / I * I)
          by (apply Z.mul_le_mono_nonneg_l; lia).
        pose proof (Z.mul_div_le b0 I HIpos) as Hfl.
        assert (b0 / I < two63)
          by (unfold is_u64 in *; rewrite two64_eq, two63_eq in *; lia).
        unfold Count in Hk. rewrite Hc in Hk. unfold computeCount in Hk.
        destruct (Z.eq_dec (bN / I) (b0 / I)) as [Heq|Hneq].
        - rewrite Heq, Z.sub_diag in Hk.
          change (to_int (wrap64 (wrap64 0 + 1))) with 1 in Hk. lia.
        - assert (wrap64 (bN / I - b0 / I) = bN / I - b0 / I + two64) as Hw.
          { unfold wrap64. symmetry.
            apply (Z.mod_unique _ two64 (-1)); [left|];
              rewrite two64_eq, two63_eq in *; lia. }
          rewrite Hw in Hk.
          destruct (Z.eq_dec (bN / I - b0 / I + two64 + 1) two64) as [Hz|Hnz].
          + rewrite Hz in Hk.
            change (to_int (wrap64 two64)) with 0 in Hk. lia.
          + rewrite wrap64_small in Hk
              by (unfold is_u64; rewrite two64_eq, two63_eq in *; lia).
            rewrite to_int_high in Hk
              by (rewrite two64_eq, two63_eq in *; lia).
            lia. }
      unfold rangeFromBegin in Hr. rewrite Hb, He, Hi in Hr.
      destruct (count s <=? k); [discriminate|].
      apply NewRange_inv in Hr as [_ ->].
      unfold IndexForBlock. rewrite Hi, Hb. cbn [StartBlock].
      rewrite Z.mod_1_r, Z.sub_0_r, Z.mul_1_r, !Z.div_1_r.
      unfold to_u64.
      rewrite (wrap64_small b0), !(wrap64_small k) by mach_bounds.
      destruct (Z_lt_ge_dec (b0 + k) two64) as [Hfit|Hwrap].
      * rewrite (wrap64_small (b0 + k)) by mach_bounds.
        replace (b0 + k - b0) with k by lia.
        rewrite (wrap64_small k) by mach_bounds.
        apply to_int_small. lia.
      * assert (wrap64 (b0 + k) = b0 + k - two64) as ->.
        { unfold wrap64. symmetry.
          apply (Z.mod_unique _ two64 1); [left|]; mach_bounds. }
        assert (wrap64 (b0 + k - two64 - b0) = k) as ->.
        { unfold wrap64. symmetry.
          apply (Z.mod_unique _ two64 (-1)); [left|]; mach_bounds. }
        apply to_int_small. lia.
  - intros Hle Hcase.
    destruct (Segmenter_Range_Built I b0 bN s k) as [Hr _]; try assumption.
    eauto.
Qed.

Lemma IndexForBlock_Range_start_witness :
  (forall r : Range,
     Segmenter_Range (mkSegmenter 10 5 75 8) 6 = Built r ->
     IndexForBlock (mkSegmenter 10 5 75 8) (StartBlock r) = 6)
  /\ (5 <= 75 ->
      6 < Count (mkSegmenter 10 5 75 8) - 1
      \/ (5 < 75 /\ 75 mod 10 <> 0 /\ 75 + 10 < two64) ->
      exists r : Range, Segmenter_Range (mkSegmenter 10 5 75 8) 6 = Built r).
Proof.
  apply (IndexForBlock_Range_start 10 5 75 (mkSegmenter 10 5 75 8) 6);
    try mach_bounds; try lia; try reflexivity.
  unfold Count. simpl. lia.
Defined.

(** C4 as stated fails for a Segmenter whose exclusive end lies below its
    initial block inside the same segment: the count is 1, yet [Range(0)]
    is nil (the guard of [firstRange]), so index 0 has no start block. *)
Lemma IndexForBlock_Range_end_before_initial :
  NewSegmenter 10 5 3 = Some (mkSegmenter 10 5 3 1)
  /\ 0 <= 0 < Count (mkSegmenter 10 5 3 1)
  /\ Segmenter_Range (mkSegmenter 10 5 3 1) 0 = NilRange
  /\ ~ exists r : Range,
         Segmenter_Range (mkSegmenter 10 5 3 1) 0 = Built r
         /\ IndexForBlock (mkSegmenter 10 5 3 1) (StartBlock r) = 0.
Proof.
  split; [reflexivity|]. split; [unfold Count; simpl; lia|].
  split; [reflexivity|].
  intros (r & Hr & _). vm_compute in Hr. discriminate.
Qed.

End SegmenterClaims.

(** ** The bytes meter *)

Section BytesMeterClaims.
Import Mach Tracking.

(** C10. [AddBytesWritten(n)] panics exactly when [n < 0] and otherwise adds
    [n] to [BytesWritten()] (a uint64 addition: exact while the sum stays
    below 2^64). [AddBytesRead(n)] never panics; it adds [uint64(n)], which
    for a negative [n] is [n + 2^64], so that [BytesRead()] then wraps modulo
    2^64 and decreases whenever it was at least [-n]. *)
Theorem bytesMeter_add (b : bytesMeter) (n : Z) :
  meter_ok b -> is_int n ->
  ((exists msg, AddBytesWritten b n = Panicked msg) <-> n < 0)
  /\ (0 <= n ->
      exists b', AddBytesWritten b n = Returned b'
        /\ BytesWritten b' = wrap64 (BytesWritten b + n)
        /\ (BytesWritten b + n < two64 ->
            BytesWritten b' = BytesWritten b + n)
        /\ BytesRead b' = BytesRead b)
  /\ (exists b', AddBytesRead b n = Returned b'
        /\ BytesRead b' = wrap64 (BytesRead b + to_u64 n)
        /\ BytesWritten b' = BytesWritten b
        /\ (n < 0 -> to_u64 n = n + two64)
        /\ (n < 0 -> - n <= BytesRead b ->
            BytesRead b' = BytesRead b + n /\ BytesRead b' < BytesRead b)).
Proof.
  intros [Hw Hr] Hn. unfold AddBytesWritten, AddBytesRead, BytesWritten, BytesRead.
  split; [|split].
  - destruct (Z.ltb_spec n 0) as [Hneg|Hpos]; split.
    + intros _. exact Hneg.
    + intros _. eexists. reflexivity.
    + intros [msg Hmsg]. discriminate.
    + intros Hneg. lia.
  - intros Hpos. destruct (Z.ltb_spec n 0) as [Hneg|_]; [lia|].
    eexists. split; [reflexivity|]. simpl.
    assert (to_u64 n = n) as -> by (apply wrap64_small; mach_bounds).
    split; [reflexivity|]. split; [|reflexivity].
    intros Hsmall. apply wrap64_small. unfold is_u64 in *. lia.
  - eexists. split; [reflexivity|]. simpl.
    split; [reflexivity|]. split; [reflexivity|].
    split.
    + intros Hneg. apply to_u64_negative. unfold is_int in Hn. lia.
    + intros Hneg Hge.
      rewrite (to_u64_negative n) by (unfold is_int in Hn; lia).
      assert (wrap64 (bytesRead b + (n + two64)) = bytesRead b + n) as ->.
      { unfold wrap64. symmetry.
        apply (Z.mod_unique (bytesRead b + (n + two64)) two64 1).
        - left. unfold is_u64 in Hr. lia.
        - lia. }
      lia.
Qed.

Lemma bytesMeter_add_witness :
  ((exists msg, AddBytesWritten (mkBytesMeter 10 10) (-3) = Panicked msg)
   <-> -3 < 0)
  /\ (0 <= -3 ->
      exists b', AddBytesWritten (mkBytesMeter 10 10) (-3) = Returned b'
        /\ BytesWritten b' = wrap64 (BytesWritten (mkBytesMeter 10 10) + -3)
        /\ (BytesWritten (mkBytesMeter 10 10) + -3 < two64 ->
            BytesWritten b' = BytesWritten (mkBytesMeter 10 10) + -3)
        /\ BytesRead b' = BytesRead (mkBytesMeter 10 10))
  /\ (exists b', AddBytesRead (mkBytesMeter 10 10) (-3) = Returned b'
        /\ BytesRead b' = wrap64 (BytesRead (mkBytesMeter 10 10) + to_u64 (-3))
        /\ BytesWritten b' = BytesWritten (mkBytesMeter 10 10)
        /\ (-3 < 0 -> to_u64 (-3) = -3 + two64)
        /\ (-3 < 0 -> - -3 <= BytesRead (mkBytesMeter 10 10) ->
            BytesRead b' = BytesRead (mkBytesMeter 10 10) + -3
            /\ BytesRead b' < BytesRead (mkBytesMeter 10 10))).
Proof.
  apply (bytesMeter_add (mkBytesMeter 10 10) (-3)).
  - split; simpl; mach_bounds.
  - mach_bounds.
Defined.

End BytesMeterClaims.

(** ** Sorting the pending ranges *)

Section SortRanges.
Import Block OrchestratorSpec.

Lemma range_le_total (a b : Range) : range_le a b \/ range_le b a.
Proof.
  unfold range_le, range_leb.
  destruct (Z.ltb_spec (StartBlock a) (StartBlock b));
    destruct (Z.ltb_spec (StartBlock b) (StartBlock a));
    destruct (Z.eqb_spec (StartBlock a) (StartBlock b));
    destruct (Z.eqb_spec (StartBlock b) (StartBlock a));
    destruct (Z.leb_spec (ExclusiveEndBlock a) (ExclusiveEndBlock b));
    destruct (Z.leb_spec (ExclusiveEndBlock b) (ExclusiveEndBlock a));
    simpl; auto; lia.
Qed.

Lemma range_le_trans (a b c : Range) :
  range_le a b -> range_le b c -> range_le a c.
Proof.
  unfold range_le, range_leb.
  destruct (Z.ltb_spec (StartBlock a) (StartBlock b));
    destruct (Z.ltb_spec (StartBlock b) (StartBlock c));
    destruct (Z.ltb_spec (StartBlock a) (StartBlock c));
    destruct (Z.eqb_spec (StartBlock a) (StartBlock b));
    destruct (Z.eqb_spec (StartBlock b) (StartBlock c));
    destruct (Z.eqb_spec (StartBlock a) (StartBlock c));
    destruct (Z.leb_spec (ExclusiveEndBlock a) (ExclusiveEndBlock b));
    destruct (Z.leb_spec (ExclusiveEndBlock b) (ExclusiveEndBlock c));
    destruct (Z.leb_spec (ExclusiveEndBlock a) (ExclusiveEndBlock c));
    simpl; auto; try discriminate; lia.
Qed.

Lemma insert_sorted_perm (x : Range) (l : list Range) :
  insert_sorted x l ≡ₚ x :: l.
Proof.
  induction l as [|y l IH]; simpl; [reflexivity|].
  destruct (range_leb x y); [reflexivity|].
  rewrite IH. apply Permutation_swap.
Qed.

Lemma sortRanges_perm (l : list Range) : sortRanges l ≡ₚ l.
Proof.
  induction l as [|x l IH]; simpl; [reflexivity|].
  rewrite insert_sorted_perm, IH. reflexivity.
Qed.

Lemma insert_sorted_sorted (x : Range) (l : list Range) :
  StronglySorted range_le l -> StronglySorted range_le (insert_sorted x l).
Proof.
  induction l as [|y l IH]; simpl; intros Hs.
  - constructor; constructor.
  - apply StronglySorted_inv in Hs as [Hl Hy].
    destruct (range_leb x y) eqn:Hxy.
    + constructor; [constructor; assumption|].
      constructor; [exact Hxy|].
      eapply Forall_impl; [exact Hy|].
      intros z Hz. eapply range_le_trans; [exact Hxy | exact Hz].
    + constructor; [auto|].
      rewrite insert_sorted_perm. constructor; [|exact Hy].
      destruct (range_le_total x y) as [Hc|Hc]; [|exact Hc].
      unfold range_le in Hc. congruence.
Qed.

Lemma sortRanges_sorted (l : list Range) : StronglySorted range_le (sortRanges l).
Proof.
  induction l as [|x l IH]; simpl; [constructor|].
  apply insert_sorted_sorted. exact IH.
Qed.

Lemma StronglySorted_suffix {A : Type} (R : A -> A -> Prop) (l1 l2 : list A) :
  l1 `suffix_of` l2 -> StronglySorted R l2 -> StronglySorted R l1.
Proof.
  intros [k ->]. induction k as [|x k IH]; simpl; [auto|].
  intros Hs. apply StronglySorted_inv in Hs as [Hs _]. auto.
Qed.

(** The modelled [Range.Split] cuts a non-empty range into non-empty
    pieces. *)
Lemma split_from_wf (fuel : nat) :
  forall (chunk start stop : Z),
    0 < chunk -> start < stop ->
    Forall wfRange (split_from fuel chunk start stop).
Proof.
  induction fuel as [|fuel IH]; intros chunk start stop Hc Hlt; simpl;
    [constructor|].
  assert (start < (start / chunk + 1) * chunk) as Hnext.
  { pose proof (Z.div_mod start chunk ltac:(lia)).
    pose proof (Z.mod_pos_bound start chunk Hc). lia. }
  destruct (Z.leb_spec stop ((start / chunk + 1) * chunk)).
  - repeat constructor. exact Hlt.
  - constructor; [exact Hnext|]. apply IH; lia.
Qed.

Lemma Split_wf (r : Range) (chunk : Z) :
  wfRange r -> Forall wfRange (Split r chunk).
Proof.
  intros Hr. unfold Split, wfRange in *.
  destruct (Z.leb_spec chunk 0); simpl; [repeat constructor; exact Hr|].
  destruct (Z.leb_spec (ExclusiveEndBlock r) (StartBlock r)); [lia|].
  apply split_from_wf; lia.
Qed.

End SortRanges.

(** ** The squasher *)

Section SquashableRuns.
Import Block Orchestrator OrchestratorSpec.

Context (E : Env).

Lemma after_merge_config (s : Squashable) (r : Range) :
  same_config s (after_merge s r).
Proof.
  unfold after_merge, same_config.
  destruct (ExclusiveEndBlock r =? targetExclusiveBlock s); simpl; auto.
Qed.

Lemma after_merge_next (s : Squashable) (r : Range) :
  nextExpectedStartBlock (after_merge s r) = ExclusiveEndBlock r.
Proof.
  unfold after_merge.
  destruct (ExclusiveEndBlock r =? targetExclusiveBlock s); reflexivity.
Qed.

Lemma run_merged_eq (notifier : bool) (r : Range) (rest : list Range)
    (s s1 : Squashable) (ok : bool) (evs all : list Event) (out : Outcome) (s' : Squashable) :
  nextExpectedStartBlock s = StartBlock r ->
  storeSaveInterval s <> 0 ->
  s1 = after_merge s r ->
  all = [EvLoadFrom r true; EvMerge r true;
         persist_event s (ExclusiveEndBlock r) ok]
        ++ notify_events notifier s (ExclusiveEndBlock r) ++ evs ->
  MergeRun notifier rest s1 evs out s' ->
  MergeRun notifier (r :: rest) s all out s'.
Proof. intros Hnext Hnz -> -> Hrun. apply run_merged; assumption. Qed.

(** Every run of the loop is one of the runs of [MergeRun]. *)
Lemma mergeLoop_run (notifier : bool) (rs : list Range) :
  forall (s : Squashable) (w w' : World E) (out : Outcome) (s' : Squashable)
         (evs : list Event),
    mergeLoop E notifier rs s w = (out, s', w', evs) ->
    MergeRun notifier rs s evs out s'.
Proof.
  induction rs as [|r rest IH]; intros s w w' out s' evs Hrun.
  - simpl in Hrun. unfold bind, ctx_done, ret in Hrun.
    destruct (ctxDone E w) as [w1 [|]]; injection Hrun as <- <- <- <-.
    + apply run_cancelled.
    + apply run_empty.
  - simpl in Hrun. unfold bind, ctx_done in Hrun.
    destruct (ctxDone E w) as [w1 [|]].
    { injection Hrun as <- <- <- <-. apply run_cancelled. }
    destruct (nextExpectedStartBlock s =? StartBlock r) eqn:Hnext;
      simpl in Hrun.
    2:{ injection Hrun as <- <- <- <-. apply run_stalled.
        apply Z.eqb_neq. exact Hnext. }
    apply Z.eqb_eq in Hnext.
    unfold LoadFrom in Hrun.
    destruct (storeLoadFrom E w1 r) as [w2 [|]]; simpl in Hrun.
    2:{ injection Hrun as <- <- <- <-. apply run_load_failed. exact Hnext. }
    unfold Merge in Hrun.
    destruct (storeMerge E w2 r) as [w3 [|]]; simpl in Hrun.
    2:{ injection Hrun as <- <- <- <-. apply run_merge_failed. exact Hnext. }
    destruct (storeSaveInterval s =? 0) eqn:Hnz; simpl in Hrun.
    { injection Hrun as <- <- <- <-. apply run_panicked; [exact Hnext|].
      apply Z.eqb_eq. exact Hnz. }
    apply Z.eqb_neq in Hnz.
    destruct (ExclusiveEndBlock r mod storeSaveInterval s =? 0) eqn:Hb;
      simpl in Hrun.
    + unfold WriteState in Hrun.
      destruct (storeWriteState E w3 (ExclusiveEndBlock r)) as [w4 [|]];
        simpl in Hrun.
      2:{ injection Hrun as <- <- <- <-. apply run_write_failed; try assumption.
          apply Z.eqb_eq. exact Hb. }
      destruct (ExclusiveEndBlock r =? targetExclusiveBlock s) eqn:Ht;
        simpl in Hrun;
        [destruct notifier; unfold Notify, ret in Hrun; simpl in Hrun|];
        match type of Hrun with
        | context [mergeLoop E ?n rest ?s1 ?w1] =>
            destruct (mergeLoop E n rest s1 w1) as [[[o1 s1'] w1'] l1] eqn:Hrec
        end;
        injection Hrun as <- <- <- <-;
        apply IH in Hrec;
        (eapply (run_merged_eq _ r rest s _ true);
         [exact Hnext | exact Hnz
         | unfold after_merge; rewrite Ht; reflexivity
         | unfold persist_event, notify_events; rewrite Hb, Ht; reflexivity
         | exact Hrec]).
    + unfold DeletePartialFile, ret in Hrun.
      destruct (storeDeletePartialFile E w3 (ExclusiveEndBlock r)) as [w4 okd];
        simpl in Hrun.
      destruct (ExclusiveEndBlock r =? targetExclusiveBlock s) eqn:Ht;
        simpl in Hrun;
        [destruct notifier; unfold Notify, ret in Hrun; simpl in Hrun|];
        match type of Hrun with
        | context [mergeLoop E ?n rest ?s1 ?w1] =>
            destruct (mergeLoop E n rest s1 w1) as [[[o1 s1'] w1'] l1] eqn:Hrec
        end;
        injection Hrun as <- <- <- <-;
        apply IH in Hrec;
        (eapply (run_merged_eq _ r rest s _ okd);
         [exact Hnext | exact Hnz
         | unfold after_merge; rewrite Ht; reflexivity
         | unfold persist_event, notify_events; rewrite Hb, Ht; reflexivity
         | exact Hrec]).
Qed.

Lemma merged_app (l1 l2 : list Event) :
  merged (l1 ++ l2) = merged l1 ++ merged l2.
Proof.
  induction l1 as [|[r [|]|r [|]|e ok|e ok|n e] l1 IH]; simpl;
    rewrite ?IH; reflexivity.
Qed.

Lemma touched_app (l1 l2 : list Event) :
  touched (l1 ++ l2) = touched l1 ++ touched l2.
Proof.
  induction l1 as [|[r ok|r ok|e ok|e ok|n e] l1 IH]; simpl;
    rewrite ?IH; reflexivity.
Qed.

Lemma merged_touched (evs : list Event) (x : Range) :
  x ∈ merged evs -> x ∈ touched evs.
Proof.
  induction evs as [|[r [|]|r [|]|e ok|e ok|n e] evs IH]; simpl;
    rewrite ?elem_of_cons; intros H; auto.
  destruct H as [->|H]; auto.
Qed.

Lemma merged_step (notifier : bool) (s : Squashable) (r : Range) (ok : bool)
    (evs : list Event) :
  merged ([EvLoadFrom r true; EvMerge r true;
           persist_event s (ExclusiveEndBlock r) ok]
          ++ notify_events notifier s (ExclusiveEndBlock r) ++ evs)
  = r :: merged evs.
Proof.
  simpl. unfold persist_event, notify_events.
  destruct (_ mod _ =? 0); destruct (_ && _); reflexivity.
Qed.

Lemma touched_step (notifier : bool) (s : Squashable) (r : Range) (ok : bool)
    (evs : list Event) :
  touched ([EvLoadFrom r true; EvMerge r true;
            persist_event s (ExclusiveEndBlock r) ok]
           ++ notify_events notifier s (ExclusiveEndBlock r) ++ evs)
  = r :: r :: touched evs.
Proof.
  simpl. unfold persist_event, notify_events.
  destruct (_ mod _ =? 0); destruct (_ && _); reflexivity.
Qed.

Lemma same_config_refl (s : Squashable) : same_config s s.
Proof. unfold same_config. auto. Qed.

Lemma same_config_trans (s1 s2 s3 : Squashable) :
  same_config s1 s2 -> same_config s2 s3 -> same_config s1 s3.
Proof.
  unfold same_config. intros (?&?&?&?) (?&?&?&?).
  repeat split; congruence.
Qed.

Lemma MergeRun_config (notifier : bool) (rs : list Range) (s : Squashable)
    (evs : list Event) (out : Outcome) (s' : Squashable) :
  MergeRun notifier rs s evs out s' -> same_config s s'.
Proof.
  induction 1; try (unfold same_config; simpl; auto; fail).
  eapply same_config_trans; [apply after_merge_config | eassumption].
Qed.

(** A log of the loop is empty or starts with a [LoadFrom]. *)
Lemma MergeRun_head (notifier : bool) (rs : list Range) (s : Squashable)
    (evs : list Event) (out : Outcome) (s' : Squashable) :
  MergeRun notifier rs s evs out s' ->
  evs = [] \/ exists r ok tl, evs = EvLoadFrom r ok :: tl.
Proof. destruct 1; simpl; eauto. Qed.

(** Contiguity of one run: the merged ranges lead from the block expected
    on entry to the block expected on exit. *)
Lemma MergeRun_chain (notifier : bool) (rs : list Range) (s : Squashable)
    (evs : list Event) (out : Outcome) (s' : Squashable) :
  MergeRun notifier rs s evs out s' ->
  chain (nextExpectedStartBlock s) (merged evs) (nextExpectedStartBlock s').
Proof.
  induction 1; rewrite ?merged_step; simpl; auto.
  split; [congruence|].
  rewrite after_merge_next in *. assumption.
Qed.

(** A run loads and merges pending ranges only. *)
Lemma MergeRun_touched (notifier : bool) (rs : list Range) (s : Squashable)
    (evs : list Event) (out : Outcome) (s' : Squashable) :
  MergeRun notifier rs s evs out s' ->
  forall x, x ∈ touched evs -> x ∈ rs.
Proof.
  induction 1; intros x Hx;
    rewrite ?touched_step in Hx; simpl in Hx;
    repeat (apply elem_of_cons in Hx as [->|Hx]; [apply elem_of_cons; auto|]);
    try (apply elem_of_nil in Hx; contradiction).
  apply elem_of_cons. right. auto.
Qed.

(** The pending list on exit is what the run left of the one on entry. *)
Lemma MergeRun_suffix (notifier : bool) (rs : list Range) (s : Squashable)
    (evs : list Event) (out : Outcome) (s' : Squashable) :
  MergeRun notifier rs s evs out s' -> ranges s' `suffix_of` rs.
Proof.
  induction 1; simpl; try reflexivity.
  apply suffix_cons_r. assumption.
Qed.

(** No pending range is lost: it is still pending or it was merged. *)
Lemma MergeRun_kept (notifier : bool) (rs : list Range) (s : Squashable)
    (evs : list Event) (out : Outcome) (s' : Squashable) :
  MergeRun notifier rs s evs out s' ->
  forall x, x ∈ rs -> x ∈ ranges s' \/ x ∈ merged evs.
Proof.
  induction 1; rewrite ?merged_step; simpl; intros x Hx; auto.
  apply elem_of_cons in Hx as [->|Hx].
  - right. apply elem_of_cons. auto.
  - destruct (IHMergeRun x Hx); auto. right. apply elem_of_cons. auto.
Qed.

Lemma MergeRun_targetReached (notifier : bool) (rs : list Range)
    (s : Squashable) (evs : list Event) (out : Outcome) (s' : Squashable) :
  MergeRun notifier rs s evs out s' ->
  targetReached s = true -> targetReached s' = true.
Proof.
  induction 1; simpl; auto.
  intros Ht. apply IHMergeRun. unfold after_merge.
  destruct (_ =? _); simpl; auto.
Qed.

Lemma boundary_followup_config (notifier : bool) (s s1 : Squashable) (e : Z)
    (post : list Event) :
  same_config s s1 ->
  boundary_followup notifier s1 e post -> boundary_followup notifier s e post.
Proof.
  intros (_ & Hb & _ & Ht). unfold boundary_followup.
  rewrite Hb, Ht. auto.
Qed.

Lemma boundary_rule_config (notifier : bool) (s s1 : Squashable)
    (evs : list Event) :
  same_config s s1 ->
  boundary_rule notifier s1 evs -> boundary_rule notifier s evs.
Proof.
  intros Hc. induction evs as [|[r [|]|r [|]|e ok|e ok|n e] evs IH]; simpl; auto.
  intros [Hf Hr]. split; [|auto].
  destruct Hc as (Hn & Hb & Hi & Ht). rewrite <- Hi. intros Hmod.
  apply (boundary_followup_config notifier s s1); [|auto].
  unfold same_config. auto.
Qed.

Lemma boundary_rule_notify (notifier : bool) (s : Squashable) (e : Z)
    (evs : list Event) :
  boundary_rule notifier s evs ->
  boundary_rule notifier s (notify_events notifier s e ++ evs).
Proof. unfold notify_events. destruct (_ && _); simpl; auto. Qed.

(** On a non-zero save interval every run of the loop obeys the boundary
    rule. *)
Lemma MergeRun_boundary (notifier : bool) (rs : list Range) (s : Squashable)
    (evs : list Event) (out : Outcome) (s' : Squashable) :
  MergeRun notifier rs s evs out s' ->
  storeSaveInterval s <> 0 ->
  boundary_rule notifier s evs.
Proof.
  induction 1 as [| | | | | r rest s Hnext Hzero | r rest s Hnext Hnz Hmod
                 | r rest s ok evs out s' Hnext Hnz Hrun IH];
    intros Hi; try (simpl; auto; fail).
  - contradiction.
  - simpl. split; [|auto]. intros _.
    exists false, []. repeat split; try discriminate.
    intros (Hcontra & _). discriminate.
  - assert (boundary_rule notifier s evs) as Hrest.
    { apply (boundary_rule_config notifier s (after_merge s r));
        [apply after_merge_config|].
      apply IH. destruct (after_merge_config s r) as (_ & _ & -> & _). exact Hi. }
    simpl. split.
    + intros Hmod. unfold persist_event.
      rewrite (proj2 (Z.eqb_eq _ _) Hmod).
      exists true, (notify_events notifier s (ExclusiveEndBlock r) ++ evs).
      split; [reflexivity|].
      unfold notify_events.
      destruct (MergeRun_head _ _ _ _ _ _ Hrun) as [->|(r' & ok' & tl & ->)];
        destruct (Z.eqb_spec (ExclusiveEndBlock r) (targetExclusiveBlock s));
        destruct notifier; simpl;
        repeat split; try discriminate; eauto;
        try (intros (? & ? & ?); congruence);
        try (intros Hneg; exfalso; apply Hneg; auto).
    + unfold persist_event. destruct (_ mod _ =? 0); simpl;
        apply boundary_rule_notify; exact Hrest.
Qed.

(** [DeletePartialFile] is called for fragments that end off a boundary
    only. *)
Lemma MergeRun_delete (notifier : bool) (rs : list Range) (s : Squashable)
    (evs : list Event) (out : Outcome) (s' : Squashable) :
  MergeRun notifier rs s evs out s' ->
  forall e ok, EvDeletePartialFile e ok ∈ evs ->
    e mod storeSaveInterval s <> 0.
Proof.
  induction 1 as [| | | | | | | r rest s ok evs out s' Hnext Hnz Hrun IH];
    intros e okd Hin;
    try (repeat (apply elem_of_cons in Hin as [Hin|Hin]; [discriminate|]);
         apply elem_of_nil in Hin; contradiction).
  apply elem_of_cons in Hin as [Hin|Hin]; [discriminate|].
  apply elem_of_cons in Hin as [Hin|Hin]; [discriminate|].
  apply elem_of_cons in Hin as [Hin|Hin].
  - unfold persist_event in Hin.
    destruct (Z.eqb_spec (ExclusiveEndBlock r mod storeSaveInterval s) 0);
      [discriminate|].
    injection Hin as -> ->. assumption.
  - apply elem_of_app in Hin as [Hin|Hin].
    + unfold notify_events in Hin. destruct (_ && _).
      * apply list_elem_of_singleton in Hin. discriminate.
      * apply elem_of_nil in Hin. contradiction.
    + destruct (after_merge_config s r) as (_ & _ & Hi & _).
      rewrite <- Hi. eapply IH. exact Hin.
Qed.

(** [Notify] is called with the module's name and the target block only,
    and only when a notifier is set. *)
Lemma MergeRun_notify (notifier : bool) (rs : list Range) (s : Squashable)
    (evs : list Event) (out : Outcome) (s' : Squashable) :
  MergeRun notifier rs s evs out s' ->
  forall n e, EvNotify n e ∈ evs ->
    n = Name (builder s) /\ e = targetExclusiveBlock s /\ notifier = true.
Proof.
  induction 1 as [| | | | | | | r rest s ok evs out s' Hnext Hnz Hrun IH];
    intros n e Hin;
    try (repeat (apply elem_of_cons in Hin as [Hin|Hin]; [discriminate|]);
         apply elem_of_nil in Hin; contradiction).
  apply elem_of_cons in Hin as [Hin|Hin]; [discriminate|].
  apply elem_of_cons in Hin as [Hin|Hin]; [discriminate|].
  apply elem_of_cons in Hin as [Hin|Hin].
  - unfold persist_event in Hin. destruct (_ =? 0); discriminate.
  - apply elem_of_app in Hin as [Hin|Hin].
    + unfold notify_events in Hin.
      destruct (Z.eqb_spec (ExclusiveEndBlock r) (targetExclusiveBlock s));
        destruct notifier; simpl in Hin;
        try (apply elem_of_nil in Hin; contradiction).
      apply list_elem_of_singleton in Hin. injection Hin as -> ->. auto.
    + destruct (after_merge_config s r) as (_ & Hb & _ & Ht).
      rewrite <- Hb, <- Ht. eapply IH. exact Hin.
Qed.

Lemma boundary_rule_at (notifier : bool) (s : Squashable) (pre : list Event) :
  forall (evs post : list Event) (r : Range),
    boundary_rule notifier s evs ->
    evs = pre ++ EvMerge r true :: post ->
    ExclusiveEndBlock r mod storeSaveInterval s = 0 ->
    boundary_followup notifier s (ExclusiveEndBlock r) post.
Proof.
  induction pre as [|ev pre IH]; intros evs post r Hrule -> Hmod.
  - simpl in Hrule. destruct Hrule as [Hf _]. auto.
  - apply (IH (pre ++ EvMerge r true :: post)); [|reflexivity|exact Hmod].
    destruct ev as [r' [|]|r' [|]|e ok|e ok|n e]; simpl in Hrule; tauto.
Qed.

(** *** The two loops of [squash] *)

Lemma cumulateBoundedRange_frame (s : Squashable) (br : Range) :
  same_config s (cumulateBoundedRange s br)
  /\ nextExpectedStartBlock (cumulateBoundedRange s br)
     = nextExpectedStartBlock s
  /\ targetReached (cumulateBoundedRange s br) = targetReached s.
Proof.
  unfold cumulateBoundedRange, same_config.
  destruct (_ <=? _); simpl; auto 10.
Qed.

Lemma cumulateBoundedRange_ranges (s : Squashable) (br : Range) :
  (ExclusiveEndBlock br <= StoreInitialBlock (builder s)
   /\ cumulateBoundedRange s br = s)
  \/ (StoreInitialBlock (builder s) < ExclusiveEndBlock br
      /\ ranges (cumulateBoundedRange s br) = sortRanges (ranges s ++ [br])).
Proof.
  unfold cumulateBoundedRange.
  destruct (Z.leb_spec (ExclusiveEndBlock br) (StoreInitialBlock (builder s)));
    [left|right]; auto.
Qed.

Lemma cumulateBoundedRange_elem (s : Squashable) (br x : Range) :
  x ∈ ranges (cumulateBoundedRange s br) <->
  x ∈ ranges s
  \/ (x = br /\ StoreInitialBlock (builder s) < ExclusiveEndBlock br).
Proof.
  destruct (cumulateBoundedRange_ranges s br) as [[Hle ->]|[Hlt ->]].
  - split; [auto|]. intros [H|[_ H]]; [auto|lia].
  - rewrite sortRanges_perm, elem_of_app, list_elem_of_singleton.
    tauto.
Qed.

Lemma cumulateBoundedRange_sorted (s : Squashable) (br : Range) :
  StronglySorted range_le (ranges s) ->
  StronglySorted range_le (ranges (cumulateBoundedRange s br)).
Proof.
  destruct (cumulateBoundedRange_ranges s br) as [[_ ->]|[_ ->]]; [auto|].
  intros _. apply sortRanges_sorted.
Qed.

(** What the first loop of [squash] leaves: the configuration, the expected
    block and the target flag are untouched; the pending list gains only
    sub-ranges that passed both tests, and loses nothing. *)
Lemma cumulateLoop_frame (brs : list Range) :
  forall (s s' : Squashable) (res : option SquashError),
    cumulateLoop brs s = (res, s') ->
    same_config s s'
    /\ nextExpectedStartBlock s' = nextExpectedStartBlock s
    /\ targetReached s' = targetReached s
    /\ (forall x, x ∈ ranges s' ->
          x ∈ ranges s
          \/ (x ∈ brs
              /\ ModuleInitialBlock (builder s) <= StartBlock x
              /\ StoreInitialBlock (builder s) < ExclusiveEndBlock x))
    /\ (forall x, x ∈ ranges s -> x ∈ ranges s')
    /\ (StronglySorted range_le (ranges s) ->
        StronglySorted range_le (ranges s')).
Proof.
  induction brs as [|br rest IH]; intros s s' res Hrun; simpl in Hrun.
  - injection Hrun as <- <-. repeat split; auto using same_config_refl.
  - destruct (Z.ltb_spec (StartBlock br) (ModuleInitialBlock (builder s)))
      as [Hlt|Hge].
    + injection Hrun as <- <-. repeat split; auto using same_config_refl.
    + apply IH in Hrun as (Hc & Hn & Ht & Hin & Hkeep & Hsort).
      destruct (cumulateBoundedRange_frame s br) as (Hc0 & Hn0 & Ht0).
      assert (builder (cumulateBoundedRange s br) = builder s) as Hb
        by (destruct Hc0 as (_ & ? & _); assumption).
      rewrite Hb in Hin.
      split; [eapply same_config_trans; eassumption|].
      split; [congruence|]. split; [congruence|].
      split; [|split].
      * intros x Hx. apply Hin in Hx as [Hx|(Hx & H1 & H2)].
        -- apply cumulateBoundedRange_elem in Hx as [Hx|[-> Hx]]; auto.
           right. split; [apply elem_of_cons; auto|]. auto.
        -- right. split; [apply elem_of_cons; auto|]. auto.
      * intros x Hx. apply Hkeep. apply cumulateBoundedRange_elem. auto.
      * intros Hs. apply Hsort. apply cumulateBoundedRange_sorted. exact Hs.
Qed.

(** The first loop fails exactly when some sub-range starts before the
    module's initial block. *)
Lemma cumulateLoop_rejects (brs : list Range) :
  forall (s : Squashable) (br : Range),
    br ∈ brs ->
    StartBlock br < ModuleInitialBlock (builder s) ->
    exists (first : Range) (s' : Squashable),
      cumulateLoop brs s
      = (Some (ErrStartBeforeInitial (name s) (StartBlock first)
                 (ModuleInitialBlock (builder s))), s')
      /\ first ∈ brs
      /\ StartBlock first < ModuleInitialBlock (builder s).
Proof.
  induction brs as [|b rest IH]; intros s br Hin Hlt.
  - apply elem_of_nil in Hin. contradiction.
  - simpl.
    destruct (Z.ltb_spec (StartBlock b) (ModuleInitialBlock (builder s)))
      as [Hb|Hb].
    + exists b, s. split; [reflexivity|]. split; [apply elem_of_cons; auto|auto].
    + apply elem_of_cons in Hin as [->|Hin]; [lia|].
      destruct (cumulateBoundedRange_frame s b) as ((Hn & Hbd & _) & _).
      destruct (IH (cumulateBoundedRange s b) br Hin) as (f & s' & Heq & Hf & Hfl).
      { rewrite Hbd. exact Hlt. }
      exists f, s'. rewrite Heq, Hn, Hbd.
      split; [reflexivity|]. split; [apply elem_of_cons; auto|].
      rewrite Hbd in Hfl. exact Hfl.
Qed.

Lemma cumulateLoop_accepts (brs : list Range) :
  forall (s : Squashable),
    Forall (fun br => ModuleInitialBlock (builder s) <= StartBlock br) brs ->
    exists s', cumulateLoop brs s = (None, s').
Proof.
  induction brs as [|b rest IH]; intros s Hall; simpl; [eauto|].
  apply Forall_cons in Hall as [Hb Hall].
  destruct (Z.ltb_spec (StartBlock b) (ModuleInitialBlock (builder s)));
    [lia|].
  apply IH.
  destruct (cumulateBoundedRange_frame s b) as ((_ & -> & _) & _). exact Hall.
Qed.

(** A sub-range that passes the first test and ends at or before the
    store's initial block leaves no trace in the first loop. *)
Lemma cumulateLoop_skip (pre : list Range) :
  forall (s : Squashable) (br : Range) (post : list Range),
    ExclusiveEndBlock br <= StoreInitialBlock (builder s) ->
    ModuleInitialBlock (builder s) <= StartBlock br ->
    cumulateLoop (pre ++ br :: post) s = cumulateLoop (pre ++ post) s.
Proof.
  induction pre as [|b pre IH]; intros s br post Hend Hstart; simpl.
  - destruct (Z.ltb_spec (StartBlock br) (ModuleInitialBlock (builder s)));
      [lia|].
    destruct (cumulateBoundedRange_ranges s br) as [[_ ->]|[Hlt _]];
      [reflexivity|lia].
  - destruct (StartBlock b <? ModuleInitialBlock (builder s)); [reflexivity|].
    apply IH;
      destruct (cumulateBoundedRange_frame s b) as ((_ & -> & _) & _);
      assumption.
Qed.

Lemma chain_app (ms1 : list Range) :
  forall (a b c : Z) (ms2 : list Range),
    chain a ms1 b -> chain b ms2 c -> chain a (ms1 ++ ms2) c.
Proof.
  induction ms1 as [|r ms1 IH]; simpl; intros a b c ms2 H1 H2.
  - subst. exact H2.
  - destruct H1 as [Hs H1]. split; [exact Hs|]. eapply IH; eassumption.
Qed.

(** Contiguous non-empty ranges have strictly increasing start blocks. *)
Lemma chain_increasing (ms : list Range) :
  forall (a b : Z),
    Forall wfRange ms -> chain a ms b ->
    StronglySorted Z.lt (map StartBlock ms)
    /\ Forall (fun x => a <= x) (map StartBlock ms)
    /\ a <= b.
Proof.
  induction ms as [|r ms IH]; simpl; intros a b Hwf Hch.
  - subst. repeat split; try constructor. lia.
  - apply Forall_cons in Hwf as [Hr Hwf]. destruct Hch as [Hs Hch].
    destruct (IH _ _ Hwf Hch) as (Hsorted & Hge & Hle).
    unfold wfRange in Hr. repeat split.
    + constructor; [exact Hsorted|].
      eapply Forall_impl; [exact Hge|]. simpl. intros; lia.
    + constructor; [lia|].
      eapply Forall_impl; [exact Hge|]. simpl. intros; lia.
    + lia.
Qed.

Lemma mergeAvailablePartials_facts (notifier : bool) (s : Squashable)
    (w w' : World E) (out : Outcome) (s' : Squashable) (evs : list Event) :
  mergeAvailablePartials E notifier s w = (out, s', w', evs) ->
  merge_facts s evs s'.
Proof.
  intros Hrun. apply mergeLoop_run in Hrun. unfold merge_facts.
  eauto 10 using MergeRun_config, MergeRun_chain, MergeRun_touched,
    MergeRun_suffix, MergeRun_kept.
Qed.

Lemma merge_facts_trans (s s1 s' : Squashable) (l1 l2 : list Event) :
  merge_facts s l1 s1 -> merge_facts s1 l2 s' -> merge_facts s (l1 ++ l2) s'.
Proof.
  intros (Hc1 & Hch1 & Ht1 & Hs1 & Hk1) (Hc2 & Hch2 & Ht2 & Hs2 & Hk2).
  unfold merge_facts. rewrite merged_app, touched_app.
  split; [eapply same_config_trans; eassumption|].
  split; [eapply chain_app; eassumption|].
  split; [|split].
  - intros x Hx. apply elem_of_app in Hx as [Hx|Hx]; [auto|].
    apply Ht2 in Hx. destruct Hs1 as [k ->].
    apply elem_of_app. auto.
  - etransitivity; eassumption.
  - intros x Hx. rewrite elem_of_app.
    destruct (Hk1 x Hx) as [Hx1|Hx1]; [|auto].
    destruct (Hk2 x Hx1); auto.
Qed.

Lemma mergeEach_facts (notifier : bool) (brs : list Range) :
  forall (s : Squashable) (w w' : World E) (out : Outcome) (s' : Squashable)
         (evs : list Event),
    mergeEach E notifier brs s w = (out, s', w', evs) ->
    merge_facts s evs s'.
Proof.
  induction brs as [|br rest IH]; intros s w w' out s' evs Hrun;
    simpl in Hrun.
  - injection Hrun as <- <- <- <-. unfold merge_facts. simpl.
    repeat split; auto using same_config_refl.
    intros x Hx. apply elem_of_nil in Hx. contradiction.
  - unfold bind in Hrun.
    destruct (mergeAvailablePartials E notifier s w)
      as [[[o1 s1] w1] l1] eqn:H1.
    apply mergeAvailablePartials_facts in H1.
    destruct o1.
    + destruct (mergeEach E notifier rest s1 w1) as [[[o2 s2] w2] l2] eqn:H2.
      injection Hrun as <- <- <- <-. apply IH in H2.
      eapply merge_facts_trans; eassumption.
    + injection Hrun as <- <- <- <-. rewrite app_nil_r. exact H1.
    + injection Hrun as <- <- <- <-. rewrite app_nil_r. exact H1.
Qed.

(** What one call of [squash] does to a Squashable: the configuration is
    kept, the merges are contiguous from the expected block, only pending
    or accepted sub-ranges are pending or touched afterwards, no pending
    range is lost, and the pending list stays sorted. *)
Lemma squash_facts (notifier : bool) (s : Squashable) (r : Range)
    (w w' : World E) (out : Outcome) (s' : Squashable) (evs : list Event) :
  squash E notifier s r w = (out, s', w', evs) ->
  same_config s s'
  /\ chain (nextExpectedStartBlock s) (merged evs) (nextExpectedStartBlock s')
  /\ (forall x, x ∈ ranges s' \/ x ∈ touched evs ->
        x ∈ ranges s
        \/ (x ∈ rangeSplit E r (storeSaveInterval s)
            /\ ModuleInitialBlock (builder s) <= StartBlock x
            /\ StoreInitialBlock (builder s) < ExclusiveEndBlock x))
  /\ (forall x, x ∈ ranges s -> x ∈ ranges s' \/ x ∈ merged evs)
  /\ (StronglySorted range_le (ranges s) ->
      StronglySorted range_le (ranges s')).
Proof.
  unfold squash. intros Hrun.
  destruct (cumulateLoop (rangeSplit E r (storeSaveInterval s)) s)
    as [res s1] eqn:Hc.
  apply cumulateLoop_frame in Hc as (Hcfg & Hn & Ht & Hin & Hkeep & Hsort).
  destruct res as [err|].
  - injection Hrun as <- <- <- <-. simpl.
    split; [exact Hcfg|]. split; [congruence|].
    split; [|split; [auto|exact Hsort]].
    intros x [Hx|Hx]; [auto|]. apply elem_of_nil in Hx. contradiction.
  - apply mergeEach_facts in Hrun as (Hc2 & Hch & Hto & Hsuf & Hk).
    split; [eapply same_config_trans; eassumption|].
    split; [rewrite <- Hn; exact Hch|].
    split; [|split].
    + intros x [Hx|Hx]; apply Hin.
      * destruct Hsuf as [k ->]. apply elem_of_app. auto.
      * auto.
    + intros x Hx. apply Hk. auto.
    + intros Hs. eapply StronglySorted_suffix; [exact Hsuf|]. auto.
Qed.

(** The same over any sequence of calls, with an invariant [P] of the
    ranges that every accepted sub-range satisfies. *)
Lemma squashAll_facts (notifier : bool) (P : Range -> Prop)
    (calls : list Range) :
  forall (s : Squashable) (w w' : World E) (outs : list Outcome)
         (s' : Squashable) (evs : list Event),
    Forall P (ranges s) ->
    Forall (fun r =>
              forall x, x ∈ rangeSplit E r (storeSaveInterval s) ->
                ModuleInitialBlock (builder s) <= StartBlock x ->
                StoreInitialBlock (builder s) < ExclusiveEndBlock x -> P x)
      calls ->
    squashAll E notifier calls s w = (outs, s', w', evs) ->
    same_config s s'
    /\ chain (nextExpectedStartBlock s) (merged evs)
         (nextExpectedStartBlock s')
    /\ Forall P (ranges s') /\ Forall P (touched evs)
    /\ (forall x, x ∈ ranges s -> x ∈ ranges s' \/ x ∈ merged evs)
    /\ (StronglySorted range_le (ranges s) ->
        StronglySorted range_le (ranges s')).
Proof.
  induction calls as [|r rest IH]; intros s w w' outs s' evs HP Hcalls Hrun;
    simpl in Hrun.
  - injection Hrun as <- <- <- <-. simpl.
    repeat split; auto using same_config_refl.
  - unfold bind, ret in Hrun.
    destruct (squash E notifier s r w) as [[[o1 s1] w1] l1] eqn:H1.
    simpl in Hrun.
    destruct (squashAll E notifier rest s1 w1) as [[[o2 s2] w2] l2] eqn:H2.
    injection Hrun as <- <- <- <-.
    apply Forall_cons in Hcalls as [Hr Hcalls].
    apply squash_facts in H1 as (Hc1 & Hch1 & Hin1 & Hk1 & Hs1).
    assert (forall x, x ∈ ranges s1 \/ x ∈ touched l1 -> P x) as HP1.
    { intros x Hx. apply Hin1 in Hx as [Hx|(Hx & Ha & Hb)].
      - rewrite Forall_forall in HP. auto.
      - auto. }
    destruct Hc1 as (Hnm & Hbd & Hiv & Htg).
    apply IH in H2 as (Hc2 & Hch2 & HP2 & HPt2 & Hk2 & Hs2).
    + rewrite app_nil_r, merged_app, touched_app.
      split; [eapply same_config_trans; [|exact Hc2];
              unfold same_config; auto|].
      split; [eapply chain_app; eassumption|].
      split; [exact HP2|]. split; [|split].
      * apply Forall_app. split; [|exact HPt2].
        apply Forall_forall. auto.
      * intros x Hx. rewrite elem_of_app.
        destruct (Hk1 x Hx) as [Hx1|Hx1]; [|auto].
        destruct (Hk2 x Hx1); auto.
      * auto.
    + apply Forall_forall. auto.
    + rewrite Hiv, Hbd. exact Hcalls.
Qed.

(** A pending list whose head does not start at the expected block stays
    buffered: [mergeAvailablePartials] makes no call and changes nothing. *)
Lemma mergeAvailablePartials_stalls (notifier : bool) (s : Squashable)
    (w : World E) (r : Range) (rest : list Range) :
  ranges s = r :: rest ->
  nextExpectedStartBlock s <> StartBlock r ->
  run_events (mergeAvailablePartials E notifier s w) = []
  /\ run_state (mergeAvailablePartials E notifier s w) = s.
Proof.
  intros Hranges Hnext.
  unfold mergeAvailablePartials, run_events, run_state. rewrite Hranges.
  simpl. unfold bind, ctx_done, ret.
  destruct (ctxDone E w) as [w1 [|]]; simpl.
  - split; [reflexivity|]. rewrite <- Hranges. destruct s; reflexivity.
  - destruct (Z.eqb_spec (nextExpectedStartBlock s) (StartBlock r));
      [contradiction|]. simpl.
    split; [reflexivity|]. rewrite <- Hranges. destruct s; reflexivity.
Qed.

(** From a Squashable whose pending ranges all end after the store's
    initial block (as after [NewSquashable]), no sequence of calls makes a
    range that ends at or before it pending, loaded or merged. *)
Lemma squashAll_after_store_start (notifier : bool) (calls : list Range)
    (s : Squashable) (w : World E) :
  Forall (fun x => StoreInitialBlock (builder s) < ExclusiveEndBlock x)
    (ranges s) ->
  Forall (fun x => StoreInitialBlock (builder s) < ExclusiveEndBlock x)
    (ranges (run_state (squashAll E notifier calls s w)))
  /\ Forall (fun x => StoreInitialBlock (builder s) < ExclusiveEndBlock x)
       (touched (run_events (squashAll E notifier calls s w))).
Proof.
  intros Hinv.
  destruct (squashAll E notifier calls s w) as [[[outs s'] w'] evs] eqn:Hrun.
  unfold run_state, run_events. simpl.
  apply (squashAll_facts notifier
           (fun x => StoreInitialBlock (builder s) < ExclusiveEndBlock x))
    in Hrun as (_ & _ & H1 & H2 & _); auto.
  apply Forall_forall. auto.
Qed.

End SquashableRuns.

Section SquashableClaims.
Import Block Orchestrator OrchestratorSpec.

(** C1, as amended. When [mergeAvailablePartials] has merged a fragment [r]
    ending at [e] with [e % storeSaveInterval == 0], its next call is
    [WriteState(e)], which writes the complete snapshot; it calls
    [notifier.Notify(moduleName, e)] right after the write exactly when the
    write succeeded, [e] equals [targetExclusiveBlock] and a notifier is
    set, and at no other point; and it never calls [DeletePartialFile] for
    that fragment. *)
Theorem mergeAvailablePartials_on_boundary (E : Env) (notifier : bool)
    (s : Squashable) (w : World E) (pre post : list Event) (r : Range) :
  run_events (mergeAvailablePartials E notifier s w)
  = pre ++ EvMerge r true :: post ->
  storeSaveInterval s <> 0 ->
  ExclusiveEndBlock r mod storeSaveInterval s = 0 ->
  exists (ok : bool) (post' : list Event),
    post = EvWriteState (ExclusiveEndBlock r) ok :: post'
    /\ (ok = true /\ ExclusiveEndBlock r = targetExclusiveBlock s
        /\ notifier = true ->
        exists post'',
          post' = EvNotify (Name (builder s)) (ExclusiveEndBlock r) :: post'')
    /\ (~ (ok = true /\ ExclusiveEndBlock r = targetExclusiveBlock s
           /\ notifier = true) ->
        forall n e' post'', post' <> EvNotify n e' :: post'')
    /\ (forall n,
          EvNotify n (ExclusiveEndBlock r)
          ∈ run_events (mergeAvailablePartials E notifier s w) ->
          n = Name (builder s)
          /\ ExclusiveEndBlock r = targetExclusiveBlock s
          /\ notifier = true)
    /\ (forall ok',
          EvDeletePartialFile (ExclusiveEndBlock r) ok'
          ∉ run_events (mergeAvailablePartials E notifier s w)).
Proof.
  intros Hevs Hnz Hmod.
  destruct (mergeAvailablePartials E notifier s w) as [[[out s'] w'] evs] eqn:Hrun.
  unfold run_events in *. simpl in *.
  apply mergeLoop_run in Hrun.
  pose proof (MergeRun_delete _ _ _ _ _ _ Hrun) as Hdel.
  pose proof (MergeRun_notify _ _ _ _ _ _ Hrun) as Hnot.
  apply MergeRun_boundary in Hrun; [|exact Hnz].
  destruct (boundary_rule_at notifier s pre evs post r Hrun Hevs Hmod)
    as (ok & post' & Hpost & Hyes & Hno & _).
  exists ok, post'. split; [exact Hpost|]. split; [exact Hyes|].
  split; [exact Hno|]. split; [intros n; apply Hnot|].
  intros ok' Hin. apply Hdel in Hin. contradiction.
Qed.

Lemma mergeAvailablePartials_on_boundary_witness :
  exists (ok : bool) (post' : list Event),
    [EvWriteState 300 true; EvNotify "A" 300]
    = EvWriteState (ExclusiveEndBlock (mkRange 200 300)) ok :: post'
    /\ (ok = true /\ ExclusiveEndBlock (mkRange 200 300) = 300
        /\ true = true ->
        exists post'',
          post' = EvNotify "A" (ExclusiveEndBlock (mkRange 200 300)) :: post'')
    /\ (~ (ok = true /\ ExclusiveEndBlock (mkRange 200 300) = 300
           /\ true = true) ->
        forall n e' post'', post' <> EvNotify n e' :: post'')
    /\ (forall n,
          EvNotify n (ExclusiveEndBlock (mkRange 200 300))
          ∈ run_events
              (mergeAvailablePartials quietEnv true
                 (cumulateBoundedRange
                    (NewSquashable (mkStore "A" 0 0) 300 100 200)
                    (mkRange 200 300)) tt) ->
          n = "A"
          /\ ExclusiveEndBlock (mkRange 200 300) = 300
          /\ true = true)
    /\ (forall ok',
          EvDeletePartialFile (ExclusiveEndBlock (mkRange 200 300)) ok'
          ∉ run_events
              (mergeAvailablePartials quietEnv true
                 (cumulateBoundedRange
                    (NewSquashable (mkStore "A" 0 0) 300 100 200)
                    (mkRange 200 300)) tt)).
Proof.
  apply (mergeAvailablePartials_on_boundary quietEnv true
           (cumulateBoundedRange
              (NewSquashable (mkStore "A" 0 0) 300 100 200) (mkRange 200 300))
           tt [EvLoadFrom (mkRange 200 300) true]
           [EvWriteState 300 true; EvNotify "A" 300] (mkRange 200 300)).
  - reflexivity.
  - simpl. lia.
  - reflexivity.
Defined.

(** C1 as stated fails: after the merge of [[0, 100)] with save interval 100
    and target 300, the log ends with [WriteState(100)]; no
    [DeletePartialFile] and no [Notify] is called. *)
Lemma mergeAvailablePartials_boundary_no_delete_no_notify :
  let s := cumulateBoundedRange
             (NewSquashable (mkStore "A" 0 0) 300 100 0) (mkRange 0 100) in
  let evs := run_events (mergeAvailablePartials quietEnv true s tt) in
  evs = [EvLoadFrom (mkRange 0 100) true; EvMerge (mkRange 0 100) true;
         EvWriteState 100 true]
  /\ 100 mod storeSaveInterval s = 0
  /\ (forall ok, EvDeletePartialFile 100 ok ∉ evs)
  /\ (EvNotify "A" 100 ∉ evs).
Proof.
  cbv zeta.
  assert (run_events
            (mergeAvailablePartials quietEnv true
               (cumulateBoundedRange
                  (NewSquashable (mkStore "A" 0 0) 300 100 0) (mkRange 0 100))
               tt)
          = [EvLoadFrom (mkRange 0 100) true; EvMerge (mkRange 0 100) true;
             EvWriteState 100 true]) as -> by reflexivity.
  split; [reflexivity|]. split; [reflexivity|].
  split; [intros ok|]; intros Hin;
    repeat (apply elem_of_cons in Hin as [Hin|Hin]; [discriminate|]);
    apply elem_of_nil in Hin; exact Hin.
Qed.

(** C6. When the split of [r] at multiples of [storeSaveInterval] has a
    sub-range that starts before the module's initial block, [squash]
    returns the error for the first such sub-range; it makes no call at all
    (no load, no merge), leaves the expected block as it was, and adds to
    the pending list only sub-ranges that start at or after the module's
    initial block. *)
Theorem squash_rejects_start_before_initial (E : Env) (notifier : bool)
    (s : Squashable) (r br : Range) (w : World E) :
  br ∈ rangeSplit E r (storeSaveInterval s) ->
  StartBlock br < ModuleInitialBlock (builder s) ->
  exists (first : Range) (s' : Squashable),
    squash E notifier s r w
    = (Failed (ErrStartBeforeInitial (name s) (StartBlock first)
                 (ModuleInitialBlock (builder s))), s', w, [])
    /\ first ∈ rangeSplit E r (storeSaveInterval s)
    /\ StartBlock first < ModuleInitialBlock (builder s)
    /\ nextExpectedStartBlock s' = nextExpectedStartBlock s
    /\ (forall x, x ∈ ranges s' ->
          x ∈ ranges s
          \/ (x ∈ rangeSplit E r (storeSaveInterval s)
              /\ ModuleInitialBlock (builder s) <= StartBlock x))
    /\ (br ∈ ranges s' -> br ∈ ranges s).
Proof.
  intros Hin Hlt.
  destruct (cumulateLoop_rejects _ s br Hin Hlt) as (first & s' & Heq & Hf & Hfl).
  exists first, s'. unfold squash. rewrite Heq.
  apply cumulateLoop_frame in Heq as (_ & Hn & _ & Hr & _).
  split; [reflexivity|]. split; [exact Hf|]. split; [exact Hfl|].
  split; [exact Hn|]. split.
  - intros x Hx. apply Hr in Hx as [Hx|(Hx & Hs & _)]; auto.
  - intros Hbr. apply Hr in Hbr as [Hbr|(_ & Hs & _)]; [exact Hbr|lia].
Qed.

Lemma squash_rejects_start_before_initial_witness :
  let s := NewSquashable (mkStore "A" 100 100) 300 100 100 in
  exists (first : Range) (s' : Squashable),
    squash quietEnv true s (mkRange 50 250) tt
    = (Failed (ErrStartBeforeInitial (name s) (StartBlock first)
                 (ModuleInitialBlock (builder s))), s', tt, [])
    /\ first ∈ rangeSplit quietEnv (mkRange 50 250) (storeSaveInterval s)
    /\ StartBlock first < ModuleInitialBlock (builder s)
    /\ nextExpectedStartBlock s' = nextExpectedStartBlock s
    /\ (forall x, x ∈ ranges s' ->
          x ∈ ranges s
          \/ (x ∈ rangeSplit quietEnv (mkRange 50 250) (storeSaveInterval s)
              /\ ModuleInitialBlock (builder s) <= StartBlock x))
    /\ (mkRange 50 100 ∈ ranges s' -> mkRange 50 100 ∈ ranges s).
Proof.
  apply (squash_rejects_start_before_initial quietEnv true
           (NewSquashable (mkStore "A" 100 100) 300 100 100)
           (mkRange 50 250) (mkRange 50 100) tt).
  - apply list_elem_of_here.
  - simpl. lia.
Defined.

(** C2, as amended. Over any sequence of [squash] calls whose sub-ranges are
    non-empty, whatever the calls return, the ranges merged into the store
    form a contiguous sequence with strictly increasing start blocks that
    begins at the Squashable's [nextExpectedStartBlock] on entry (the
    module's initial block for a store without a saved snapshot) and ends at
    its [nextExpectedStartBlock] on exit: each range is merged when the
    expected block equals its start, and the expected block then becomes its
    exclusive end. A pending range is never lost before it is merged, and
    the pending list stays sorted. *)
Theorem squashAll_merges_contiguous (E : Env) (notifier : bool)
    (calls : list Range) (s : Squashable) (w : World E) :
  Forall wfRange (ranges s) ->
  Forall (fun r => Forall wfRange (rangeSplit E r (storeSaveInterval s)))
    calls ->
  let res := squashAll E notifier calls s w in
  chain (nextExpectedStartBlock s) (merged (run_events res))
    (nextExpectedStartBlock (run_state res))
  /\ StronglySorted Z.lt (map StartBlock (merged (run_events res)))
  /\ nextExpectedStartBlock s <= nextExpectedStartBlock (run_state res)
  /\ (forall x, x ∈ ranges s ->
        x ∈ ranges (run_state res) \/ x ∈ merged (run_events res))
  /\ (StronglySorted range_le (ranges s) ->
      StronglySorted range_le (ranges (run_state res)))
  /\ (forall (s0 : Squashable) (w0 : World E) (r : Range)
             (rest : list Range),
        ranges s0 = r :: rest ->
        nextExpectedStartBlock s0 <> StartBlock r ->
        run_events (mergeAvailablePartials E notifier s0 w0) = []
        /\ run_state (mergeAvailablePartials E notifier s0 w0) = s0).
Proof.
  intros Hwf Hcalls res. subst res.
  destruct (squashAll E notifier calls s w) as [[[outs s'] w'] evs] eqn:Hrun.
  unfold run_events at 1 2 3, run_state at 1 2 3 4. simpl.
  apply (squashAll_facts E notifier wfRange) in Hrun
    as (_ & Hch & _ & Hwt & Hk & Hs); [|exact Hwf|].
  - assert (Forall wfRange (merged evs)) as Hwm.
    { apply Forall_forall. intros x Hx. rewrite Forall_forall in Hwt.
      apply Hwt. apply merged_touched. exact Hx. }
    destruct (chain_increasing _ _ _ Hwm Hch) as (Hinc & _ & Hle).
    split; [exact Hch|]. split; [exact Hinc|]. split; [exact Hle|].
    split; [exact Hk|]. split; [exact Hs|].
    intros s0 w0 r rest. apply mergeAvailablePartials_stalls.
  - eapply Forall_impl; [exact Hcalls|]. simpl.
    intros r Hr x Hx _ _. rewrite Forall_forall in Hr. auto.
Qed.

Lemma squashAll_merges_contiguous_witness :
  let s := NewSquashable (mkStore "A" 0 0) 300 100 0 in
  let res :=
    squashAll quietEnv true
      [mkRange 200 300; mkRange 100 200; mkRange 0 100] s tt in
  chain (nextExpectedStartBlock s) (merged (run_events res))
    (nextExpectedStartBlock (run_state res))
  /\ StronglySorted Z.lt (map StartBlock (merged (run_events res)))
  /\ nextExpectedStartBlock s <= nextExpectedStartBlock (run_state res)
  /\ (forall x, x ∈ ranges s ->
        x ∈ ranges (run_state res) \/ x ∈ merged (run_events res))
  /\ (StronglySorted range_le (ranges s) ->
      StronglySorted range_le (ranges (run_state res)))
  /\ (forall (s0 : Squashable) (w0 : World quietEnv) (r : Range)
             (rest : list Range),
        ranges s0 = r :: rest ->
        nextExpectedStartBlock s0 <> StartBlock r ->
        run_events (mergeAvailablePartials quietEnv true s0 w0) = []
        /\ run_state (mergeAvailablePartials quietEnv true s0 w0) = s0).
Proof.
  apply (squashAll_merges_contiguous quietEnv true
           [mkRange 200 300; mkRange 100 200; mkRange 0 100]
           (NewSquashable (mkStore "A" 0 0) 300 100 0) tt).
  - simpl. constructor.
  - repeat constructor; unfold wfRange; simpl; lia.
Defined.

(** C2 as stated fails for a Squashable that [NewSquasher] builds from a
    saved snapshot: with module initial block 0 and a snapshot saved up to
    block 500, the first range merged starts at 500, not at the module's
    initial block. *)
Lemma squashAll_merges_begin_after_snapshot :
  let s := newSquashableFor (mkStore "A" 0 0) 500 700 100 in
  let res := squashAll quietEnv true [mkRange 500 600] s tt in
  merged (run_events res) = [mkRange 500 600]
  /\ ModuleInitialBlock (builder s) = 0
  /\ ~ chain (ModuleInitialBlock (builder s)) (merged (run_events res))
         (nextExpectedStartBlock (run_state res)).
Proof.
  cbv zeta. split; [reflexivity|]. split; [reflexivity|].
  intros [Hstart _]. simpl in Hstart. discriminate.
Qed.

End SquashableClaims.

(** ** Readiness of the stores *)

Section StoresReadyClaims.
Import Block Orchestrator OrchestratorSpec.

Lemma readyIssues_bind (visit : list Squashable) :
  forall errs : list ReadyIssue,
    readyIssues visit errs = errs ++ (visit ≫= issues_of).
Proof.
  induction visit as [|v rest IH]; intros errs; simpl.
  - rewrite app_nil_r. reflexivity.
  - rewrite IH. unfold issues_of.
    destruct (targetReached v); destruct (IsEmpty v); simpl;
      rewrite <- ?app_assoc; reflexivity.
Qed.

Lemma IsEmpty_nil (v : Squashable) : IsEmpty v = true <-> ranges v = [].
Proof. unfold IsEmpty. destruct (ranges v); split; congruence. Qed.

Lemma issues_of_nil (v : Squashable) :
  issues_of v = [] <-> targetReached v = true /\ ranges v = [].
Proof.
  rewrite <- IsEmpty_nil. unfold issues_of.
  destruct (targetReached v); destruct (IsEmpty v); simpl;
    split; try tauto; try discriminate; intros [? ?]; discriminate.
Qed.

Lemma issues_of_target (v : Squashable) (n : string) :
  TargetNotReached n ∈ issues_of v <-> name v = n /\ targetReached v = false.
Proof.
  unfold issues_of. rewrite elem_of_app.
  assert (TargetNotReached n
            ∈ (if IsEmpty v then [] else [MissingRanges (name v) (ranges v)])
          <-> False) as ->.
  { destruct (IsEmpty v); rewrite ?list_elem_of_singleton, ?elem_of_nil;
      split; try contradiction; discriminate. }
  destruct (targetReached v).
  - rewrite elem_of_nil. split; [tauto|]. intros [_ ?]. discriminate.
  - rewrite list_elem_of_singleton. split.
    + intros [[= ->]|[]]. auto.
    + intros [-> _]. auto.
Qed.

Lemma issues_of_missing (v : Squashable) (n : string) (rs : list Range) :
  MissingRanges n rs ∈ issues_of v <->
  name v = n /\ ranges v = rs /\ rs <> [].
Proof.
  unfold issues_of. rewrite elem_of_app.
  assert (MissingRanges n rs
            ∈ (if targetReached v then [] else [TargetNotReached (name v)])
          <-> False) as ->.
  { destruct (targetReached v); rewrite ?list_elem_of_singleton, ?elem_of_nil;
      split; try contradiction; discriminate. }
  pose proof (IsEmpty_nil v) as Hnil.
  destruct (IsEmpty v).
  - rewrite elem_of_nil. split; [tauto|].
    intros (_ & <- & Hne). exfalso. apply Hne. apply Hnil. reflexivity.
  - rewrite list_elem_of_singleton. split.
    + intros [[]|[= -> ->]]. split; [reflexivity|]. split; [reflexivity|].
      intros Hz. apply Hnil in Hz. discriminate.
    + intros (-> & -> & _). auto.
Qed.

Lemma visit_lookup (sq : Squasher) (visit : list (string * Squashable))
    (v : Squashable) :
  visit ≡ₚ map_to_list (squashables sq) ->
  v ∈ visit.*2 <-> exists k, squashables sq !! k = Some v.
Proof.
  intros Hperm. rewrite list_elem_of_fmap. split.
  - intros ([k v'] & -> & Hin). exists k. simpl.
    rewrite Hperm in Hin. apply elem_of_map_to_list in Hin. exact Hin.
  - intros [k Hk]. exists (k, v). split; [reflexivity|].
    rewrite Hperm. apply elem_of_map_to_list. exact Hk.
Qed.

(** C5. [StoresReady] returns nil if and only if every Squashable has
    reached its target and has no pending range. Otherwise its error
    carries, for exactly the modules whose target is not reached, the
    message "target not reached", and for exactly the modules with pending
    ranges, the message "missing ranges" with those ranges. *)
Theorem StoresReady_iff (sq : Squasher) (visit : list (string * Squashable)) :
  visit ≡ₚ map_to_list (squashables sq) ->
  (StoresReady sq visit = None <->
   forall k v, squashables sq !! k = Some v ->
     targetReached v = true /\ ranges v = [])
  /\ (forall errs, StoresReady sq visit = Some errs ->
        errs <> []
        /\ (forall n, TargetNotReached n ∈ errs <->
              exists k v, squashables sq !! k = Some v
                /\ name v = n /\ targetReached v = false)
        /\ (forall n rs, MissingRanges n rs ∈ errs <->
              exists k v, squashables sq !! k = Some v
                /\ name v = n /\ ranges v = rs /\ rs <> [])).
Proof.
  intros Hperm. unfold StoresReady.
  rewrite readyIssues_bind. simpl.
  set (errs := visit.*2 ≫= issues_of).
  assert (forall x, x ∈ errs <-> exists v, x ∈ issues_of v /\ v ∈ visit.*2)
    as Hmem by (intros x; apply list_elem_of_bind).
  split.
  - destruct errs as [|e0 errs0] eqn:Herrs; simpl.
    + split; [intros _|reflexivity].
      intros k v Hk. apply issues_of_nil.
      destruct (issues_of v) as [|i l] eqn:Hi; [reflexivity|].
      exfalso. apply (elem_of_nil i). apply Hmem. exists v.
      split; [rewrite Hi; apply list_elem_of_here|].
      apply (visit_lookup sq); eauto.
    + split; [discriminate|]. intros Hall. exfalso.
      destruct (proj1 (Hmem e0) (list_elem_of_here _ _)) as (v & Hv & Hin).
      apply (visit_lookup sq) in Hin as [k Hk]; [|exact Hperm].
      apply Hall in Hk. apply issues_of_nil in Hk.
      rewrite Hk in Hv. apply elem_of_nil in Hv. exact Hv.
  - intros errs' Hsome.
    destruct errs as [|e0 errs0] eqn:Herrs; simpl in Hsome; [discriminate|].
    injection Hsome as <-.
    split; [discriminate|]. split.
    + intros n. rewrite Hmem. split.
      * intros (v & Hv & Hin). apply issues_of_target in Hv.
        apply (visit_lookup sq) in Hin as [k Hk]; [|exact Hperm]. eauto.
      * intros (k & v & Hk & Hv). exists v.
        split; [apply issues_of_target; exact Hv|].
        apply (visit_lookup sq); eauto.
    + intros n rs. rewrite Hmem. split.
      * intros (v & Hv & Hin). apply issues_of_missing in Hv.
        apply (visit_lookup sq) in Hin as [k Hk]; [|exact Hperm]. eauto.
      * intros (k & v & Hk & Hv). exists v.
        split; [apply issues_of_missing; exact Hv|].
        apply (visit_lookup sq); eauto.
Qed.

Lemma StoresReady_iff_witness :
  let sq :=
    mkSquasher
      {[ "A" := NewSquashable (mkStore "A" 0 0) 300 100 0 ]} 100 300 true in
  (StoresReady sq (map_to_list (squashables sq)) = None <->
   forall k v, squashables sq !! k = Some v ->
     targetReached v = true /\ ranges v = [])
  /\ (forall errs,
        StoresReady sq (map_to_list (squashables sq)) = Some errs ->
        errs <> []
        /\ (forall n, TargetNotReached n ∈ errs <->
              exists k v, squashables sq !! k = Some v
                /\ name v = n /\ targetReached v = false)
        /\ (forall n rs, MissingRanges n rs ∈ errs <->
              exists k v, squashables sq !! k = Some v
                /\ name v = n /\ ranges v = rs /\ rs <> [])).
Proof.
  apply (StoresReady_iff
           (mkSquasher
              {[ "A" := NewSquashable (mkStore "A" 0 0) 300 100 0 ]}
              100 300 true)).
  reflexivity.
Defined.

End StoresReadyClaims.

(** ** The stage matrix *)

Section StageFacts.
Import Block Stage StageSpec.

Lemma index_lookup {A : Type} (l : list A) (i : Z) :
  0 <= i -> index l i = l !! Z.to_nat i.
Proof. intros Hi. unfold index. destruct (Z.ltb_spec i 0); [lia|reflexivity]. Qed.

Lemma index_is_Some {A : Type} (l : list A) (i : Z) :
  0 <= i < Z.of_nat (length l) -> is_Some (index l i).
Proof.
  intros Hi. rewrite index_lookup by lia.
  apply lookup_lt_is_Some. lia.
Qed.

Lemma index_of_nat {A : Type} (l : list A) (i : nat) :
  index l (Z.of_nat i) = l !! i.
Proof. rewrite index_lookup by lia. rewrite Nat2Z.id. reflexivity. Qed.

(** An entry of an allocated row exists. *)
Lemma GetState_allocated (s : Stages) (seg stage : Z) :
  Forall (fun row => length row = length (stages s)) (segmentStates s) ->
  0 <= seg - segmentOffset s < Z.of_nat (length (segmentStates s)) ->
  0 <= stage < Z.of_nat (length (stages s)) ->
  GetState s (mkUnit seg stage) = Some (state_at s seg stage).
Proof.
  intros Hrows Hseg Hstage. unfold state_at, GetState. simpl.
  destruct (index_is_Some (segmentStates s) (seg - segmentOffset s) Hseg)
    as [row Hrow].
  rewrite Hrow. simpl.
  assert (length row = length (stages s)) as Hlen.
  { rewrite index_lookup in Hrow by lia.
    rewrite Forall_forall in Hrows. apply Hrows.
    eapply list_elem_of_lookup_2. exact Hrow. }
  destruct (index_is_Some row stage) as [st Hst]; [lia|].
  rewrite Hst. reflexivity.
Qed.

Lemma stage_first_lookup (s : Stages) (i : nat) (stg : StageT) :
  stages s !! i = Some stg ->
  stage_first s (Z.of_nat i) = FirstIndex (stage_segmenter stg).
Proof.
  intros Hi. unfold stage_first. rewrite index_of_nat, Hi. reflexivity.
Qed.

(** The loop of [dependenciesCompleted] computes [lower_completed] on an
    allocated row. *)
Lemma lowerStagesCompleted_spec (s : Stages) (seg : Z) (n : nat) :
  Forall (fun row => length row = length (stages s)) (segmentStates s) ->
  0 <= seg - segmentOffset s < Z.of_nat (length (segmentStates s)) ->
  (n <= length (stages s))%nat ->
  lowerStagesCompleted s seg n
  = Some (forallb (fun i => bool_decide (state_at s seg i = UnitCompleted))
            (stage_order n)).
Proof.
  intros Hrows Hseg. induction n as [|i IH]; intros Hn; simpl; [reflexivity|].
  rewrite GetState_allocated by (try assumption; lia). simpl.
  destruct (bool_decide (state_at s seg (Z.of_nat i) = UnitCompleted)); simpl.
  - apply IH. lia.
  - reflexivity.
Qed.

(** [dependenciesCompleted] on a unit of a stage that has started. *)
Lemma dependenciesCompleted_spec (s : Stages) (u : Unit) :
  wf s ->
  0 <= Stage u < Z.of_nat (length (stages s)) ->
  stage_first s (Stage u) <= Segment u ->
  Segment u - segmentOffset s <= Z.of_nat (length (segmentStates s)) ->
  dependenciesCompleted s u = Some (deps_done s u).
Proof.
  intros (Hoff & Hfirst & Halloc & Hrows & Hstages) Hstage Hstarted Hseg.
  unfold dependenciesCompleted, deps_done.
  destruct (index_is_Some (stages s) (Stage u) Hstage) as [stg Hstg].
  assert (stage_first s (Stage u) = FirstIndex (stage_segmenter stg)) as Hsf.
  { unfold stage_first. rewrite Hstg. reflexivity. }
  rewrite Hstg. simpl. rewrite Hsf in *.
  destruct (Z.leb_spec (Segment u) (FirstIndex (stage_segmenter stg)))
    as [Hle|Hgt].
  - assert (Segment u = FirstIndex (stage_segmenter stg)) as -> by lia.
    rewrite Z.eqb_refl. reflexivity.
  - destruct (Z.eqb_spec (Segment u) (FirstIndex (stage_segmenter stg)));
      [lia|].
    destruct (Z.eqb_spec (Stage u) 0); [reflexivity|]. simpl.
    assert (segmentOffset s <= FirstIndex (stage_segmenter stg)) as Hso.
    { rewrite Forall_forall in Hstages. apply Hstages.
      rewrite index_lookup in Hstg by lia.
      eapply list_elem_of_lookup_2. exact Hstg. }
    unfold lower_completed.
    apply lowerStagesCompleted_spec; [assumption|lia|lia].
Qed.

(** The meaning of [deps_done]. *)
Lemma deps_done_iff (s : Stages) (u : Unit) :
  deps_done s u = true <->
  Segment u = stage_first s (Stage u)
  \/ Stage u = 0
  \/ forall i, 0 <= i < Stage u ->
       state_at s (Segment u - 1) i = UnitCompleted.
Proof.
  unfold deps_done, lower_completed.
  rewrite !orb_true_iff, Z.eqb_eq, Z.eqb_eq, forallb_forall.
  assert (forall n i, In i (stage_order n) <-> 0 <= i < Z.of_nat n) as Horder.
  { induction n as [|n IH]; intros i; simpl; [lia|].
    rewrite IH. lia. }
  split.
  - intros [[H|H]|H]; auto. right. right. intros i Hi.
    specialize (H i). rewrite Horder in H.
    eapply bool_decide_eq_true_1. apply H. lia.
  - intros [H|[H|H]]; auto. right. intros i Hi. apply Horder in Hi.
    apply bool_decide_eq_true_2. apply H. lia.
Qed.

(** The inner loop of [NextJob] finds the first eligible unit of an
    allocated segment, from the highest stage down. *)
Lemma stageLoop_spec (s : Stages) (seg : Z) (n : nat) :
  wf s ->
  0 <= seg - segmentOffset s < Z.of_nat (length (segmentStates s)) ->
  (n <= length (stages s))%nat ->
  stageLoop s seg n
  = Some (find (eligible s) (mkUnit seg <$> stage_order n)).
Proof.
  intros Hwf Hseg. pose proof Hwf as (Hoff & Hfirst & Halloc & Hrows & Hstages).
  induction n as [|i IH]; intros Hn; [reflexivity|].
  cbn [stageLoop stage_order fmap list_fmap find].
  rewrite GetState_allocated by (try assumption; lia).
  cbn [mbind option_bind].
  unfold eligible at 1. cbn [Segment Stage].
  destruct (bool_decide (state_at s seg (Z.of_nat i) = UnitPending));
    cbn [negb andb]; [|apply IH; lia].
  destruct (index_is_Some (stages s) (Z.of_nat i)) as [stg Hstg]; [lia|].
  rewrite Hstg. cbn [mbind option_bind].
  assert (stage_first s (Z.of_nat i) = FirstIndex (stage_segmenter stg)) as Hsf.
  { unfold stage_first. rewrite Hstg. reflexivity. }
  rewrite Hsf.
  destruct (Z.ltb_spec seg (FirstIndex (stage_segmenter stg))) as [Hlt|Hge].
  - destruct (Z.leb_spec (FirstIndex (stage_segmenter stg)) seg); [lia|].
    cbn [andb]. apply IH. lia.
  - destruct (Z.leb_spec (FirstIndex (stage_segmenter stg)) seg); [|lia].
    rewrite (dependenciesCompleted_spec s (mkUnit seg (Z.of_nat i)));
      [|assumption|simpl; lia|simpl; lia|simpl; lia].
    cbn [mbind option_bind andb].
    destruct (deps_done s (mkUnit seg (Z.of_nat i))); cbn [negb];
      [reflexivity|apply IH; lia].
Qed.

Lemma stage_order_range (n : nat) (i : Z) :
  In i (stage_order n) <-> 0 <= i < Z.of_nat n.
Proof.
  induction n as [|n IH]; simpl; [lia|]. rewrite IH. lia.
Qed.

(** *** Growing the matrix *)

Lemma grown_refl (s : Stages) : grown s s.
Proof.
  unfold grown. repeat split; try reflexivity.
  exists 0%nat. simpl. rewrite app_nil_r. reflexivity.
Qed.

Lemma growSegments_grown (s : Stages) : grown s (growSegments s).
Proof.
  unfold grown, growSegments. simpl. repeat split; try reflexivity. eauto.
Qed.

Lemma growth_pos (n : nat) : (0 < growth n)%nat.
Proof. unfold growth. destruct n; simpl; lia. Qed.

Lemma growth_mono (n k : nat) :
  (n + growth n <= n + k + growth (n + k))%nat.
Proof. unfold growth. destruct n, k; simpl; lia. Qed.

Lemma grown_wf (s s' : Stages) : wf s -> grown s s' -> wf s'.
Proof.
  intros (Hoff & Hfirst & Halloc & Hrows & Hstages) (Hsg & Hst & Ho & k & Hk).
  unfold wf. rewrite Hsg, Hst, Ho, Hk.
  rewrite length_app, length_replicate.
  pose proof (growth_mono (length (segmentStates s)) k) as Hmono.
  repeat split; try assumption; try lia.
  apply Forall_app. split; [assumption|].
  apply Forall_forall. intros row Hrow.
  apply elem_of_replicate in Hrow as [-> _]. apply length_replicate.
Qed.

(** Appended rows are pending: every unit reads as before. *)
Lemma grown_state_at (s s' : Stages) (seg stage : Z) :
  grown s s' -> state_at s' seg stage = state_at s seg stage.
Proof.
  intros (Hsg & Hst & Ho & k & Hk).
  unfold state_at, GetState. cbn [Segment Stage]. rewrite Ho, Hk.
  unfold index.
  destruct (Z.ltb_spec (seg - segmentOffset s) 0); [reflexivity|].
  rewrite lookup_app.
  destruct (segmentStates s !! Z.to_nat (seg - segmentOffset s)) as [row|];
    [reflexivity|].
  destruct (replicate k _ !! _) as [row|] eqn:Hrow; [|reflexivity].
  apply lookup_replicate in Hrow as [-> _]. cbn [mbind option_bind].
  destruct (stage <? 0); [reflexivity|].
  destruct (replicate _ _ !! _) as [st|] eqn:Hst'; [|reflexivity].
  apply lookup_replicate in Hst' as [-> _]. reflexivity.
Qed.

Lemma grown_eligible (s s' : Stages) (u : Unit) :
  grown s s' -> eligible s' u = eligible s u.
Proof.
  intros Hg. pose proof Hg as (Hsg & Hst & Ho & _).
  unfold eligible, deps_done, lower_completed, stage_first.
  rewrite Hst, (grown_state_at s s') by exact Hg.
  f_equal. f_equal.
  induction (stage_order (Z.to_nat (Stage u))) as [|i l IH]; simpl;
    [reflexivity|].
  rewrite (grown_state_at s s') by exact Hg. rewrite IH. reflexivity.
Qed.

Lemma find_eligible_grown (s s' : Stages) (l : list Unit) :
  grown s s' -> find (eligible s') l = find (eligible s) l.
Proof.
  intros Hg. induction l as [|u l IH]; simpl; [reflexivity|].
  rewrite (grown_eligible s s') by exact Hg. rewrite IH. reflexivity.
Qed.

Lemma find_app_units (f : Unit -> bool) (l1 l2 : list Unit) :
  find f (l1 ++ l2)
  = match find f l1 with Some u => Some u | None => find f l2 end.
Proof.
  induction l1 as [|u l1 IH]; simpl; [reflexivity|].
  destruct (f u); [reflexivity|exact IH].
Qed.

Lemma scan_from_cons (s : Stages) (idx : Z) :
  idx <= LastIndex (segmenter s) ->
  scan_from s idx
  = (mkUnit idx <$> stage_order (length (stages s)))
    ++ scan_from s (idx + 1).
Proof.
  intros Hle. unfold scan_from.
  rewrite seqZ_cons by lia. cbn [mbind list_bind].
  f_equal. f_equal. f_equal; lia.
Qed.

Lemma scan_from_nil (s : Stages) (idx : Z) :
  LastIndex (segmenter s) < idx -> scan_from s idx = [].
Proof. intros Hlt. unfold scan_from. rewrite seqZ_nil by lia. reflexivity. Qed.

(** Scheduling an allocated unit changes that unit only. *)
Lemma markSegmentScheduled_spec (s : Stages) (u : Unit) :
  Forall (fun row => length row = length (stages s)) (segmentStates s) ->
  0 <= Segment u - segmentOffset s < Z.of_nat (length (segmentStates s)) ->
  0 <= Stage u < Z.of_nat (length (stages s)) ->
  exists s',
    markSegmentScheduled s u = Some s'
    /\ forall seg stage,
         state_at s' seg stage
         = if decide (mkUnit seg stage = u) then UnitScheduled
           else state_at s seg stage.
Proof.
  intros Hrows Hseg Hstage. destruct u as [useg ustage]. simpl in *.
  unfold markSegmentScheduled, setState. cbn [Segment Stage].
  destruct (index_is_Some (segmentStates s) (useg - segmentOffset s) Hseg)
    as [row Hrow].
  assert (length row = length (stages s)) as Hlen.
  { rewrite index_lookup in Hrow by lia.
    rewrite Forall_forall in Hrows. apply Hrows.
    eapply list_elem_of_lookup_2. exact Hrow. }
  destruct (index_is_Some row ustage) as [st Hst]; [lia|].
  rewrite Hrow. cbn [mbind option_bind]. rewrite Hst. cbn [mbind option_bind].
  eexists. split; [reflexivity|].
  intros seg stage. unfold state_at, GetState. cbn [Segment Stage segmentStates segmentOffset].
  rewrite index_lookup in Hrow by lia.
  unfold index.
  destruct (Z.ltb_spec (seg - segmentOffset s) 0) as [Hneg|Hnn].
  { destruct (decide _) as [[= -> ->]|_]; [lia|reflexivity]. }
  rewrite list_lookup_insert.
  destruct (decide (Z.to_nat (useg - segmentOffset s)
                    = Z.to_nat (seg - segmentOffset s)
                    /\ (Z.to_nat (useg - segmentOffset s)
                        < length (segmentStates s))%nat)) as [[Heq _]|Hne].
  - assert (seg = useg) as -> by lia.
    rewrite Hrow. cbn [mbind option_bind].
    destruct (Z.ltb_spec stage 0) as [Hsneg|Hsnn].
    { destruct (decide _) as [[= ->]|_]; [lia|reflexivity]. }
    rewrite list_lookup_insert.
    destruct (decide (Z.to_nat ustage = Z.to_nat stage
                      /\ (Z.to_nat ustage < length row)%nat)) as [[Hj _]|Hj].
    + assert (stage = ustage) as -> by lia.
      destruct (decide _) as [_|Hcontra]; [reflexivity|contradiction].
    + destruct (decide _) as [[= ->]|_]; [|reflexivity].
      exfalso. apply Hj. split; [reflexivity|lia].
  - destruct (decide _) as [[= -> ->]|_]; [|reflexivity].
    exfalso. apply Hne. split; [reflexivity|lia].
Qed.

(** The outer loop of [NextJob] returns the first eligible unit of the
    segments from [idx] on, and schedules it. *)
Lemma segmentLoop_spec (fuel : nat) :
  forall (idx : Z) (s : Stages),
    wf s ->
    segmentOffset s <= idx ->
    idx - segmentOffset s
    < Z.of_nat (length (segmentStates s)
                + growth (length (segmentStates s))) ->
    fuel = Z.to_nat (LastIndex (segmenter s) - idx + 1) ->
    exists s',
      segmentLoop fuel idx s
      = Ok (s', job_of s <$> find (eligible s) (scan_from s idx))
      /\ forall seg stage,
           state_at s' seg stage
           = match find (eligible s) (scan_from s idx) with
             | Some u =>
                 if decide (mkUnit seg stage = u) then UnitScheduled
                 else state_at s seg stage
             | None => state_at s seg stage
             end.
Proof.
  induction fuel as [|fuel IH]; intros idx s Hwf Hoff Halloc Hfuel.
  - (* no segment left: the loop leaves at once *)
    assert (LastIndex (segmenter s) < idx) as Hlast by lia.
    rewrite scan_from_nil by exact Hlast.
    cbn [segmentLoop find fmap option_fmap option_map].
    set (s1 := if Z.of_nat (length (segmentStates s)) <=? idx - segmentOffset s
               then growSegments s else s).
    assert (grown s s1) as Hg
      by (subst s1; destruct (_ <=? _);
          [apply growSegments_grown | apply grown_refl]).
    destruct Hg as (Hsg & Hrest). rewrite Hsg.
    destruct (Z.ltb_spec (LastIndex (segmenter s)) idx); [|lia].
    exists s1. split; [reflexivity|].
    intros seg stage. apply grown_state_at. split; assumption.
  - cbn [segmentLoop].
    set (s1 := if Z.of_nat (length (segmentStates s)) <=? idx - segmentOffset s
               then growSegments s else s).
    assert (grown s s1) as Hg
      by (subst s1; destruct (_ <=? _);
          [apply growSegments_grown | apply grown_refl]).
    assert (idx - segmentOffset s1 < Z.of_nat (length (segmentStates s1)))
      as Halloc1.
    { subst s1. destruct (Z.leb_spec (Z.of_nat (length (segmentStates s)))
                            (idx - segmentOffset s)); [|assumption].
      unfold growSegments. cbn [segmentStates segmentOffset].
      rewrite length_app, length_replicate. exact Halloc. }
    pose proof (grown_wf s s1 Hwf Hg) as Hwf1.
    pose proof Hg as (Hsg & Hst & Ho & _).
    rewrite Hsg, Hst.
    destruct (Z.ltb_spec (LastIndex (segmenter s)) idx) as [Hlast|Hlast];
      [lia|].
    rewrite (stageLoop_spec s1 idx (length (stages s)));
      [|assumption|lia|rewrite Hst; lia].
    rewrite (find_eligible_grown s s1) by exact Hg.
    rewrite (scan_from_cons s idx) by lia.
    rewrite find_app_units.
    destruct (find (eligible s) (mkUnit idx <$> stage_order (length (stages s))))
      as [u|] eqn:Hfind.
    + apply find_some in Hfind as [Hin _].
      apply in_map_iff in Hin as (j & <- & Hj).
      apply stage_order_range in Hj.
      destruct (markSegmentScheduled_spec s1 (mkUnit idx j))
        as (s' & Hmark & Hstate).
      * destruct Hwf1 as (_ & _ & _ & Hrows & _). exact Hrows.
      * simpl. lia.
      * simpl. rewrite Hst. lia.
      * rewrite Hmark. exists s'. split; [reflexivity|].
        intros seg stage. rewrite Hstate.
        rewrite (grown_state_at s s1) by exact Hg. reflexivity.
    + destruct (IH (idx + 1) s1) as (s' & Hloop & Hstate);
        [assumption|lia
        |pose proof (growth_pos (length (segmentStates s1))); lia
        |rewrite Hsg; lia|].
      rewrite Hloop. exists s'.
      assert (scan_from s1 (idx + 1) = scan_from s (idx + 1)) as Hscan
        by (unfold scan_from; rewrite Hsg, Hst; reflexivity).
      rewrite Hscan, (find_eligible_grown s s1) in * by exact Hg.
      split.
      * unfold job_of. rewrite Hsg. reflexivity.
      * intros seg stage. rewrite Hstate.
        destruct (find (eligible s) (scan_from s (idx + 1)));
          rewrite (grown_state_at s s1) by exact Hg; reflexivity.
Qed.

End StageFacts.

Section StageClaims.
Import Block Stage StageSpec.

(** C8. On a state on which it does not panic, [NextJob] scans the segments
    in increasing order from the segmenter's first index to its last and,
    within a segment, the stages from the highest index to the lowest; it
    returns the first unit of that order that is pending, whose stage has
    started (segment >= the stage's first index) and whose dependencies are
    completed, marks it scheduled and changes no other unit; it returns no
    unit when there is none. For a unit of a started stage,
    [dependenciesCompleted] holds exactly when the unit is in its stage's
    first segment, or its stage is 0, or every lower stage of the previous
    segment is completed. *)
Theorem Stages_NextJob_first_eligible (s : Stages) :
  wf s ->
  (exists s',
     NextJob s = Ok (s', job_of s <$> find (eligible s) (scan_order s))
     /\ forall seg stage,
          state_at s' seg stage
          = match find (eligible s) (scan_order s) with
            | Some u =>
                if decide (mkUnit seg stage = u) then UnitScheduled
                else state_at s seg stage
            | None => state_at s seg stage
            end)
  /\ (forall u,
        eligible s u = true <->
        state_at s (Segment u) (Stage u) = UnitPending
        /\ stage_first s (Stage u) <= Segment u
        /\ (Segment u = stage_first s (Stage u)
            \/ Stage u = 0
            \/ forall i, 0 <= i < Stage u ->
                 state_at s (Segment u - 1) i = UnitCompleted))
  /\ (forall u,
        0 <= Stage u < Z.of_nat (length (stages s)) ->
        stage_first s (Stage u) <= Segment u ->
        Segment u - segmentOffset s <= Z.of_nat (length (segmentStates s)) ->
        (dependenciesCompleted s u = Some true
         \/ dependenciesCompleted s u = Some false)
        /\ (dependenciesCompleted s u = Some true <->
            Segment u = stage_first s (Stage u)
            \/ Stage u = 0
            \/ forall i, 0 <= i < Stage u ->
                 state_at s (Segment u - 1) i = UnitCompleted)).
Proof.
  intros Hwf. split; [|split].
  - pose proof Hwf as (Hoff & Hfirst & Halloc & _).
    unfold NextJob, scan_order.
    apply segmentLoop_spec; try assumption. reflexivity.
  - intros u. unfold eligible.
    rewrite !andb_true_iff, bool_decide_eq_true, Z.leb_le, deps_done_iff.
    tauto.
  - intros u Hstage Hstarted Hseg.
    rewrite (dependenciesCompleted_spec s u Hwf Hstage Hstarted Hseg).
    rewrite <- deps_done_iff.
    destruct (deps_done s u); split; auto; split; congruence.
Qed.

Lemma Stages_NextJob_first_eligible_witness :
  let sv := mkSegmenterView 0 4 (fun i => Some (mkRange (i * 10) (i * 10 + 10))) in
  let s := mkStages sv [mkStage sv; mkStage sv; mkStage sv] [] 0 in
  (exists s',
     NextJob s = Ok (s', job_of s <$> find (eligible s) (scan_order s))
     /\ forall seg stage,
          state_at s' seg stage
          = match find (eligible s) (scan_order s) with
            | Some u =>
                if decide (mkUnit seg stage = u) then UnitScheduled
                else state_at s seg stage
            | None => state_at s seg stage
            end)
  /\ (forall u,
        eligible s u = true <->
        state_at s (Segment u) (Stage u) = UnitPending
        /\ stage_first s (Stage u) <= Segment u
        /\ (Segment u = stage_first s (Stage u)
            \/ Stage u = 0
            \/ forall i, 0 <= i < Stage u ->
                 state_at s (Segment u - 1) i = UnitCompleted))
  /\ (forall u,
        0 <= Stage u < Z.of_nat (length (stages s)) ->
        stage_first s (Stage u) <= Segment u ->
        Segment u - segmentOffset s <= Z.of_nat (length (segmentStates s)) ->
        (dependenciesCompleted s u = Some true
         \/ dependenciesCompleted s u = Some false)
        /\ (dependenciesCompleted s u = Some true <->
            Segment u = stage_first s (Stage u)
            \/ Stage u = 0
            \/ forall i, 0 <= i < Stage u ->
                 state_at s (Segment u - 1) i = UnitCompleted)).
Proof.
  apply (Stages_NextJob_first_eligible
           (mkStages
              (mkSegmenterView 0 4
                 (fun i => Some (mkRange (i * 10) (i * 10 + 10))))
              [mkStage (mkSegmenterView 0 4
                          (fun i => Some (mkRange (i * 10) (i * 10 + 10))));
               mkStage (mkSegmenterView 0 4
                          (fun i => Some (mkRange (i * 10) (i * 10 + 10))));
               mkStage (mkSegmenterView 0 4
                          (fun i => Some (mkRange (i * 10) (i * 10 + 10))))]
              [] 0)).
  unfold wf. simpl. repeat split; try lia; repeat constructor; simpl; lia.
Defined.

(** The first job of a fresh matrix with three stages: the highest stage of
    the first segment, as in the repository's test of [NextJob]. *)
Lemma Stages_NextJob_fresh_matrix :
  let sv := mkSegmenterView 0 4 (fun i => Some (mkRange (i * 10) (i * 10 + 10))) in
  let s := mkStages sv [mkStage sv; mkStage sv; mkStage sv] [] 0 in
  find (eligible s) (scan_order s) = Some (mkUnit 0 2)
  /\ exists s', NextJob s = Ok (s', Some (mkUnit 0 2, Some (mkRange 0 10))).
Proof. cbv zeta. split; [reflexivity|]. eexists. reflexivity. Qed.

End StageClaims.

(** * Further properties of the code *)

(** ** The segmenter: tiling, partial segments, block lookup *)

Section SegmenterTiling.
Import Mach Block.

(** Consecutive segments are contiguous. For a Segmenter whose initial block
    does not exceed its exclusive end, and valid indexes [k] and [k + 1]:
    [Range(k)] is a range that holds a block and ends at a multiple of the
    interval; when [Range(k + 1)] returns a range, it starts where
    [Range(k)] ends; and it does return one when [k + 1] is not the last
    index, or when [bN] is not a multiple of [I] and [bN + I] is within
    uint64. *)
Theorem Segmenter_ranges_contiguous (I b0 bN : Z) (s : Segmenter) (k : Z) :
  is_u64 I -> is_u64 b0 -> is_u64 bN -> b0 <= bN ->
  NewSegmenter I b0 bN = Some s ->
  0 <= k -> k + 1 < Count s ->
  exists r1 : Range,
    Segmenter_Range s k = Built r1
    /\ StartBlock r1 < ExclusiveEndBlock r1
    /\ ExclusiveEndBlock r1 mod I = 0
    /\ (forall r2 : Range,
          Segmenter_Range s (k + 1) = Built r2 ->
          StartBlock r2 = ExclusiveEndBlock r1)
    /\ (k + 1 < Count s - 1 \/ (bN mod I <> 0 /\ bN + I < two64) ->
        exists r2 : Range, Segmenter_Range s (k + 1) = Built r2).
Proof.
  intros HI Hb0 HbN Hle Hnew Hk0 Hk1.
  destruct (NewSegmenter_fields _ _ _ _ Hnew) as (Hne & _).
  assert (0 < I) as HIpos by (unfold is_u64 in HI; lia).
  assert (0 <= b0 / I) by (apply Z.div_pos; unfold is_u64 in *; lia).
  pose proof (Z.div_mod b0 I ltac:(lia)) as Hdm0.
  pose proof (Z.mod_pos_bound b0 I HIpos) as Hm0.
  destruct (Segmenter_Range_Built I b0 bN s k) as [Hr1 Hlt1];
    try assumption; try lia.
  destruct (Segmenter_Range_exact I b0 bN s (k + 1))
    as (Hcount & _ & Hb2 & Hr2); try assumption; try lia.
  destruct (Z.eqb_spec (k + 1) 0); [lia|].
  assert (Z.min (b0 / I * I + k * I + I) bN = b0 / I * I + (k + 1) * I)
    as Hend by lia.
  rewrite Hend in Hr1, Hlt1.
  eexists. split; [exact Hr1|]. cbn [StartBlock ExclusiveEndBlock].
  split; [exact Hlt1|]. split; [|split].
  - replace (b0 / I * I + (k + 1) * I) with ((b0 / I + (k + 1)) * I) by lia.
    apply Z.mod_mul. lia.
  - intros r2 Hr. rewrite Hr2 in Hr. apply NewRange_inv in Hr as [_ ->].
    reflexivity.
  - intros Hcase.
    assert (b0 < bN) by nia.
    destruct (Segmenter_Range_Built I b0 bN s (k + 1)) as [Hr _];
      try assumption; try lia.
    eauto.
Qed.

Lemma Segmenter_ranges_contiguous_witness :
  exists r1 : Range,
    Segmenter_Range (mkSegmenter 10 5 75 8) 0 = Built r1
    /\ StartBlock r1 < ExclusiveEndBlock r1
    /\ ExclusiveEndBlock r1 mod 10 = 0
    /\ (forall r2 : Range,
          Segmenter_Range (mkSegmenter 10 5 75 8) (0 + 1) = Built r2 ->
          StartBlock r2 = ExclusiveEndBlock r1)
    /\ (0 + 1 < Count (mkSegmenter 10 5 75 8) - 1
        \/ (75 mod 10 <> 0 /\ 75 + 10 < two64) ->
        exists r2 : Range,
          Segmenter_Range (mkSegmenter 10 5 75 8) (0 + 1) = Built r2).
Proof.
  apply (Segmenter_ranges_contiguous 10 5 75 (mkSegmenter 10 5 75 8) 0);
    try mach_bounds; try lia; reflexivity.
Defined.

(** Only the last segment can be partial. For a Segmenter whose initial
    block does not exceed its exclusive end: [IsPartial] is false at every
    valid index below the last; at the last index it is true when
    [b0 < bN], [bN] is not a multiple of the interval and [bN + I] is
    within uint64; it panics on an index at or beyond the count (its own
    check) and on a negative index (the nil range). *)
Theorem IsPartial_last_segment_only (I b0 bN : Z) (s : Segmenter) :
  is_u64 I -> is_u64 b0 -> is_u64 bN -> b0 <= bN ->
  NewSegmenter I b0 bN = Some s ->
  (forall k : Z, 0 <= k < Count s - 1 -> IsPartial s k = Partial false)
  /\ (0 < Count s -> b0 < bN -> bN mod I <> 0 -> bN + I < two64 ->
      IsPartial s (Count s - 1) = Partial true)
  /\ (forall k : Z, k < 0 \/ Count s <= k -> IsPartial s k = IsPartialPanics).
Proof.
  intros HI Hb0 HbN Hle Hnew.
  destruct (NewSegmenter_fields _ _ _ _ Hnew) as (Hne & Hi & Hb & He & Hc).
  assert (0 < I) as HIpos by (unfold is_u64 in HI; lia).
  assert (0 <= b0 / I) by (apply Z.div_pos; unfold is_u64 in *; lia).
  pose proof (Z.div_mod bN I ltac:(lia)) as HdmN.
  pose proof (Z.mod_pos_bound bN I HIpos) as HmN.
  split; [|split].
  - intros k Hk.
    destruct (Segmenter_Range_Built I b0 bN s k) as [Hr _];
      try assumption; try lia.
    destruct (Segmenter_Range_exact I b0 bN s k)
      as (Hcount & _ & _ & _); try assumption; try lia.
    unfold IsPartial. fold (Count s).
    destruct (Z.leb_spec (Count s) k) as [Hcontra|_]; [lia|].
    rewrite Hr, Hi. cbn [ExclusiveEndBlock].
    assert (b0 / I * I + k * I + I <= bN) by nia.
    rewrite Z.min_l by lia.
    replace (b0 / I * I + k * I + I) with ((b0 / I + k + 1) * I) by lia.
    rewrite Z.mod_mul by lia. reflexivity.
  - intros Hpos Hlt Hmod Hov.
    destruct (Segmenter_Range_Built I b0 bN s (Count s - 1)) as [Hr _];
      try assumption; try lia.
    destruct (Segmenter_Range_exact I b0 bN s (Count s - 1))
      as (Hcount & _ & _ & _); try assumption; try lia.
    unfold IsPartial. fold (Count s).
    destruct (Z.leb_spec (Count s) (Count s - 1)) as [Hcontra|_]; [lia|].
    rewrite Hr, Hi. cbn [ExclusiveEndBlock].
    assert (bN < b0 / I * I + (Count s - 1) * I + I) by nia.
    rewrite Z.min_r by lia.
    destruct (Z.eqb_spec (bN mod I) 0); [contradiction|reflexivity].
  - intros k [Hneg|Hge]; unfold IsPartial; fold (Count s).
    + destruct (Z.leb_spec (Count s) k); [reflexivity|].
      unfold Segmenter_Range.
      destruct (Z.ltb_spec k 0); [reflexivity|lia].
    + destruct (Z.leb_spec (Count s) k); [reflexivity|lia].
Qed.

Lemma IsPartial_last_segment_only_witness :
  (forall k : Z, 0 <= k < Count (mkSegmenter 10 5 75 8) - 1 ->
     IsPartial (mkSegmenter 10 5 75 8) k = Partial false)
  /\ (0 < Count (mkSegmenter 10 5 75 8) -> 5 < 75 -> 75 mod 10 <> 0 ->
      75 + 10 < two64 ->
      IsPartial (mkSegmenter 10 5 75 8) (Count (mkSegmenter 10 5 75 8) - 1)
      = Partial true)
  /\ (forall k : Z, k < 0 \/ Count (mkSegmenter 10 5 75 8) <= k ->
        IsPartial (mkSegmenter 10 5 75 8) k = IsPartialPanics).
Proof.
  apply (IsPartial_last_segment_only 10 5 75 (mkSegmenter 10 5 75 8));
    try mach_bounds; try lia; reflexivity.
Defined.

(** Every block of a segment maps back to the segment's index. *)
Theorem IndexForBlock_inside_range (I b0 bN : Z) (s : Segmenter) (k n : Z)
    (r : Range) :
  is_u64 I -> is_u64 b0 -> is_u64 bN -> b0 <= bN ->
  NewSegmenter I b0 bN = Some s ->
  0 <= k < Count s ->
  Segmenter_Range s k = Built r ->
  StartBlock r <= n < ExclusiveEndBlock r ->
  IndexForBlock s n = k.
Proof.
  intros HI Hb0 HbN Hle Hnew Hk Hrange Hn.
  destruct (NewSegmenter_fields _ _ _ _ Hnew) as (Hne & Hi & Hb & He & Hc).
  assert (0 < I) as HIpos by (unfold is_u64 in HI; lia).
  destruct (Segmenter_Range_exact I b0 bN s k)
    as (Hcount & Hsmall & Hbound & Hr); try assumption.
  rewrite Hr in Hrange. apply NewRange_inv in Hrange as [_ ->].
  simpl in Hn.
  assert (0 <= b0 / I) by (apply Z.div_pos; unfold is_u64 in *; lia).
  assert (0 <= k * I) by (apply Z.mul_nonneg_nonneg; lia).
  pose proof (Z.div_mod b0 I ltac:(lia)) as Hdm0.
  pose proof (Z.mod_pos_bound b0 I HIpos) as Hm0.
  set (lo := b0 / I * I + k * I) in *.
  assert (lo <= n) as Hlo.
  { destruct (Z.eqb_spec k 0) as [->|_]; subst lo; lia. }
  assert (n < lo + I) as Hhi.
  { rewrite MinOf_min in Hn.
    destruct (Z_lt_ge_dec (lo + I) two64) as [Hfit|Hwrap].
    - rewrite wrap64_small in Hn by (unfold is_u64 in *; lia). lia.
    - exfalso.
      assert (wrap64 (lo + I) = lo + I - two64) as Hw.
      { unfold wrap64. symmetry.
        apply (Z.mod_unique (lo + I) two64 1); [left|];
          unfold is_u64 in *; lia. }
      rewrite Hw in Hn. unfold is_u64 in *. lia. }
  unfold IndexForBlock. rewrite Hi, Hb.
  assert (n / I = b0 / I + k) as ->.
  { symmetry. apply (Z.div_unique n I (b0 / I + k) (n - lo)); subst lo; lia. }
  replace (b0 / I + k - b0 / I) with k by lia.
  rewrite (wrap64_small k) by mach_bounds.
  apply to_int_small. lia.
Qed.

Lemma IndexForBlock_inside_range_witness :
  IndexForBlock (mkSegmenter 10 5 75 8) 67 = 6.
Proof.
  apply (IndexForBlock_inside_range 10 5 75 (mkSegmenter 10 5 75 8) 6 67
           (mkRange 60 70));
    try mach_bounds; try (simpl; lia); reflexivity.
Defined.

(** The segments cover the blocks. For a Segmenter with a positive count
    (the number of segments fits Go's [int]) and [bN + I] within uint64,
    every block from the initial block up to the exclusive end has a valid
    index, and the range of that index holds the block. *)
Theorem Segmenter_covers_block (I b0 bN : Z) (s : Segmenter) (n : Z) :
  is_u64 I -> is_u64 b0 -> is_u64 bN -> bN + I < two64 ->
  NewSegmenter I b0 bN = Some s ->
  0 < Count s ->
  b0 <= n < bN ->
  0 <= IndexForBlock s n < Count s
  /\ exists r : Range,
       Segmenter_Range s (IndexForBlock s n) = Built r
       /\ StartBlock r <= n < ExclusiveEndBlock r.
Proof.
  intros HI Hb0 HbN Hov Hnew Hpos Hn.
  destruct (NewSegmenter_fields _ _ _ _ Hnew) as (Hne & Hi & Hb & He & Hc).
  assert (0 < I) as HIpos by (unfold is_u64 in HI; lia).
  destruct (Segmenter_Range_exact I b0 bN s 0)
    as (Hcount & Hsmall & _ & _); try assumption; try lia.
  assert (0 <= b0 / I) by (apply Z.div_pos; unfold is_u64 in *; lia).
  assert (b0 / I <= n / I) by (apply Z.div_le_mono; lia).
  assert (n / I <= bN / I) by (apply Z.div_le_mono; lia).
  assert (IndexForBlock s n = n / I - b0 / I) as Hidx.
  { unfold IndexForBlock. rewrite Hi, Hb.
    rewrite wrap64_small by mach_bounds. apply to_int_small. lia. }
  rewrite Hidx. split; [lia|].
  destruct (Segmenter_Range_exact I b0 bN s (n / I - b0 / I))
    as (_ & _ & Hbound & Hr); try assumption; try lia.
  pose proof (Z.div_mod n I ltac:(lia)) as Hdm.
  pose proof (Z.mod_pos_bound n I HIpos) as Hm.
  assert (b0 / I * I + (n / I - b0 / I) * I = n / I * I) as Hlo by lia.
  rewrite Hlo in *.
  rewrite wrap64_small, MinOf_min in Hr by (unfold is_u64 in *; lia).
  rewrite Hr, NewRange_Built by (destruct (Z.eqb_spec (n / I - b0 / I) 0); lia).
  eexists. split; [reflexivity|]. simpl.
  destruct (Z.eqb_spec (n / I - b0 / I) 0); lia.
Qed.

Lemma Segmenter_covers_block_witness :
  0 <= IndexForBlock (mkSegmenter 10 5 75 8) 67 < Count (mkSegmenter 10 5 75 8)
  /\ exists r : Range,
       Segmenter_Range (mkSegmenter 10 5 75 8)
         (IndexForBlock (mkSegmenter 10 5 75 8) 67) = Built r
       /\ StartBlock r <= 67 < ExclusiveEndBlock r.
Proof.
  apply (Segmenter_covers_block 10 5 75 (mkSegmenter 10 5 75 8) 67);
    try mach_bounds; try lia; reflexivity.
Defined.

(** The last segment. For a Segmenter whose initial block does not exceed
    its exclusive end, with [bN + I] within uint64 and a positive count:
    every segment before the last is a range that holds a block; the last
    is a range that ends at [bN] when [b0 < bN] and [bN] is not a multiple
    of the interval; when [bN] is a multiple of the interval, or
    [b0 = bN], the bounds that [Range] passes to [NewRange] for the last
    index are the empty [[bN, bN)], which is no Range: the count then
    includes an index whose segment holds no block. *)
Theorem Segmenter_last_range (I b0 bN : Z) (s : Segmenter) :
  is_u64 I -> is_u64 b0 -> is_u64 bN -> b0 <= bN -> bN + I < two64 ->
  NewSegmenter I b0 bN = Some s ->
  0 < Count s ->
  (forall k : Z, 0 <= k < Count s - 1 ->
     exists r : Range,
       Segmenter_Range s k = Built r
       /\ StartBlock r < ExclusiveEndBlock r)
  /\ (b0 < bN -> bN mod I <> 0 ->
      exists r : Range,
        Segmenter_Range s (Count s - 1) = Built r
        /\ StartBlock r < ExclusiveEndBlock r
        /\ ExclusiveEndBlock r = bN)
  /\ (bN mod I = 0 \/ b0 = bN ->
      Segmenter_Range s (Count s - 1) = Unbuilt bN bN).
Proof.
  intros HI Hb0 HbN Hle Hov Hnew Hpos.
  destruct (NewSegmenter_fields _ _ _ _ Hnew) as (Hne & Hi & Hb & He & Hc).
  assert (0 < I) as HIpos by (unfold is_u64 in HI; lia).
  assert (0 <= b0 / I) by (apply Z.div_pos; unfold is_u64 in *; lia).
  assert (0 <= b0 / I * I) by (apply Z.mul_nonneg_nonneg; lia).
  pose proof (Z.div_mod bN I ltac:(lia)) as HdmN.
  pose proof (Z.mod_pos_bound bN I HIpos) as HmN.
  pose proof (Z.div_mod b0 I ltac:(lia)) as Hdm0.
  pose proof (Z.mod_pos_bound b0 I HIpos) as Hm0.
  split; [|split].
  - intros k Hk.
    destruct (Segmenter_Range_Built I b0 bN s k) as [Hr Hlt];
      try assumption; try lia.
    eexists. split; [exact Hr|exact Hlt].
  - intros Hlt Hmod.
    destruct (Segmenter_Range_Built I b0 bN s (Count s - 1)) as [Hr Hlt'];
      try assumption; try lia.
    destruct (Segmenter_Range_exact I b0 bN s (Count s - 1))
      as (Hcount & _ & _ & _); try assumption; try lia.
    eexists. split; [exact Hr|]. split; [exact Hlt'|].
    cbn [ExclusiveEndBlock].
    assert (bN < b0 / I * I + (Count s - 1) * I + I) by nia.
    lia.
  - intros Hcase.
    destruct (Segmenter_Range_exact I b0 bN s (Count s - 1))
      as (Hcount & _ & Hbound & Hr); try assumption; try lia.
    assert (0 <= (Count s - 1) * I) by (apply Z.mul_nonneg_nonneg; lia).
    assert (bN < b0 / I * I + (Count s - 1) * I + I) by nia.
    rewrite Hr, wrap64_small, MinOf_min, Z.min_r
      by (unfold is_u64 in *; lia).
    assert ((if Count s - 1 =? 0 then b0 else b0 / I * I + (Count s - 1) * I)
            = bN) as ->.
    { destruct (Z.eqb_spec (Count s - 1) 0) as [Hz|Hnz].
      - destruct Hcase as [Hmod|Heq]; [nia|exact Heq].
      - destruct Hcase as [Hmod|Heq]; [nia|].
        exfalso. rewrite <- Heq in Hcount. lia. }
    apply NewRange_Unbuilt. lia.
Qed.

Lemma Segmenter_last_range_witness :
  (forall k : Z, 0 <= k < Count (mkSegmenter 10 5 70 8) - 1 ->
     exists r : Range,
       Segmenter_Range (mkSegmenter 10 5 70 8) k = Built r
       /\ StartBlock r < ExclusiveEndBlock r)
  /\ (5 < 70 -> 70 mod 10 <> 0 ->
      exists r : Range,
        Segmenter_Range (mkSegmenter 10 5 70 8)
          (Count (mkSegmenter 10 5 70 8) - 1) = Built r
        /\ StartBlock r < ExclusiveEndBlock r
        /\ ExclusiveEndBlock r = 70)
  /\ (70 mod 10 = 0 \/ 5 = 70 ->
      Segmenter_Range (mkSegmenter 10 5 70 8)
        (Count (mkSegmenter 10 5 70 8) - 1) = Unbuilt 70 70).
Proof.
  apply (Segmenter_last_range 10 5 70 (mkSegmenter 10 5 70 8));
    try mach_bounds; try lia; reflexivity.
Defined.

End SegmenterTiling.

(** ** The bytes meter over a sequence of calls *)

Section BytesMeterRuns.
Import Mach Tracking TrackingRuns.

Lemma wrap64_add_l (a b : Z) : wrap64 (wrap64 a + b) = wrap64 (a + b).
Proof. unfold wrap64. apply Zplus_mod_idemp_l. Qed.

Lemma wrap64_add_to_u64 (a n : Z) : wrap64 (a + to_u64 n) = wrap64 (a + n).
Proof. unfold to_u64, wrap64. apply Zplus_mod_idemp_r. Qed.

(** Reported written byte counts add up: a run over non-negative counts
    never panics, leaves [BytesRead()] alone and adds their sum to
    [BytesWritten()] modulo 2^64, the counters staying uint64; a run with a
    negative count panics. *)
Theorem addAllBytesWritten_sum (b : bytesMeter) (ns : list Z) :
  meter_ok b ->
  (Forall (fun n => 0 <= n) ns ->
   exists b', addAllBytesWritten b ns = Returned b'
     /\ BytesWritten b' = wrap64 (BytesWritten b + total ns)
     /\ BytesRead b' = BytesRead b
     /\ meter_ok b')
  /\ (Exists (fun n => n < 0) ns ->
      exists msg, addAllBytesWritten b ns = Panicked msg).
Proof.
  revert b. induction ns as [|n ns IH]; intros b Hok.
  - split.
    + intros _. exists b. destruct Hok as [Hw Hr]. simpl.
      unfold BytesWritten. rewrite Z.add_0_r, wrap64_small by exact Hw.
      split; [reflexivity|]. split; [reflexivity|]. split; [reflexivity|].
      split; assumption.
    + intros Hex. apply Exists_nil in Hex. contradiction.
  - assert (0 <= n -> meter_ok
              (mkBytesMeter (wrap64 (bytesWritten b + to_u64 n)) (bytesRead b)))
      as Hok'.
    { intros _. destruct Hok as [_ Hr]. split; [apply wrap64_range|exact Hr]. }
    simpl. unfold AddBytesWritten.
    destruct (Z.ltb_spec n 0) as [Hneg|Hpos].
    + split.
      * intros Hall. apply Forall_cons in Hall as [Hn _]. lia.
      * intros _. eexists. reflexivity.
    + destruct (IH _ (Hok' Hpos)) as [IHok IHpanic]. split.
      * intros Hall. apply Forall_cons in Hall as [_ Hall].
        destruct (IHok Hall) as (b' & Hrun & Hw & Hr & Hm).
        exists b'. split; [exact Hrun|]. split; [|split; assumption].
        rewrite Hw. unfold BytesWritten. simpl.
        rewrite wrap64_add_to_u64, wrap64_add_l. f_equal. lia.
      * intros Hex. apply Exists_cons in Hex as [Hn|Hex]; [lia|].
        apply IHpanic. exact Hex.
Qed.

Lemma addAllBytesWritten_sum_witness :
  (Forall (fun n => 0 <= n) [3; 0; 4] ->
   exists b', addAllBytesWritten (mkBytesMeter 10 10) [3; 0; 4] = Returned b'
     /\ BytesWritten b'
        = wrap64 (BytesWritten (mkBytesMeter 10 10) + total [3; 0; 4])
     /\ BytesRead b' = BytesRead (mkBytesMeter 10 10)
     /\ meter_ok b')
  /\ (Exists (fun n => n < 0) [3; 0; 4] ->
      exists msg,
        addAllBytesWritten (mkBytesMeter 10 10) [3; 0; 4] = Panicked msg).
Proof.
  apply (addAllBytesWritten_sum (mkBytesMeter 10 10) [3; 0; 4]).
  split; simpl; mach_bounds.
Defined.

(** Reported read byte counts add up as signed numbers modulo 2^64: a run
    never panics, leaves [BytesWritten()] alone, and a negative count takes
    back what an equal positive count added. *)
Theorem addAllBytesRead_sum (b : bytesMeter) (ns : list Z) :
  meter_ok b ->
  exists b', addAllBytesRead b ns = Returned b'
    /\ BytesRead b' = wrap64 (BytesRead b + total ns)
    /\ BytesWritten b' = BytesWritten b
    /\ meter_ok b'
    /\ (total ns = 0 -> b' = b).
Proof.
  revert b. induction ns as [|n ns IH]; intros b Hok.
  - exists b. destruct Hok as [Hw Hr]. simpl.
    unfold BytesRead. rewrite Z.add_0_r, wrap64_small by exact Hr.
    split; [reflexivity|]. split; [reflexivity|]. split; [reflexivity|].
    split; [split; assumption|reflexivity].
  - simpl.
    assert (meter_ok
              (mkBytesMeter (bytesWritten b) (wrap64 (bytesRead b + to_u64 n))))
      as Hok'.
    { destruct Hok as [Hw _]. split; [exact Hw|apply wrap64_range]. }
    destruct (IH _ Hok') as (b' & Hrun & Hr & Hw & Hm & _).
    exists b'. split; [exact Hrun|].
    assert (BytesRead b' = wrap64 (BytesRead b + (n + total ns))) as Hsum.
    { rewrite Hr. unfold BytesRead. simpl.
      rewrite wrap64_add_to_u64, wrap64_add_l. f_equal. lia. }
    split; [exact Hsum|]. split; [exact Hw|]. split; [exact Hm|].
    intros Hzero. rewrite Hzero, Z.add_0_r in Hsum.
    destruct Hok as [_ Hrb]. unfold BytesRead, BytesWritten in *.
    rewrite wrap64_small in Hsum by exact Hrb. simpl in Hw.
    destruct b', b. simpl in *. congruence.
Qed.

Lemma addAllBytesRead_sum_witness :
  exists b', addAllBytesRead (mkBytesMeter 10 10) [7; -7] = Returned b'
    /\ BytesRead b'
       = wrap64 (BytesRead (mkBytesMeter 10 10) + total [7; -7])
    /\ BytesWritten b' = BytesWritten (mkBytesMeter 10 10)
    /\ meter_ok b'
    /\ (total [7; -7] = 0 -> b' = mkBytesMeter 10 10).
Proof.
  apply (addAllBytesRead_sum (mkBytesMeter 10 10) [7; -7]).
  split; simpl; mach_bounds.
Defined.

End BytesMeterRuns.

(** ** The squasher over sequences of calls *)

Section SquashSequences.
Import Block Orchestrator OrchestratorSpec SquashRuns.

Context (E : Env).

Lemma set_ranges_same (s : Squashable) : set_ranges s (ranges s) = s.
Proof. destruct s; reflexivity. Qed.

Lemma cumulateLoop_set_ranges (brs : list Range) :
  forall (s s' : Squashable) (res : option SquashError),
    cumulateLoop brs s = (res, s') -> s' = set_ranges s (ranges s').
Proof.
  induction brs as [|br rest IH]; intros s s' res Hrun; simpl in Hrun.
  - injection Hrun as <- <-. symmetry. apply set_ranges_same.
  - destruct (StartBlock br <? ModuleInitialBlock (builder s)).
    + injection Hrun as <- <-. symmetry. apply set_ranges_same.
    + apply IH in Hrun. rewrite Hrun at 1.
      unfold cumulateBoundedRange. destruct (_ <=? _); reflexivity.
Qed.

Lemma Runs_app (notifier : bool) (s s1 s2 : Squashable)
    (l1 l2 : list Event) :
  Runs notifier s l1 s1 -> Runs notifier s1 l2 s2 ->
  Runs notifier s (l1 ++ l2) s2.
Proof.
  induction 1 as [s|s evs out sa evs' sb Hm Hr IH|s rs evs sb Hr IH];
    intros H2.
  - exact H2.
  - rewrite <- app_assoc. eapply runs_merge; [exact Hm|]. auto.
  - eapply runs_pending. auto.
Qed.

Lemma mergeEach_Runs (notifier : bool) (brs : list Range) :
  forall (s : Squashable) (w w' : World E) (out : Outcome) (s' : Squashable)
         (evs : list Event),
    mergeEach E notifier brs s w = (out, s', w', evs) ->
    Runs notifier s evs s'.
Proof.
  induction brs as [|br rest IH]; intros s w w' out s' evs Hrun;
    simpl in Hrun.
  - injection Hrun as <- <- <- <-. apply runs_done.
  - unfold bind in Hrun.
    destruct (mergeAvailablePartials E notifier s w)
      as [[[o1 s1] w1] l1] eqn:H1.
    apply mergeLoop_run in H1.
    destruct o1.
    + destruct (mergeEach E notifier rest s1 w1) as [[[o2 s2] w2] l2] eqn:H2.
      injection Hrun as <- <- <- <-. apply IH in H2.
      eapply runs_merge; eassumption.
    + injection Hrun as <- <- <- <-.
      eapply runs_merge; [exact H1|apply runs_done].
    + injection Hrun as <- <- <- <-.
      eapply runs_merge; [exact H1|apply runs_done].
Qed.

Lemma squash_Runs (notifier : bool) (s : Squashable) (r : Range)
    (w w' : World E) (out : Outcome) (s' : Squashable) (evs : list Event) :
  squash E notifier s r w = (out, s', w', evs) -> Runs notifier s evs s'.
Proof.
  unfold squash. intros Hrun.
  destruct (cumulateLoop (rangeSplit E r (storeSaveInterval s)) s)
    as [res s1] eqn:Hc.
  apply cumulateLoop_set_ranges in Hc.
  apply (runs_pending notifier s (ranges s1)). rewrite <- Hc.
  destruct res as [err|].
  - injection Hrun as <- <- <- <-. apply runs_done.
  - eapply mergeEach_Runs. exact Hrun.
Qed.

(** Every sequence of [squash] calls is a sequence of runs. *)
Lemma squashAll_Runs (notifier : bool) (calls : list Range) :
  forall (s : Squashable) (w : World E),
    Runs notifier s (run_events (squashAll E notifier calls s w))
      (run_state (squashAll E notifier calls s w)).
Proof.
  induction calls as [|r rest IH]; intros s w; simpl.
  - apply runs_done.
  - unfold bind, ret.
    destruct (squash E notifier s r w) as [[[o1 s1] w1] l1] eqn:H1.
    simpl. specialize (IH s1 w1).
    destruct (squashAll E notifier rest s1 w1) as [[[o2 s2] w2] l2].
    unfold run_events, run_state in *. simpl in *.
    rewrite app_nil_r. apply squash_Runs in H1.
    eapply Runs_app; eassumption.
Qed.

Lemma set_ranges_config (s : Squashable) (rs : list Range) :
  same_config s (set_ranges s rs).
Proof. unfold same_config. simpl. auto. Qed.

Lemma Runs_config (notifier : bool) (s : Squashable) (evs : list Event)
    (s' : Squashable) :
  Runs notifier s evs s' -> same_config s s'.
Proof.
  induction 1 as [s|s evs out sa evs' sb Hm Hr IH|s rs evs sb Hr IH].
  - apply same_config_refl.
  - eapply same_config_trans; [eapply MergeRun_config; exact Hm|exact IH].
  - eapply same_config_trans; [apply set_ranges_config|exact IH].
Qed.

Lemma disciplined_config (notifier : bool) (s s1 : Squashable) (ev : Event) :
  same_config s s1 -> disciplined notifier s1 ev -> disciplined notifier s ev.
Proof.
  intros (_ & Hb & Hi & Ht). destruct ev; simpl; rewrite ?Hb, ?Hi, ?Ht; auto.
Qed.

Lemma MergeRun_disciplined (notifier : bool) (rs : list Range)
    (s : Squashable) (evs : list Event) (out : Outcome) (s' : Squashable) :
  MergeRun notifier rs s evs out s' -> Forall (disciplined notifier s) evs.
Proof.
  induction 1 as [| | | | | | r rest s Hnext Hnz Hmod
                 | r rest s ok evs out s' Hnext Hnz Hrun IH];
    try (repeat constructor; simpl; auto; fail).
  do 2 (constructor; [exact I|]).
  constructor.
  { unfold persist_event.
    destruct (Z.eqb_spec (ExclusiveEndBlock r mod storeSaveInterval s) 0);
      simpl; auto. }
  apply Forall_app. split.
  - unfold notify_events.
    destruct (Z.eqb_spec (ExclusiveEndBlock r) (targetExclusiveBlock s));
      destruct notifier; simpl; repeat constructor; simpl; auto.
  - eapply Forall_impl; [exact IH|]. intros ev.
    apply disciplined_config. apply after_merge_config.
Qed.

Lemma Runs_disciplined (notifier : bool) (s : Squashable) (evs : list Event)
    (s' : Squashable) :
  Runs notifier s evs s' -> Forall (disciplined notifier s) evs.
Proof.
  induction 1 as [s|s evs out sa evs' sb Hm Hr IH|s rs evs sb Hr IH].
  - constructor.
  - apply Forall_app. split; [eapply MergeRun_disciplined; exact Hm|].
    eapply Forall_impl; [exact IH|]. intros ev.
    apply disciplined_config. eapply MergeRun_config. exact Hm.
  - eapply Forall_impl; [exact IH|]. intros ev.
    apply disciplined_config. apply set_ranges_config.
Qed.

(** Over any sequence of [squash] calls, [WriteState] is called only with a
    multiple of the save interval (a complete snapshot is written on
    segment boundaries only), [DeletePartialFile] only with a block that is
    not one, and [Notify] only with the store's name and the target block,
    and only when a notifier is set. *)
Theorem squashAll_call_discipline (notifier : bool) (calls : list Range)
    (s : Squashable) (w : World E) :
  let evs := run_events (squashAll E notifier calls s w) in
  (forall e ok, EvWriteState e ok ∈ evs ->
     storeSaveInterval s <> 0 /\ e mod storeSaveInterval s = 0)
  /\ (forall e ok, EvDeletePartialFile e ok ∈ evs ->
        storeSaveInterval s <> 0 /\ e mod storeSaveInterval s <> 0)
  /\ (forall n e, EvNotify n e ∈ evs ->
        n = Name (builder s) /\ e = targetExclusiveBlock s
        /\ notifier = true).
Proof.
  intros evs. subst evs.
  pose proof (Runs_disciplined _ _ _ _ (squashAll_Runs notifier calls s w))
    as Hall.
  rewrite Forall_forall in Hall.
  repeat split; intros; match goal with
                        | H : _ ∈ _ |- _ => apply Hall in H; simpl in H; tauto
                        end.
Qed.

(** *** Reaching the target *)

Lemma notified_app (l1 l2 : list Event) :
  notified (l1 ++ l2) = notified l1 ++ notified l2.
Proof.
  induction l1 as [|[r ok|r ok|e ok|e ok|n e] l1 IH]; simpl;
    rewrite ?IH; reflexivity.
Qed.

Lemma notified_elem (evs : list Event) (e : Z) :
  e ∈ notified evs <-> exists n, EvNotify n e ∈ evs.
Proof.
  induction evs as [|ev evs IH]; simpl.
  - split; [intros H; apply elem_of_nil in H; contradiction|].
    intros [n H]. apply elem_of_nil in H. contradiction.
  - destruct ev as [r ok|r ok|e' ok|e' ok|n' e']; simpl;
      rewrite ?elem_of_cons, IH; split;
      try (intros [n H]; exists n; apply elem_of_cons; auto; fail);
      try (intros [n H]; apply elem_of_cons in H as [H|H];
           [discriminate|eauto]; fail).
    + intros [->|[n H]]; [exists n'; apply elem_of_cons; auto|].
      exists n. apply elem_of_cons. auto.
    + intros [n H]. apply elem_of_cons in H as [H|H]; [|eauto].
      injection H as _ ->. auto.
Qed.

Lemma notified_step (notifier : bool) (s : Squashable) (r : Range) (ok : bool)
    (evs : list Event) :
  notified ([EvLoadFrom r true; EvMerge r true;
             persist_event s (ExclusiveEndBlock r) ok]
            ++ notify_events notifier s (ExclusiveEndBlock r) ++ evs)
  = (if (ExclusiveEndBlock r =? targetExclusiveBlock s) && notifier
     then [ExclusiveEndBlock r] else [])
    ++ notified evs.
Proof.
  simpl. unfold persist_event, notify_events.
  destruct (_ mod _ =? 0); destruct (_ && _); reflexivity.
Qed.

Lemma merged_ending_at_app (t : Z) (l1 l2 : list Event) :
  merged_ending_at t (l1 ++ l2)
  = merged_ending_at t l1 ++ merged_ending_at t l2.
Proof. unfold merged_ending_at. rewrite merged_app. apply filter_app. Qed.

Lemma merged_ending_at_elem (t : Z) (evs : list Event) (r : Range) :
  r ∈ merged_ending_at t evs <-> r ∈ merged evs /\ ExclusiveEndBlock r = t.
Proof.
  unfold merged_ending_at. rewrite list_elem_of_filter. tauto.
Qed.

Lemma after_merge_targetReached (s : Squashable) (r : Range) :
  targetReached (after_merge s r)
  = (ExclusiveEndBlock r =? targetExclusiveBlock s) || targetReached s.
Proof.
  unfold after_merge. destruct (_ =? _); reflexivity.
Qed.

(** What one run of the loop does to the target flag and to the notifier:
    the flag is never reset; it is set only by a merged range that ends at
    the target; a notification sets it; and there are no more notifications
    than merged ranges that end at the target. *)
Lemma MergeRun_target (notifier : bool) (rs : list Range) (s : Squashable)
    (evs : list Event) (out : Outcome) (s' : Squashable) :
  MergeRun notifier rs s evs out s' ->
  (targetReached s' = true ->
   targetReached s = true
   \/ exists r, r ∈ merged_ending_at (targetExclusiveBlock s) evs)
  /\ (notified evs <> [] -> targetReached s' = true)
  /\ (length (notified evs)
      <= length (merged_ending_at (targetExclusiveBlock s) evs))%nat.
Proof.
  induction 1 as [| | | | | | | r rest s ok evs out s' Hnext Hnz Hrun IH];
    try (simpl; repeat split; auto; try congruence; lia).
  destruct IH as (Honly & Hnot & Hcount).
  destruct (after_merge_config s r) as (_ & _ & _ & Ht).
  rewrite Ht in *.
  rewrite notified_step.
  unfold merged_ending_at in *. rewrite merged_step.
  rewrite filter_cons.
  rewrite after_merge_targetReached in Honly.
  pose proof (MergeRun_targetReached _ _ _ _ _ _ Hrun) as Hmono.
  rewrite after_merge_targetReached in Hmono.
  destruct (Z.eqb_spec (ExclusiveEndBlock r) (targetExclusiveBlock s))
    as [Heq|Hne].
  - destruct (decide (ExclusiveEndBlock r = targetExclusiveBlock s));
      [|contradiction].
    split; [|split].
    + intros _. right. exists r. apply elem_of_cons. auto.
    + intros _. apply Hmono. reflexivity.
    + destruct notifier; simpl; lia.
  - destruct (decide (ExclusiveEndBlock r = targetExclusiveBlock s));
      [contradiction|].
    simpl. split; [|split].
    + intros Hs'. destruct (Honly Hs') as [H|H]; auto.
    + exact Hnot.
    + exact Hcount.
Qed.

Lemma Runs_target (notifier : bool) (s : Squashable) (evs : list Event)
    (s' : Squashable) :
  Runs notifier s evs s' ->
  (targetReached s = true -> targetReached s' = true)
  /\ (targetReached s' = true ->
      targetReached s = true
      \/ exists r, r ∈ merged_ending_at (targetExclusiveBlock s) evs)
  /\ (notified evs <> [] -> targetReached s' = true)
  /\ (length (notified evs)
      <= length (merged_ending_at (targetExclusiveBlock s) evs))%nat.
Proof.
  induction 1 as [s|s evs out sa evs' sb Hm Hr IH|s rs evs sb Hr IH].
  - simpl. repeat split; auto; congruence.
  - destruct IH as (Hmono & Honly & Hnot & Hcount).
    destruct (MergeRun_target _ _ _ _ _ _ Hm) as (Honly1 & Hnot1 & Hcount1).
    pose proof (MergeRun_targetReached _ _ _ _ _ _ Hm) as Hmono1.
    destruct (MergeRun_config _ _ _ _ _ _ Hm) as (_ & _ & _ & Ht).
    rewrite Ht in *.
    rewrite notified_app, merged_ending_at_app, !length_app.
    split; [auto|]. split; [|split].
    + intros Hs'. destruct (Honly Hs') as [H|[r H]].
      * destruct (Honly1 H) as [H1|[r H1]]; auto.
        right. exists r. apply elem_of_app. auto.
      * right. exists r. apply elem_of_app. auto.
    + intros Hne. destruct (notified evs') as [|e l] eqn:Hn'.
      * rewrite app_nil_r in Hne. auto.
      * apply Hnot. discriminate.
    + lia.
  - simpl in IH. exact IH.
Qed.

(** Over any sequence of [squash] calls, the target flag is never reset; it
    is set only when a range that ends exactly at the target block was
    merged; and whenever the notifier was called, the flag is set on
    return. *)
Theorem squashAll_target_flag (notifier : bool) (calls : list Range)
    (s : Squashable) (w : World E) :
  let res := squashAll E notifier calls s w in
  (targetReached s = true -> targetReached (run_state res) = true)
  /\ (targetReached (run_state res) = true ->
      targetReached s = true
      \/ exists r, r ∈ merged (run_events res)
           /\ ExclusiveEndBlock r = targetExclusiveBlock s)
  /\ (forall n e, EvNotify n e ∈ run_events res ->
        targetReached (run_state res) = true).
Proof.
  intros res. subst res.
  destruct (Runs_target _ _ _ _ (squashAll_Runs notifier calls s w))
    as (Hmono & Honly & Hnot & _).
  split; [exact Hmono|]. split.
  - intros Hs'. destruct (Honly Hs') as [H|[r H]]; [auto|].
    right. exists r. apply merged_ending_at_elem. exact H.
  - intros n e Hin. apply Hnot.
    assert (e ∈ notified (run_events (squashAll E notifier calls s w))) as He
      by (apply notified_elem; eauto).
    intros Hnil. rewrite Hnil in He. apply elem_of_nil in He. exact He.
Qed.

(** Contiguous non-empty ranges end at pairwise different blocks: at most
    one of them ends at a given block. *)
Lemma chain_ends_after (ms : list Range) :
  forall (a b : Z),
    Forall wfRange ms -> chain a ms b ->
    Forall (fun r => a < ExclusiveEndBlock r) ms.
Proof.
  induction ms as [|r ms IH]; simpl; intros a b Hwf Hch; [constructor|].
  apply Forall_cons in Hwf as [Hr Hwf]. destruct Hch as [Hs Hch].
  unfold wfRange in Hr. constructor; [lia|].
  eapply Forall_impl; [eapply IH; eassumption|]. simpl. intros x Hx. lia.
Qed.

Lemma chain_one_end (ms : list Range) :
  forall (a b t : Z),
    Forall wfRange ms -> chain a ms b ->
    (length (filter (fun r => ExclusiveEndBlock r = t) ms) <= 1)%nat.
Proof.
  induction ms as [|r ms IH]; simpl; intros a b t Hwf Hch; [lia|].
  pose proof Hwf as Hwf0.
  apply Forall_cons in Hwf as [Hr Hwf]. destruct Hch as [Hs Hch].
  rewrite filter_cons.
  destruct (decide (ExclusiveEndBlock r = t)) as [Heq|Hne].
  - pose proof (chain_ends_after ms _ _ Hwf Hch) as Hafter.
    assert (filter (fun r0 => ExclusiveEndBlock r0 = t) ms = []) as ->.
    { clear -Hafter Heq. induction Hafter as [|x l Hx _ IHl]; [reflexivity|].
      rewrite filter_cons.
      destruct (decide (ExclusiveEndBlock x = t)); [lia|exact IHl]. }
    simpl. lia.
  - eapply IH; eassumption.
Qed.

(** Over any sequence of [squash] calls whose sub-ranges are non-empty, the
    notifier is called at most once. *)
Theorem squashAll_notifies_once (notifier : bool) (calls : list Range)
    (s : Squashable) (w : World E) :
  Forall wfRange (ranges s) ->
  Forall (fun r => Forall wfRange (rangeSplit E r (storeSaveInterval s)))
    calls ->
  (length (notified (run_events (squashAll E notifier calls s w))) <= 1)%nat.
Proof.
  intros Hwf Hcalls.
  destruct (Runs_target _ _ _ _ (squashAll_Runs notifier calls s w))
    as (_ & _ & _ & Hcount).
  destruct (squashAll E notifier calls s w) as [[[outs s'] w'] evs] eqn:Hrun.
  unfold run_events, run_state in *. simpl in *.
  apply (squashAll_facts E notifier wfRange) in Hrun
    as (_ & Hch & _ & Hwt & _); [|exact Hwf|].
  - assert (Forall wfRange (merged evs)) as Hwm.
    { apply Forall_forall. intros x Hx. rewrite Forall_forall in Hwt.
      apply Hwt. apply merged_touched. exact Hx. }
    pose proof (chain_one_end _ _ _ (targetExclusiveBlock s) Hwm Hch) as Hone.
    unfold merged_ending_at in Hcount. lia.
  - eapply Forall_impl; [exact Hcalls|]. simpl.
    intros r Hr x Hx _ _. rewrite Forall_forall in Hr. auto.
Qed.

(** *** How the loop is left *)

Lemma last_app_Some {A : Type} (l1 l2 : list A) (x : A) :
  last l2 = Some x -> last (l1 ++ l2) = Some x.
Proof. intros H. rewrite last_app, H. reflexivity. Qed.

Lemma MergeRun_exit (notifier : bool) (rs : list Range) (s : Squashable)
    (evs : list Event) (out : Outcome) (s' : Squashable) :
  MergeRun notifier rs s evs out s' -> exit_state s out evs s'.
Proof.
  induction 1 as [| | | | | | | r rest s ok evs out s' Hnext Hnz Hrun IH];
    simpl; eauto 10.
  destruct (after_merge_config s r) as (Hn & _ & Hi & _).
  assert (forall x, last evs = Some x ->
            last ([EvLoadFrom r true; EvMerge r true;
                   persist_event s (ExclusiveEndBlock r) ok]
                  ++ notify_events notifier s (ExclusiveEndBlock r) ++ evs)
            = Some x) as Hlast.
  { intros x Hx. apply last_app_Some. apply last_app_Some. exact Hx. }
  destruct out as [|[]|]; simpl in *; rewrite ?Hn, ?Hi in IH; auto.
  - destruct IH as (Hname & r0 & rest0 & H1 & H2 & H3). eauto 10.
  - destruct IH as (r0 & rest0 & H1 & H2 & H3). eauto 10.
  - destruct IH as (Hz & r0 & rest0 & H1 & H2 & H3 & H4). eauto 10.
  - destruct IH as (Hz & r0 & rest0 & H1 & H2 & H3). eauto 10.
Qed.

(** How [mergeAvailablePartials] leaves the Squashable. When it returns
    without error, nothing is pending or the first pending range does not
    start at the expected block: everything that could be merged was. When
    loading or merging fails, the failing range is still first in the
    pending list and still expected. When [WriteState] fails, or the modulo
    by a zero interval panics, the range was merged, is still first in the
    pending list, and the expected block has moved to its end. *)
Theorem mergeAvailablePartials_exit (notifier : bool) (s : Squashable)
    (w : World E) :
  let res := mergeAvailablePartials E notifier s w in
  exit_state s (run_outcome res) (run_events res) (run_state res)
  /\ ((exists err, run_outcome res = Failed err) ->
      exists err, run_outcome res = Failed err
        /\ (err = ErrContext \/ err = ErrInitializingPartial (name s)
            \/ err = ErrMerging \/ err = ErrWritingState)).
Proof.
  intros res. subst res.
  destruct (mergeAvailablePartials E notifier s w) as [[[out s'] w'] evs]
    eqn:Hrun.
  unfold run_outcome, run_events, run_state. simpl.
  apply mergeLoop_run in Hrun. apply MergeRun_exit in Hrun.
  split; [exact Hrun|].
  intros [err ->]. exists err. split; [reflexivity|].
  destruct err; simpl in Hrun; try contradiction; auto.
  destruct Hrun as [-> _]. auto.
Qed.

(** *** A Squashable that can merge nothing any more *)

Lemma range_le_start (a b : Range) :
  range_le a b -> StartBlock a <= StartBlock b.
Proof.
  unfold range_le, range_leb. intros H.
  apply orb_true_iff in H as [H|H]; [apply Z.ltb_lt in H; lia|].
  apply andb_true_iff in H as [H _]. apply Z.eqb_eq in H. lia.
Qed.

Lemma wedged_head (s : Squashable) :
  wedged s ->
  exists r rest,
    ranges s = r :: rest /\ nextExpectedStartBlock s <> StartBlock r.
Proof.
  intros (Hsort & x & Hx & Hlt).
  destruct (ranges s) as [|r rest]; [apply elem_of_nil in Hx; contradiction|].
  exists r, rest. split; [reflexivity|].
  apply StronglySorted_inv in Hsort as [_ Hall].
  apply elem_of_cons in Hx as [->|Hx]; [lia|].
  rewrite Forall_forall in Hall. apply Hall in Hx.
  apply range_le_start in Hx. lia.
Qed.

Lemma wedged_mergeEach (notifier : bool) (brs : list Range) :
  forall (s : Squashable) (w : World E),
    wedged s ->
    run_events (mergeEach E notifier brs s w) = []
    /\ run_state (mergeEach E notifier brs s w) = s.
Proof.
  induction brs as [|br rest IH]; intros s w Hw; [split; reflexivity|].
  destruct (wedged_head s Hw) as (r & tl & Hr & Hne).
  pose proof (mergeAvailablePartials_stalls E notifier s w r tl Hr Hne)
    as Hstall.
  cbn [mergeEach]. unfold bind.
  destruct (mergeAvailablePartials E notifier s w) as [[[o1 s1] w1] l1].
  unfold run_events, run_state in Hstall. simpl in Hstall.
  destruct Hstall as [-> ->].
  destruct o1.
  - specialize (IH s w1 Hw).
    destruct (mergeEach E notifier rest s w1) as [[[o2 s2] w2] l2].
    exact IH.
  - split; reflexivity.
  - split; reflexivity.
Qed.

Lemma wedged_squash (notifier : bool) (s : Squashable) (r : Range)
    (w : World E) :
  wedged s ->
  run_events (squash E notifier s r w) = []
  /\ wedged (run_state (squash E notifier s r w))
  /\ nextExpectedStartBlock (run_state (squash E notifier s r w))
     = nextExpectedStartBlock s
  /\ targetReached (run_state (squash E notifier s r w)) = targetReached s
  /\ (forall x, x ∈ ranges s ->
        x ∈ ranges (run_state (squash E notifier s r w))).
Proof.
  intros Hw. unfold squash.
  destruct (cumulateLoop (rangeSplit E r (storeSaveInterval s)) s)
    as [res s1] eqn:Hc.
  apply cumulateLoop_frame in Hc as (_ & Hn & Ht & _ & Hkeep & Hsort).
  assert (wedged s1) as Hw1.
  { destruct Hw as (Hs & x & Hx & Hlt). split; [auto|].
    exists x. split; [auto|]. rewrite Hn. exact Hlt. }
  destruct res as [err|].
  - unfold run_events, run_state. simpl. auto.
  - destruct (wedged_mergeEach notifier
                (rangeSplit E r (storeSaveInterval s)) s1 w Hw1) as [-> ->].
    auto.
Qed.

Lemma wedged_squashAll (notifier : bool) (calls : list Range) :
  forall (s : Squashable) (w : World E),
    wedged s ->
    run_events (squashAll E notifier calls s w) = []
    /\ nextExpectedStartBlock (run_state (squashAll E notifier calls s w))
       = nextExpectedStartBlock s
    /\ targetReached (run_state (squashAll E notifier calls s w))
       = targetReached s
    /\ (forall x, x ∈ ranges s ->
          x ∈ ranges (run_state (squashAll E notifier calls s w))).
Proof.
  induction calls as [|r rest IH]; intros s w Hw.
  - unfold run_events, run_state. simpl. auto.
  - destruct (wedged_squash notifier s r w Hw) as (He & Hw1 & Hn & Ht & Hk).
    cbn [squashAll]. unfold bind, ret.
    destruct (squash E notifier s r w) as [[[o1 s1] w1] l1].
    unfold run_events, run_state in He, Hw1, Hn, Ht, Hk. simpl in *.
    subst l1.
    destruct (IH s1 w1 Hw1) as (He2 & Hn2 & Ht2 & Hk2).
    destruct (squashAll E notifier rest s1 w1) as [[[o2 s2] w2] l2].
    unfold run_events, run_state in *. simpl in *.
    subst l2. repeat split; try congruence; auto.
Qed.

Lemma mergeEach_wedges (notifier : bool) (brs : list Range) :
  forall (s : Squashable) (w w' : World E) (out : Outcome) (s' : Squashable)
         (evs : list Event),
    mergeEach E notifier brs s w = (out, s', w', evs) ->
    StronglySorted range_le (ranges s) ->
    Forall wfRange (ranges s) ->
    out = Panicked
    \/ (exists br, out = Failed (ErrSquashingRange br ErrWritingState)) ->
    wedged s'.
Proof.
  induction brs as [|br rest IH]; intros s w w' out s' evs Hrun Hsort Hwf Hout;
    simpl in Hrun.
  - injection Hrun as <- <- <- <-.
    destruct Hout as [H|[b H]]; discriminate.
  - unfold bind in Hrun.
    destruct (mergeAvailablePartials E notifier s w)
      as [[[o1 s1] w1] l1] eqn:H1.
    apply mergeLoop_run in H1.
    pose proof (MergeRun_suffix _ _ _ _ _ _ H1) as Hsuf.
    pose proof (MergeRun_exit _ _ _ _ _ _ H1) as Hexit.
    assert (StronglySorted range_le (ranges s1)) as Hsort1
      by (eapply StronglySorted_suffix; eassumption).
    assert (Forall wfRange (ranges s1)) as Hwf1.
    { destruct Hsuf as [k Hk]. rewrite Hk in Hwf.
      apply Forall_app in Hwf as [_ Hwf]. exact Hwf. }
    assert (forall r tl, ranges s1 = r :: tl ->
              nextExpectedStartBlock s1 = ExclusiveEndBlock r -> wedged s1)
      as Hwedge.
    { intros r tl Hr Hn. split; [exact Hsort1|].
      exists r. rewrite Hr in *. split; [apply elem_of_cons; auto|].
      apply Forall_cons in Hwf1 as [Hr0 _]. unfold wfRange in Hr0. lia. }
    destruct o1.
    + destruct (mergeEach E notifier rest s1 w1) as [[[o2 s2] w2] l2] eqn:H2.
      injection Hrun as <- <- <- <-. eapply IH; eassumption.
    + injection Hrun as <- <- <- <-.
      destruct Hout as [H|[b H]]; [discriminate|].
      injection H as _ ->. simpl in Hexit.
      destruct Hexit as (_ & r0 & tl & Hr & Hn & _). eauto.
    + injection Hrun as <- <- <- <-. simpl in Hexit.
      destruct Hexit as (_ & r0 & tl & Hr & Hn & _). eauto.
Qed.

Lemma cumulateLoop_error (brs : list Range) :
  forall (s s' : Squashable) (err : SquashError),
    cumulateLoop brs s = (Some err, s') ->
    exists start,
      err = ErrStartBeforeInitial (name s) start
              (ModuleInitialBlock (builder s))
      /\ start < ModuleInitialBlock (builder s).
Proof.
  induction brs as [|br rest IH]; intros s s' err Hrun; simpl in Hrun;
    [discriminate|].
  destruct (Z.ltb_spec (StartBlock br) (ModuleInitialBlock (builder s))).
  - injection Hrun as <- <-. eauto.
  - apply IH in Hrun as (start & -> & Hlt).
    destruct (cumulateBoundedRange_frame s br) as ((Hn & Hb & _) & _).
    rewrite Hn, Hb in *. eauto.
Qed.

(** Once [squash] has failed on [WriteState] (or panicked on a zero
    interval) with non-empty ranges pending, the Squashable is stuck: the
    range that was merged but not persisted stays first in the pending list
    while the expected block has moved past its start, so no later call of
    [squash] loads, merges, writes, deletes or notifies anything, and the
    expected block, the target flag and the pending ranges stay. *)
Theorem squash_write_failure_wedges (notifier : bool) (s : Squashable)
    (r : Range) (w : World E) :
  StronglySorted range_le (ranges s) ->
  Forall wfRange (ranges s) ->
  Forall wfRange (rangeSplit E r (storeSaveInterval s)) ->
  run_outcome (squash E notifier s r w) = Panicked
  \/ (exists br, run_outcome (squash E notifier s r w)
                 = Failed (ErrSquashingRange br ErrWritingState)) ->
  forall (calls : list Range) (w2 : World E),
    let s1 := run_state (squash E notifier s r w) in
    let res := squashAll E notifier calls s1 w2 in
    run_events res = []
    /\ nextExpectedStartBlock (run_state res) = nextExpectedStartBlock s1
    /\ targetReached (run_state res) = targetReached s1
    /\ (forall x, x ∈ ranges s1 -> x ∈ ranges (run_state res)).
Proof.
  intros Hsort Hwf Hsplit Hout calls w2 s1 res. subst s1 res.
  apply wedged_squashAll.
  unfold squash in *.
  destruct (cumulateLoop (rangeSplit E r (storeSaveInterval s)) s)
    as [res s1] eqn:Hc.
  pose proof (cumulateLoop_frame _ _ _ _ Hc)
    as (_ & _ & _ & Hin & _ & Hsort1).
  destruct res as [err|].
  - apply cumulateLoop_error in Hc as (start & -> & _).
    unfold run_outcome in Hout. simpl in Hout.
    destruct Hout as [H|[b H]]; discriminate.
  - destruct (mergeEach E notifier (rangeSplit E r (storeSaveInterval s)) s1 w)
      as [[[out s2] w'] evs] eqn:Hm.
    unfold run_outcome, run_state in *. simpl in *.
    eapply mergeEach_wedges; [exact Hm|auto| |exact Hout].
    apply Forall_forall. intros x Hx.
    rewrite Forall_forall in Hwf, Hsplit.
    apply Hin in Hx as [Hx|(Hx & _)]; auto.
Qed.

(** *** The errors of [squash], and [Squash] on the map of Squashables *)

Lemma mergeEach_outcome (notifier : bool) (brs : list Range) :
  forall (s : Squashable) (w w' : World E) (out : Outcome) (s' : Squashable)
         (evs : list Event),
    mergeEach E notifier brs s w = (out, s', w', evs) ->
    out = Done \/ out = Panicked
    \/ exists br cause,
         out = Failed (ErrSquashingRange br cause) /\ br ∈ brs
         /\ (cause = ErrContext \/ cause = ErrInitializingPartial (name s)
             \/ cause = ErrMerging \/ cause = ErrWritingState).
Proof.
  induction brs as [|br rest IH]; intros s w w' out s' evs Hrun;
    simpl in Hrun.
  - injection Hrun as <- <- <- <-. auto.
  - unfold bind in Hrun.
    destruct (mergeAvailablePartials E notifier s w)
      as [[[o1 s1] w1] l1] eqn:H1.
    apply mergeLoop_run in H1.
    pose proof (MergeRun_exit _ _ _ _ _ _ H1) as Hexit.
    destruct (MergeRun_config _ _ _ _ _ _ H1) as (Hn & _).
    destruct o1 as [|err|].
    + destruct (mergeEach E notifier rest s1 w1) as [[[o2 s2] w2] l2] eqn:H2.
      injection Hrun as <- <- <- <-.
      apply IH in H2 as [H|[H|(b & c & H & Hb & Hc)]]; auto.
      right. right. exists b, c. rewrite Hn in Hc.
      split; [exact H|]. split; [apply elem_of_cons; auto|exact Hc].
    + injection Hrun as <- <- <- <-. right. right. exists br, err.
      split; [reflexivity|]. split; [apply elem_of_cons; auto|].
      destruct err; simpl in Hexit; try contradiction; auto.
      destruct Hexit as [-> _]. auto.
    + injection Hrun as <- <- <- <-. auto.
Qed.

Lemma squash_outcome (notifier : bool) (s : Squashable) (r : Range)
    (w : World E) (err : SquashError) :
  run_outcome (squash E notifier s r w) = Failed err ->
  (exists start,
     err = ErrStartBeforeInitial (name s) start
             (ModuleInitialBlock (builder s))
     /\ start < ModuleInitialBlock (builder s))
  \/ exists br cause,
       err = ErrSquashingRange br cause
       /\ br ∈ rangeSplit E r (storeSaveInterval s)
       /\ (cause = ErrContext \/ cause = ErrInitializingPartial (name s)
           \/ cause = ErrMerging \/ cause = ErrWritingState).
Proof.
  unfold squash.
  destruct (cumulateLoop (rangeSplit E r (storeSaveInterval s)) s)
    as [res s1] eqn:Hc.
  pose proof (cumulateLoop_frame _ _ _ _ Hc) as ((Hn & _) & _).
  destruct res as [e|].
  - apply cumulateLoop_error in Hc. unfold run_outcome. simpl.
    intros [= <-]. auto.
  - destruct (mergeEach E notifier (rangeSplit E r (storeSaveInterval s)) s1 w)
      as [[[out s2] w'] evs] eqn:Hm.
    unfold run_outcome. simpl. intros ->.
    apply mergeEach_outcome in Hm as [H|[H|(b & c & H & Hb & Hc')]];
      try discriminate.
    injection H as ->. rewrite Hn in Hc'. right. eauto.
Qed.

(** [Squash] on the squasher's map. An unknown module gives the
    module-not-found error and nothing else: no call is made, and the map
    and the world are as before; that error is returned in no other case.
    For a known module the call is [squash] on its Squashable, whose result
    is stored back under the same name; every other entry, the set of
    module names and the squasher's own fields are untouched. Any error
    returned is the module-not-found error, the start-before-initial-block
    error of the first loop, or a squashing-range error that wraps a
    context, load, merge or write error. *)
Theorem Squash_frame (sq : Squasher) (moduleName : string) (r : Range)
    (w : World E) :
  let res := Squash E sq moduleName r w in
  let out := res.1.1.1 in
  let sq' := res.1.1.2 in
  (squashables sq !! moduleName = None ->
   res = (Failed (ErrModuleNotFound moduleName), sq, w, []))
  /\ (forall m, out = Failed (ErrModuleNotFound m) ->
        m = moduleName /\ squashables sq !! moduleName = None)
  /\ (forall v, squashables sq !! moduleName = Some v ->
        let run := squash E (squasher_notifier sq) v r w in
        out = run_outcome run
        /\ squashables sq' !! moduleName = Some (run_state run)
        /\ res.1.2 = run_world run
        /\ res.2 = run_events run
        /\ same_config v (run_state run))
  /\ (forall m, m <> moduleName ->
        squashables sq' !! m = squashables sq !! m)
  /\ (forall m, is_Some (squashables sq' !! m)
                <-> is_Some (squashables sq !! m))
  /\ squasher_storeSaveInterval sq' = squasher_storeSaveInterval sq
  /\ squasher_targetExclusiveBlock sq' = squasher_targetExclusiveBlock sq
  /\ squasher_notifier sq' = squasher_notifier sq
  /\ (forall err, out = Failed err ->
        err = ErrModuleNotFound moduleName
        \/ (exists v start,
              squashables sq !! moduleName = Some v
              /\ err = ErrStartBeforeInitial (name v) start
                         (ModuleInitialBlock (builder v)))
        \/ exists v br cause,
             squashables sq !! moduleName = Some v
             /\ err = ErrSquashingRange br cause
             /\ br ∈ rangeSplit E r (storeSaveInterval v)
             /\ (cause = ErrContext
                 \/ cause = ErrInitializingPartial (name v)
                 \/ cause = ErrMerging \/ cause = ErrWritingState)).
Proof.
  intros res out sq'. subst res out sq'. unfold Squash.
  destruct (squashables sq !! moduleName) as [v|] eqn:Hv.
  - unfold bind, ret.
    pose proof (squash_outcome (squasher_notifier sq) v r w) as Hout.
    destruct (squash E (squasher_notifier sq) v r w)
      as [[[o1 s1] w1] l1] eqn:Hrun.
    unfold run_outcome in Hout. simpl in *.
    split; [discriminate|]. split.
    { intros m ->. destruct (Hout _ eq_refl) as [(st & H & _)|(b & c & H & _)];
        discriminate. }
    split.
    { intros v0 [= <-]. rewrite Hrun.
      unfold run_outcome, run_state, run_world, run_events. simpl.
      rewrite lookup_insert_eq, app_nil_r.
      repeat split; try reflexivity;
        apply squash_facts in Hrun as (Hc & _); apply Hc. }
    split; [intros m Hm; apply lookup_insert_ne; congruence|].
    split.
    { intros m. destruct (decide (m = moduleName)) as [->|Hm].
      - rewrite lookup_insert_eq, Hv. split; eauto.
      - rewrite lookup_insert_ne by congruence. reflexivity. }
    repeat split.
    intros err ->. right.
    destruct (Hout _ eq_refl) as [(st & -> & _)|(b & c & -> & Hb & Hc)].
    + left. eauto.
    + right. exists v, b, c. auto.
  - simpl. split; [reflexivity|]. split; [intros m [= <-]; auto|].
    split; [discriminate|]. repeat split; auto.
    intros err [= <-]. auto.
Qed.

(** *** Errors come from the collaborators only *)

Lemma MergeRun_quiet (notifier : bool) (rs : list Range) (s : Squashable)
    (evs : list Event) (out : Outcome) (s' : Squashable) :
  MergeRun notifier rs s evs out s' ->
  storeSaveInterval s <> 0 ->
  Forall call_succeeded evs ->
  out = Done \/ out = Failed ErrContext.
Proof.
  induction 1 as [| | | | | | | r rest s ok evs out s' Hnext Hnz Hrun IH];
    intros Hi Hok; auto;
    try (exfalso;
         repeat (apply Forall_cons in Hok as [Hev Hok];
                 simpl in Hev; try discriminate; clear Hev);
         contradiction).
  destruct (after_merge_config s r) as (_ & _ & Hiv & _).
  apply IH; [rewrite Hiv; exact Hi|].
  apply Forall_app in Hok as [_ Hok]. apply Forall_app in Hok as [_ Hok].
  exact Hok.
Qed.

Lemma mergeLoop_not_cancelled (notifier : bool) (rs : list Range) :
  forall (s : Squashable) (w w' : World E) (out : Outcome) (s' : Squashable)
         (evs : list Event),
    (forall w0, (ctxDone E w0).2 = false) ->
    mergeLoop E notifier rs s w = (out, s', w', evs) ->
    out <> Failed ErrContext.
Proof.
  induction rs as [|r rest IH]; intros s w w' out s' evs Hctx Hrun;
    simpl in Hrun; unfold bind, ctx_done, ret in Hrun;
    pose proof (Hctx w) as Hw; destruct (ctxDone E w) as [w1 b];
    simpl in Hw; subst b.
  - injection Hrun as <- <- <- <-. discriminate.
  - destruct (nextExpectedStartBlock s =? StartBlock r); simpl in Hrun;
      [|injection Hrun as <- <- <- <-; discriminate].
    unfold LoadFrom in Hrun.
    destruct (storeLoadFrom E w1 r) as [w2 [|]]; simpl in Hrun;
      [|injection Hrun as <- <- <- <-; discriminate].
    unfold Merge in Hrun.
    destruct (storeMerge E w2 r) as [w3 [|]]; simpl in Hrun;
      [|injection Hrun as <- <- <- <-; discriminate].
    destruct (storeSaveInterval s =? 0); simpl in Hrun;
      [injection Hrun as <- <- <- <-; discriminate|].
    destruct (ExclusiveEndBlock r mod storeSaveInterval s =? 0);
      simpl in Hrun.
    + unfold WriteState in Hrun.
      destruct (storeWriteState E w3 (ExclusiveEndBlock r)) as [w4 [|]];
        simpl in Hrun; [|injection Hrun as <- <- <- <-; discriminate].
      destruct (ExclusiveEndBlock r =? targetExclusiveBlock s);
        simpl in Hrun;
        [destruct notifier; unfold Notify, ret in Hrun; simpl in Hrun|];
        match type of Hrun with
        | context [mergeLoop E ?n rest ?s1 ?w1] =>
            destruct (mergeLoop E n rest s1 w1) as [[[o1 s1'] w1'] l1] eqn:Hrec
        end;
        injection Hrun as <- <- <- <-;
        eapply IH; eassumption.
    + unfold DeletePartialFile, ret in Hrun.
      destruct (storeDeletePartialFile E w3 (ExclusiveEndBlock r)) as [w4 okd];
        simpl in Hrun.
      destruct (ExclusiveEndBlock r =? targetExclusiveBlock s);
        simpl in Hrun;
        [destruct notifier; unfold Notify, ret in Hrun; simpl in Hrun|];
        match type of Hrun with
        | context [mergeLoop E ?n rest ?s1 ?w1] =>
            destruct (mergeLoop E n rest s1 w1) as [[[o1 s1'] w1'] l1] eqn:Hrec
        end;
        injection Hrun as <- <- <- <-;
        eapply IH; eassumption.
Qed.

Lemma mergeEach_succeeds (notifier : bool) (brs : list Range) :
  forall (s : Squashable) (w w' : World E) (out : Outcome) (s' : Squashable)
         (evs : list Event),
    (forall w0, (ctxDone E w0).2 = false) ->
    storeSaveInterval s <> 0 ->
    mergeEach E notifier brs s w = (out, s', w', evs) ->
    Forall call_succeeded evs ->
    out = Done /\ (brs <> [] -> nothing_mergeable s').
Proof.
  induction brs as [|br rest IH]; intros s w w' out s' evs Hctx Hi Hrun Hok;
    simpl in Hrun.
  - injection Hrun as <- <- <- <-. split; [reflexivity|contradiction].
  - unfold bind in Hrun.
    destruct (mergeAvailablePartials E notifier s w)
      as [[[o1 s1] w1] l1] eqn:H1.
    pose proof (mergeLoop_not_cancelled _ _ _ _ _ _ _ _ Hctx H1) as Hnc.
    apply mergeLoop_run in H1.
    pose proof (MergeRun_exit _ _ _ _ _ _ H1) as Hexit.
    destruct (MergeRun_config _ _ _ _ _ _ H1) as (_ & _ & Hiv & _).
    assert (o1 = Done) as ->.
    { destruct o1 as [|err|]; [reflexivity| |].
      - assert (Forall call_succeeded l1) as Hok1.
        { injection Hrun as <- <- <- <-. rewrite app_nil_r in Hok. exact Hok. }
        destruct (MergeRun_quiet _ _ _ _ _ _ H1 Hi Hok1) as [H|H];
          [discriminate|contradiction].
      - assert (Forall call_succeeded l1) as Hok1.
        { injection Hrun as <- <- <- <-. rewrite app_nil_r in Hok. exact Hok. }
        destruct (MergeRun_quiet _ _ _ _ _ _ H1 Hi Hok1) as [H|H];
          discriminate. }
    destruct (mergeEach E notifier rest s1 w1) as [[[o2 s2] w2] l2] eqn:H2.
    injection Hrun as <- <- <- <-.
    apply Forall_app in Hok as [_ Hok2].
    pose proof H2 as H2'.
    apply IH in H2' as [-> Hpost]; [|exact Hctx|congruence|exact Hok2].
    split; [reflexivity|]. intros _.
    destruct rest as [|br2 rest2].
    + simpl in H2. injection H2 as <- _ _. exact Hexit.
    + apply Hpost. discriminate.
Qed.

(** [squash] reports only what its collaborators report. When the context
    is never cancelled, the save interval is not zero, no sub-range starts
    before the module's initial block, and no [LoadFrom], [Merge] or
    [WriteState] call of the run failed, [squash] returns without error,
    whatever [DeletePartialFile] returned; and if the request gave at least
    one sub-range, nothing mergeable is left pending. *)
Theorem squash_succeeds (notifier : bool) (s : Squashable) (r : Range)
    (w : World E) :
  (forall w0, (ctxDone E w0).2 = false) ->
  storeSaveInterval s <> 0 ->
  Forall (fun br => ModuleInitialBlock (builder s) <= StartBlock br)
    (rangeSplit E r (storeSaveInterval s)) ->
  Forall call_succeeded (run_events (squash E notifier s r w)) ->
  run_outcome (squash E notifier s r w) = Done
  /\ (rangeSplit E r (storeSaveInterval s) <> [] ->
      nothing_mergeable (run_state (squash E notifier s r w))).
Proof.
  intros Hctx Hi Hsplit. unfold squash.
  destruct (cumulateLoop_accepts _ s Hsplit) as [s1 Hc]. rewrite Hc.
  apply cumulateLoop_frame in Hc as ((_ & _ & Hiv & _) & _).
  destruct (mergeEach E notifier (rangeSplit E r (storeSaveInterval s)) s1 w)
    as [[[out s2] w'] evs] eqn:Hm.
  unfold run_events, run_outcome, run_state. simpl. intros Hok.
  eapply mergeEach_succeeds; [exact Hctx| |exact Hm|exact Hok]. congruence.
Qed.

(** *** A target at or behind the expected block *)

(** A Squashable whose target block is not ahead of the block it expects
    next (as [NewSquasher] builds it from a snapshot that already ends at
    the target) never reaches its target: with non-empty ranges, whatever
    is squashed, the target flag stays unset, the notifier is never called,
    and [StoresReady] keeps reporting the module. *)
Theorem squashAll_target_behind (notifier : bool) (calls : list Range)
    (s : Squashable) (w : World E) :
  targetReached s = false ->
  targetExclusiveBlock s <= nextExpectedStartBlock s ->
  Forall wfRange (ranges s) ->
  Forall (fun r => Forall wfRange (rangeSplit E r (storeSaveInterval s)))
    calls ->
  let res := squashAll E notifier calls s w in
  targetReached (run_state res) = false
  /\ notified (run_events res) = []
  /\ TargetNotReached (name s) ∈ issues_of (run_state res).
Proof.
  intros Hfalse Hbehind Hwf Hcalls res. subst res.
  destruct (Runs_target _ _ _ _ (squashAll_Runs notifier calls s w))
    as (_ & Honly & Hnot & _).
  destruct (squashAll E notifier calls s w) as [[[outs s'] w'] evs] eqn:Hrun.
  unfold run_events, run_state in *. simpl in *.
  apply (squashAll_facts E notifier wfRange) in Hrun
    as ((Hname & _) & Hch & _ & Hwt & _); [|exact Hwf|].
  2:{ eapply Forall_impl; [exact Hcalls|]. simpl.
      intros r Hr x Hx _ _. rewrite Forall_forall in Hr. auto. }
  assert (Forall wfRange (merged evs)) as Hwm.
  { apply Forall_forall. intros x Hx. rewrite Forall_forall in Hwt.
    apply Hwt. apply merged_touched. exact Hx. }
  pose proof (chain_ends_after _ _ _ Hwm Hch) as Hafter.
  assert (targetReached s' = false) as Hs'.
  { destruct (targetReached s') eqn:Ht; [|reflexivity].
    destruct (Honly eq_refl) as [H|[r Hr]]; [congruence|].
    apply merged_ending_at_elem in Hr as [Hr Hend].
    rewrite Forall_forall in Hafter. apply Hafter in Hr. lia. }
  split; [exact Hs'|]. split.
  - destruct (notified evs) as [|e l]; [reflexivity|].
    rewrite Hnot in Hs' by discriminate. discriminate.
  - unfold issues_of. rewrite Hs', Hname. apply elem_of_app. left.
    apply list_elem_of_here.
Qed.

End SquashSequences.

(** ** Sub-ranges that end at or before the store's initial block *)

Section SquashDropped.
Import Block Orchestrator OrchestratorSpec SquashRuns.

(** The error of the first loop of [squash] names a sub-range of the split
    that starts before the module's initial block. *)
Lemma cumulateLoop_error_elem (brs : list Range) :
  forall (s s' : Squashable) (err : SquashError),
    cumulateLoop brs s = (Some err, s') ->
    exists x,
      x ∈ brs /\ StartBlock x < ModuleInitialBlock (builder s)
      /\ err = ErrStartBeforeInitial (name s) (StartBlock x)
                 (ModuleInitialBlock (builder s)).
Proof.
  induction brs as [|br rest IH]; intros s s' err Hrun; simpl in Hrun;
    [discriminate|].
  destruct (Z.ltb_spec (StartBlock br) (ModuleInitialBlock (builder s))).
  - injection Hrun as <- <-. exists br.
    split; [apply list_elem_of_here|]. auto.
  - apply IH in Hrun as (x & Hx & Hlt & ->).
    destruct (cumulateBoundedRange_frame s br) as ((Hn & Hb & _) & _).
    rewrite Hn, Hb in *. exists x.
    split; [apply elem_of_cons; auto|]. auto.
Qed.

(** C9, as amended. A sub-range of the split that ends at or before the
    store's initial block, and that does not start before the module's
    initial block, is dropped by [squash]: [cumulateBoundedRange] leaves the
    Squashable as it is, the checking loop runs as if the sub-range were
    absent (so it raises no error when the other sub-ranges raise none),
    and on a Squashable whose pending ranges all end after the store's
    initial block the sub-range is neither pending afterwards nor loaded or
    merged. The second loop of [squash] still runs [mergeAvailablePartials]
    once per sub-range of the split, the dropped one included: [squash]
    returns without error when the context is never cancelled, the save
    interval is not zero, no other sub-range starts before the module's
    initial block and no [LoadFrom], [Merge] or [WriteState] call of the run
    fails; and any error it returns is the start-before-initial-block error
    of another sub-range, or a squashing-range error, under the bounds of a
    sub-range of the split, that wraps a context, load, merge or write
    error. *)
Theorem squash_drops_before_store_start (E : Env) (notifier : bool)
    (s : Squashable) (r br : Range) (pre post : list Range) (w : World E) :
  rangeSplit E r (storeSaveInterval s) = pre ++ br :: post ->
  ExclusiveEndBlock br <= StoreInitialBlock (builder s) ->
  ModuleInitialBlock (builder s) <= StartBlock br ->
  Forall (fun x => StoreInitialBlock (builder s) < ExclusiveEndBlock x)
    (ranges s) ->
  cumulateBoundedRange s br = s
  /\ cumulateLoop (pre ++ br :: post) s = cumulateLoop (pre ++ post) s
  /\ (Forall (fun x => ModuleInitialBlock (builder s) <= StartBlock x)
        (pre ++ post) ->
      exists s1, cumulateLoop (pre ++ br :: post) s = (None, s1))
  /\ (br ∉ ranges (run_state (squash E notifier s r w)))
  /\ (br ∉ touched (run_events (squash E notifier s r w)))
  /\ ((forall w0, (ctxDone E w0).2 = false) ->
      storeSaveInterval s <> 0 ->
      Forall (fun x => ModuleInitialBlock (builder s) <= StartBlock x)
        (pre ++ post) ->
      Forall call_succeeded (run_events (squash E notifier s r w)) ->
      run_outcome (squash E notifier s r w) = Done)
  /\ (forall err,
        run_outcome (squash E notifier s r w) = Failed err ->
        (exists x,
           x ∈ pre ++ post
           /\ StartBlock x < ModuleInitialBlock (builder s)
           /\ err = ErrStartBeforeInitial (name s) (StartBlock x)
                      (ModuleInitialBlock (builder s)))
        \/ exists b cause,
             err = ErrSquashingRange b cause
             /\ b ∈ pre ++ br :: post
             /\ (cause = ErrContext
                 \/ cause = ErrInitializingPartial (name s)
                 \/ cause = ErrMerging \/ cause = ErrWritingState)).
Proof.
  intros Hsplit Hend Hstart Hinv.
  split; [|split; [|split; [|split; [|split; [|split]]]]].
  - destruct (cumulateBoundedRange_ranges s br) as [[_ Heq]|[Hlt _]];
      [exact Heq|lia].
  - apply cumulateLoop_skip; assumption.
  - intros Hall. rewrite cumulateLoop_skip by assumption.
    apply cumulateLoop_accepts. exact Hall.
  - destruct (squash E notifier s r w) as [[[out s'] w'] evs] eqn:Hrun.
    unfold run_state. simpl.
    apply squash_facts in Hrun as (_ & _ & Hin & _).
    rewrite Forall_forall in Hinv. intros Hbr.
    destruct (Hin br (or_introl Hbr)) as [Hx|(_ & _ & Hx)];
      [apply Hinv in Hx|]; lia.
  - destruct (squash E notifier s r w) as [[[out s'] w'] evs] eqn:Hrun.
    unfold run_events. simpl.
    apply squash_facts in Hrun as (_ & _ & Hin & _).
    rewrite Forall_forall in Hinv. intros Hbr.
    destruct (Hin br (or_intror Hbr)) as [Hx|(_ & _ & Hx)];
      [apply Hinv in Hx|]; lia.
  - intros Hctx Hi Hall. unfold squash. rewrite Hsplit.
    assert (Forall (fun x => ModuleInitialBlock (builder s) <= StartBlock x)
              (pre ++ br :: post)) as Hall'.
    { apply Forall_app in Hall as [Hpre Hpost].
      apply Forall_app. split; [exact Hpre|]. constructor; assumption. }
    destruct (cumulateLoop_accepts _ s Hall') as [s1 Hc]. rewrite Hc.
    apply cumulateLoop_frame in Hc as ((_ & _ & Hiv & _) & _).
    destruct (mergeEach E notifier (pre ++ br :: post) s1 w)
      as [[[out s2] w'] evs] eqn:Hm.
    unfold run_events, run_outcome. simpl. intros Hok.
    eapply mergeEach_succeeds; [exact Hctx| |exact Hm|exact Hok]. congruence.
  - intros err Hout.
    pose proof (squash_outcome E notifier s r w err Hout) as Hshape.
    rewrite Hsplit in Hshape.
    destruct Hshape as [(start & Herr & Hlt)|(b & cause & Herr & Hb & Hc)];
      [left|right; eauto].
    unfold squash in Hout. rewrite Hsplit in Hout.
    destruct (cumulateLoop (pre ++ br :: post) s) as [res s1] eqn:Hc.
    destruct res as [e|].
    + unfold run_outcome in Hout. simpl in Hout. injection Hout as ->.
      apply cumulateLoop_error_elem in Hc as (x & Hx & Hxlt & Hex).
      exists x. split; [|auto].
      apply elem_of_app in Hx as [Hx|Hx]; [apply elem_of_app; auto|].
      apply elem_of_cons in Hx as [->|Hx]; [lia|apply elem_of_app; auto].
    + exfalso.
      destruct (mergeEach E notifier (pre ++ br :: post) s1 w)
        as [[[out s2] w'] evs] eqn:Hm.
      unfold run_outcome in Hout. simpl in Hout. subst out.
      apply mergeEach_outcome in Hm as [H|[H|(b & c & H & _)]];
        try discriminate.
      injection H as ->. discriminate.
Qed.

Lemma squash_drops_before_store_start_witness :
  let s := NewSquashable (mkStore "A" 100 200) 300 100 200 in
  let run := squash quietEnv true s (mkRange 100 300) tt in
  cumulateBoundedRange s (mkRange 100 200) = s
  /\ cumulateLoop ([] ++ mkRange 100 200 :: [mkRange 200 300]) s
     = cumulateLoop ([] ++ [mkRange 200 300]) s
  /\ (Forall (fun x => ModuleInitialBlock (builder s) <= StartBlock x)
        ([] ++ [mkRange 200 300]) ->
      exists s1,
        cumulateLoop ([] ++ mkRange 100 200 :: [mkRange 200 300]) s
        = (None, s1))
  /\ (mkRange 100 200 ∉ ranges (run_state run))
  /\ (mkRange 100 200 ∉ touched (run_events run))
  /\ ((forall w0, (ctxDone quietEnv w0).2 = false) ->
      storeSaveInterval s <> 0 ->
      Forall (fun x => ModuleInitialBlock (builder s) <= StartBlock x)
        ([] ++ [mkRange 200 300]) ->
      Forall call_succeeded (run_events run) ->
      run_outcome run = Done)
  /\ (forall err,
        run_outcome run = Failed err ->
        (exists x,
           x ∈ [] ++ [mkRange 200 300]
           /\ StartBlock x < ModuleInitialBlock (builder s)
           /\ err = ErrStartBeforeInitial (name s) (StartBlock x)
                      (ModuleInitialBlock (builder s)))
        \/ exists b cause,
             err = ErrSquashingRange b cause
             /\ b ∈ [] ++ mkRange 100 200 :: [mkRange 200 300]
             /\ (cause = ErrContext
                 \/ cause = ErrInitializingPartial (name s)
                 \/ cause = ErrMerging \/ cause = ErrWritingState)).
Proof.
  apply (squash_drops_before_store_start quietEnv true
           (NewSquashable (mkStore "A" 100 200) 300 100 200)
           (mkRange 100 300) (mkRange 100 200) [] [mkRange 200 300] tt).
  - reflexivity.
  - simpl. lia.
  - simpl. lia.
  - simpl. constructor.
Defined.

(** C9 as stated fails: with module and store initial block 100, the only
    sub-range of [[0, 50)] ends before the store's initial block, and
    [squash] returns an error for it (it starts before the module's initial
    block). *)
Lemma squash_errors_on_range_before_store_start :
  let s := NewSquashable (mkStore "A" 100 100) 300 100 100 in
  rangeSplit quietEnv (mkRange 0 50) (storeSaveInterval s) = [mkRange 0 50]
  /\ ExclusiveEndBlock (mkRange 0 50) <= StoreInitialBlock (builder s)
  /\ run_outcome (squash quietEnv true s (mkRange 0 50) tt)
     = Failed (ErrStartBeforeInitial "A" 0 100)
  /\ run_outcome (squash quietEnv true s (mkRange 0 50) tt) <> Done.
Proof.
  cbv zeta. split; [reflexivity|]. split; [simpl; lia|].
  split; [reflexivity|]. discriminate.
Qed.

(** The error of a run of [mergeAvailablePartials] is reported under the
    bounds of the sub-range the second loop of [squash] is at, also when
    that sub-range was dropped: with a cancelled context, [squash] of
    [[100, 200)] on a store whose initial block is 200 drops the range and
    returns the context error under its bounds. *)
Lemma squash_reports_error_under_dropped_range :
  let s := NewSquashable (mkStore "A" 100 200) 300 100 200 in
  let run := squash cancelledEnv true s (mkRange 100 200) tt in
  rangeSplit cancelledEnv (mkRange 100 200) (storeSaveInterval s)
  = [mkRange 100 200]
  /\ ranges (run_state run) = []
  /\ run_events run = []
  /\ run_outcome run = Failed (ErrSquashingRange (mkRange 100 200) ErrContext).
Proof. cbv zeta. repeat split; reflexivity. Qed.

End SquashDropped.

Section SquashSequenceExamples.
Import Block Orchestrator OrchestratorSpec SquashRuns.

Lemma squashAll_notifies_once_witness :
  (length
     (notified
        (run_events
           (squashAll quietEnv true
              [mkRange 200 300; mkRange 100 200; mkRange 0 100]
              (NewSquashable (mkStore "A" 0 0) 300 100 0) tt))) <= 1)%nat.
Proof.
  apply (squashAll_notifies_once quietEnv true
           [mkRange 200 300; mkRange 100 200; mkRange 0 100]
           (NewSquashable (mkStore "A" 0 0) 300 100 0) tt).
  - simpl. constructor.
  - repeat constructor; unfold wfRange; simpl; lia.
Defined.

Lemma squash_write_failure_wedges_witness :
  let s := NewSquashable (mkStore "A" 0 0) 300 100 0 in
  let s1 := run_state (squash writeFailsEnv true s (mkRange 0 100) tt) in
  let res := squashAll writeFailsEnv true [mkRange 100 200; mkRange 0 100] s1 tt in
  run_events res = []
  /\ nextExpectedStartBlock (run_state res) = nextExpectedStartBlock s1
  /\ targetReached (run_state res) = targetReached s1
  /\ (forall x, x ∈ ranges s1 -> x ∈ ranges (run_state res)).
Proof.
  apply (squash_write_failure_wedges writeFailsEnv true
           (NewSquashable (mkStore "A" 0 0) 300 100 0) (mkRange 0 100) tt).
  - simpl. constructor.
  - simpl. constructor.
  - repeat constructor; unfold wfRange; simpl; lia.
  - right. eexists. reflexivity.
Defined.

Lemma squash_succeeds_witness :
  let s := NewSquashable (mkStore "A" 0 0) 300 100 0 in
  run_outcome (squash deleteFailsEnv true s (mkRange 0 150) tt) = Done
  /\ (rangeSplit deleteFailsEnv (mkRange 0 150) (storeSaveInterval s) <> [] ->
      nothing_mergeable
        (run_state (squash deleteFailsEnv true s (mkRange 0 150) tt))).
Proof.
  apply (squash_succeeds deleteFailsEnv true
           (NewSquashable (mkStore "A" 0 0) 300 100 0) (mkRange 0 150) tt).
  - intros w0. reflexivity.
  - simpl. lia.
  - vm_compute. repeat (constructor; [intro H; discriminate H|]). constructor.
  - vm_compute. repeat (constructor; [try exact I; reflexivity|]). constructor.
Defined.

Lemma squashAll_target_behind_witness :
  let s := newSquashableFor (mkStore "A" 0 0) 300 300 100 in
  let res := squashAll quietEnv true [mkRange 300 400; mkRange 200 300] s tt in
  targetReached (run_state res) = false
  /\ notified (run_events res) = []
  /\ TargetNotReached (name s) ∈ issues_of (run_state res).
Proof.
  apply (squashAll_target_behind quietEnv true
           [mkRange 300 400; mkRange 200 300]
           (newSquashableFor (mkStore "A" 0 0) 300 300 100) tt).
  - reflexivity.
  - simpl. lia.
  - simpl. constructor.
  - repeat constructor; unfold wfRange; simpl; lia.
Defined.

End SquashSequenceExamples.

(** ** The stage matrix: state updates and sequences of jobs *)

Section StageRunsFacts.
Import Block Stage StageSpec StageRuns.

Lemma setState_inv (s s' : Stages) (u : Unit) (st : UnitState) :
  setState s u st = Some s' ->
  exists row old,
    0 <= Segment u - segmentOffset s
    /\ segmentStates s !! Z.to_nat (Segment u - segmentOffset s) = Some row
    /\ 0 <= Stage u /\ row !! Z.to_nat (Stage u) = Some old
    /\ s' = mkStages (segmenter s) (stages s)
              (<[Z.to_nat (Segment u - segmentOffset s)
                 := <[Z.to_nat (Stage u) := st]> row]> (segmentStates s))
              (segmentOffset s).
Proof.
  unfold setState, index.
  destruct (Z.ltb_spec (Segment u - segmentOffset s) 0); [discriminate|].
  destruct (segmentStates s !! _) as [row|] eqn:Hrow; [|discriminate].
  cbn [mbind option_bind].
  destruct (Z.ltb_spec (Stage u) 0); [discriminate|].
  destruct (row !! _) as [old|] eqn:Hold; [|discriminate].
  cbn [mbind option_bind]. intros [= <-]. eauto 10.
Qed.

Lemma setState_GetState (s s' : Stages) (u : Unit) (st : UnitState) :
  setState s u st = Some s' ->
  forall u',
    GetState s' u' = if decide (u' = u) then Some st else GetState s u'.
Proof.
  intros Hset [seg stage].
  apply setState_inv in Hset
    as (row & old & Hseg & Hrow & Hstage & Hold & ->).
  destruct u as [useg ustage]. cbn [Segment Stage] in *.
  unfold GetState. cbn [Segment Stage segmentStates segmentOffset].
  unfold index.
  destruct (Z.ltb_spec (seg - segmentOffset s) 0) as [Hneg|Hnn].
  { destruct (decide _) as [[= -> ->]|_]; [lia|reflexivity]. }
  assert (Z.to_nat (useg - segmentOffset s) < length (segmentStates s))%nat
    as Hlt by (eapply lookup_lt_Some; exact Hrow).
  assert (Z.to_nat ustage < length row)%nat
    as Hlt' by (eapply lookup_lt_Some; exact Hold).
  rewrite list_lookup_insert.
  destruct (decide (Z.to_nat (useg - segmentOffset s)
                    = Z.to_nat (seg - segmentOffset s)
                    /\ (Z.to_nat (useg - segmentOffset s)
                        < length (segmentStates s))%nat)) as [[Heq _]|Hne].
  - assert (seg = useg) as -> by lia.
    rewrite Hrow. cbn [mbind option_bind].
    destruct (Z.ltb_spec stage 0) as [Hsneg|Hsnn].
    { destruct (decide _) as [[= ->]|_]; [lia|reflexivity]. }
    rewrite list_lookup_insert.
    destruct (decide (Z.to_nat ustage = Z.to_nat stage
                      /\ (Z.to_nat ustage < length row)%nat)) as [[Hj _]|Hj].
    + assert (stage = ustage) as -> by lia.
      destruct (decide _) as [_|Hcontra]; [reflexivity|contradiction].
    + destruct (decide _) as [[= ->]|_]; [|reflexivity].
      exfalso. apply Hj. split; [reflexivity|lia].
  - destruct (decide _) as [[= -> ->]|_]; [|reflexivity].
    exfalso. apply Hne. split; [reflexivity|lia].
Qed.

Lemma setState_None (s : Stages) (u : Unit) (st : UnitState) :
  setState s u st = None <-> GetState s u = None.
Proof.
  unfold setState, GetState.
  destruct (index (segmentStates s) (Segment u - segmentOffset s)) as [row|];
    cbn [mbind option_bind]; [|tauto].
  destruct (index row (Stage u)); cbn [mbind option_bind];
    split; congruence.
Qed.

Lemma setState_evolved (s s' : Stages) (u : Unit) (st : UnitState) :
  setState s u st = Some s' ->
  evolved s s'
  /\ length (segmentStates s') = length (segmentStates s).
Proof.
  intros Hset. apply setState_inv in Hset
    as (row & old & Hseg & Hrow & Hstage & Hold & ->).
  unfold evolved. cbn [segmenter stages segmentStates segmentOffset].
  rewrite length_insert. repeat split; try reflexivity.
  intros Hrows. apply Forall_insert; [exact Hrows|].
  rewrite length_insert. rewrite Forall_forall in Hrows. apply Hrows.
  eapply list_elem_of_lookup_2. exact Hrow.
Qed.


(** [setState] and [GetState]. [setState] panics exactly when [GetState]
    panics on the same unit. Otherwise the unit then reads as the state
    written, every other unit reads as before (also the units on which
    [GetState] panics), and the segmenter, the stages, the offset and the
    number of rows are as before. *)
Theorem setState_then_GetState (s : Stages) (u : Unit) (st : UnitState) :
  (setState s u st = None <-> GetState s u = None)
  /\ forall s',
       setState s u st = Some s' ->
       (forall u',
          GetState s' u' = if decide (u' = u) then Some st else GetState s u')
       /\ segmenter s' = segmenter s /\ stages s' = stages s
       /\ segmentOffset s' = segmentOffset s
       /\ length (segmentStates s') = length (segmentStates s).
Proof.
  split; [apply setState_None|].
  intros s' Hset. split; [apply setState_GetState; exact Hset|].
  apply setState_evolved in Hset as ((H1 & H2 & H3 & _) & H4). auto.
Qed.

(** *** The matrix only grows *)

Lemma evolved_refl (s : Stages) : evolved s s.
Proof. unfold evolved. auto. Qed.

Lemma evolved_trans (s1 s2 s3 : Stages) :
  evolved s1 s2 -> evolved s2 s3 -> evolved s1 s3.
Proof.
  intros (Ha & Hb & Hc & Hd & He) (Ha' & Hb' & Hc' & Hd' & He').
  unfold evolved. rewrite Ha', Hb', Hc', Ha, Hb, Hc.
  repeat split; try reflexivity; [lia|].
  intros H. rewrite Hb in He'. auto.
Qed.

Lemma grown_evolved (s s' : Stages) : grown s s' -> evolved s s'.
Proof.
  intros (Hsg & Hst & Ho & k & Hk). unfold evolved.
  rewrite Hsg, Hst, Ho, Hk, length_app.
  repeat split; try reflexivity; [lia|].
  intros Hrows. apply Forall_app. split; [exact Hrows|].
  apply Forall_forall. intros row Hrow.
  apply elem_of_replicate in Hrow as [-> _]. apply length_replicate.
Qed.

Lemma evolved_wf (s s' : Stages) : wf s -> evolved s s' -> wf s'.
Proof.
  intros (Hoff & Hfirst & Halloc & Hrows & Hstages) (Hsg & Hst & Ho & Hlen & Hr).
  unfold wf. rewrite Hsg, Hst, Ho.
  repeat split; try assumption; [|auto].
  pose proof (growth_mono (length (segmentStates s))
                (length (segmentStates s') - length (segmentStates s))).
  replace (length (segmentStates s)
           + (length (segmentStates s') - length (segmentStates s)))%nat
    with (length (segmentStates s')) in * by lia.
  lia.
Qed.

Lemma segmentLoop_evolved (fuel : nat) :
  forall (idx : Z) (s s' : Stages) (job : option (Unit * option Range)),
    segmentLoop fuel idx s = Ok (s', job) -> evolved s s'.
Proof.
  induction fuel as [|fuel IH]; intros idx s s' job Hrun;
    cbn [segmentLoop] in Hrun;
    set (s1 := if Z.of_nat (length (segmentStates s)) <=? idx - segmentOffset s
               then growSegments s else s) in *;
    (assert (evolved s s1) as Hg
       by (subst s1; destruct (_ <=? _);
           [apply grown_evolved, growSegments_grown | apply evolved_refl]));
    (destruct (LastIndex (segmenter s1) <? idx);
     [injection Hrun as <- <-; exact Hg|]);
    (destruct (stageLoop s1 idx (length (stages s1))) as [[unit|]|];
     [|try discriminate|discriminate]).
  - unfold markSegmentScheduled in Hrun.
    destruct (setState s1 unit UnitScheduled) as [s2|] eqn:Hset;
      [|discriminate].
    injection Hrun as <- <-. apply setState_evolved in Hset as [Hset _].
    eapply evolved_trans; eassumption.
  - unfold markSegmentScheduled in Hrun.
    destruct (setState s1 unit UnitScheduled) as [s2|] eqn:Hset;
      [|discriminate].
    injection Hrun as <- <-. apply setState_evolved in Hset as [Hset _].
    eapply evolved_trans; eassumption.
  - apply IH in Hrun. eapply evolved_trans; eassumption.
Qed.

Lemma NextJob_step (s : Stages) :
  wf s ->
  exists s',
    NextJob s = Ok (s', job_of s <$> find (eligible s) (scan_order s))
    /\ wf s'
    /\ forall seg stage,
         state_at s' seg stage
         = match find (eligible s) (scan_order s) with
           | Some u =>
               if decide (mkUnit seg stage = u) then UnitScheduled
               else state_at s seg stage
           | None => state_at s seg stage
           end.
Proof.
  intros Hwf. pose proof Hwf as (Hoff & Hfirst & Halloc & _).
  destruct (segmentLoop_spec
              (Z.to_nat (LastIndex (segmenter s) - FirstIndex (segmenter s) + 1))
              (FirstIndex (segmenter s)) s Hwf Hfirst Halloc eq_refl)
    as (s' & Hrun & Hstate).
  exists s'. split; [exact Hrun|]. split; [|exact Hstate].
  eapply evolved_wf; [exact Hwf|]. eapply segmentLoop_evolved. exact Hrun.
Qed.






(** *** No job left *)

Lemma forallb_false_exists {A : Type} (f : A -> bool) (l : list A) :
  forallb f l = false -> exists x, In x l /\ f x = false.
Proof.
  induction l as [|a l IH]; simpl; [discriminate|].
  destruct (f a) eqn:Ha; simpl.
  - intros H. destruct (IH H) as (x & Hx & Hf). eauto.
  - intros _. eauto.
Qed.

Lemma scan_order_elem (s : Stages) (u : Unit) :
  FirstIndex (segmenter s) <= Segment u <= LastIndex (segmenter s) ->
  0 <= Stage u < Z.of_nat (length (stages s)) ->
  In u (scan_order s).
Proof.
  intros Hseg Hstage. apply list_elem_of_In.
  unfold scan_order, scan_from. apply list_elem_of_bind.
  exists (Segment u). split.
  - apply list_elem_of_fmap. exists (Stage u).
    split; [destruct u; reflexivity|].
    apply list_elem_of_In. apply stage_order_range. exact Hstage.
  - apply elem_of_seqZ. lia.
Qed.

(** When [NextJob] returns no job it changes no unit, and every pending
    unit of a started stage in the segments of the segmenter is blocked: it
    is past the first segment of its stage, its stage is not the lowest,
    and some lower stage of the previous segment is not completed. *)
Theorem NextJob_none_all_blocked (s s' : Stages) :
  wf s ->
  NextJob s = Ok (s', None) ->
  (forall seg stage, state_at s' seg stage = state_at s seg stage)
  /\ forall u,
       FirstIndex (segmenter s) <= Segment u <= LastIndex (segmenter s) ->
       0 <= Stage u < Z.of_nat (length (stages s)) ->
       stage_first s (Stage u) <= Segment u ->
       state_at s (Segment u) (Stage u) = UnitPending ->
       stage_first s (Stage u) < Segment u /\ 0 < Stage u
       /\ exists i, 0 <= i < Stage u
            /\ state_at s (Segment u - 1) i <> UnitCompleted.
Proof.
  intros Hwf Hrun.
  destruct (NextJob_step s Hwf) as (s1 & Hjob & _ & Hstate).
  rewrite Hjob in Hrun.
  destruct (find (eligible s) (scan_order s)) as [u0|] eqn:Hfind;
    [discriminate|].
  injection Hrun as <-. split; [exact Hstate|].
  intros u Hseg Hstage Hstarted Hpending.
  pose proof (find_none _ _ Hfind u (scan_order_elem s u Hseg Hstage)) as Hel.
  unfold eligible in Hel.
  rewrite (bool_decide_eq_true_2 _ Hpending) in Hel.
  destruct (Z.leb_spec (stage_first s (Stage u)) (Segment u)); [|lia].
  cbn [andb] in Hel. unfold deps_done in Hel.
  apply orb_false_iff in Hel as [Hel Hlow].
  apply orb_false_iff in Hel as [Hfirst Hzero].
  apply Z.eqb_neq in Hfirst. apply Z.eqb_neq in Hzero.
  split; [lia|]. split; [lia|].
  unfold lower_completed in Hlow.
  apply forallb_false_exists in Hlow as (i & Hi & Hf).
  apply stage_order_range in Hi. exists i. split; [lia|].
  intros Hc. rewrite (bool_decide_eq_true_2 _ Hc) in Hf. discriminate.
Qed.

Lemma NextJob_none_all_blocked_witness :
  let sv := mkSegmenterView 0 1 (fun i => Some (mkRange (i * 10) (i * 10 + 10))) in
  let s := mkStages sv [mkStage sv; mkStage sv]
             [[UnitScheduled; UnitScheduled]; [UnitScheduled; UnitPending]] 0 in
  let s' := mkStages sv [mkStage sv; mkStage sv]
              [[UnitScheduled; UnitScheduled]; [UnitScheduled; UnitPending];
               [UnitPending; UnitPending]; [UnitPending; UnitPending]] 0 in
  (forall seg stage, state_at s' seg stage = state_at s seg stage)
  /\ forall u,
       FirstIndex (segmenter s) <= Segment u <= LastIndex (segmenter s) ->
       0 <= Stage u < Z.of_nat (length (stages s)) ->
       stage_first s (Stage u) <= Segment u ->
       state_at s (Segment u) (Stage u) = UnitPending ->
       stage_first s (Stage u) < Segment u /\ 0 < Stage u
       /\ exists i, 0 <= i < Stage u
            /\ state_at s (Segment u - 1) i <> UnitCompleted.
Proof.
  apply (NextJob_none_all_blocked
           (mkStages
              (mkSegmenterView 0 1
                 (fun i => Some (mkRange (i * 10) (i * 10 + 10))))
              [mkStage (mkSegmenterView 0 1
                          (fun i => Some (mkRange (i * 10) (i * 10 + 10))));
               mkStage (mkSegmenterView 0 1
                          (fun i => Some (mkRange (i * 10) (i * 10 + 10))))]
              [[UnitScheduled; UnitScheduled]; [UnitScheduled; UnitPending]]
              0)).
  - unfold wf. simpl. repeat split; try lia; repeat constructor; simpl; lia.
  - reflexivity.
Defined.

(** *** The previous segment of a unit *)

Lemma index_Some_range {A : Type} (l : list A) (i : Z) (x : A) :
  index l i = Some x -> 0 <= i < Z.of_nat (length l).
Proof.
  unfold index. destruct (Z.ltb_spec i 0); [discriminate|].
  intros Hx. apply lookup_lt_Some in Hx. lia.
Qed.

(** [previousUnitComplete] on a unit that [GetState] can read, in a matrix
    whose rows have one entry per stage: it does not panic, and it holds
    exactly when the unit is in the row of the segment offset or the same
    stage of the previous segment is completed. *)
Theorem previousUnitComplete_allocated (s : Stages) (u : Unit) :
  Forall (fun row => length row = length (stages s)) (segmentStates s) ->
  is_Some (GetState s u) ->
  previousUnitComplete s u
  = Some (bool_decide (Segment u = segmentOffset s)
          || bool_decide (state_at s (Segment u - 1) (Stage u)
                          = UnitCompleted)).
Proof.
  intros Hrows [st Hst]. unfold GetState in Hst.
  destruct (index (segmentStates s) (Segment u - segmentOffset s))
    as [row|] eqn:Hrow; [|discriminate].
  cbn [mbind option_bind] in Hst.
  pose proof (index_Some_range _ _ _ Hrow) as Hseg.
  pose proof (index_Some_range _ _ _ Hst) as Hstage.
  assert (length row = length (stages s)) as Hlen.
  { rewrite index_lookup in Hrow by lia.
    rewrite Forall_forall in Hrows. apply Hrows.
    eapply list_elem_of_lookup_2. exact Hrow. }
  unfold previousUnitComplete.
  destruct (Z.leb_spec (Segment u - segmentOffset s) 0) as [Hle|Hgt].
  - rewrite (bool_decide_eq_true_2 (Segment u = segmentOffset s)) by lia.
    reflexivity.
  - rewrite (bool_decide_eq_false_2 (Segment u = segmentOffset s)) by lia.
    rewrite (GetState_allocated s (Segment u - 1) (Stage u)) by
      (try assumption; lia).
    reflexivity.
Qed.

Lemma previousUnitComplete_allocated_witness :
  let sv := mkSegmenterView 0 1 (fun i => Some (mkRange (i * 10) (i * 10 + 10))) in
  let s := mkStages sv [mkStage sv; mkStage sv]
             [[UnitScheduled; UnitCompleted]; [UnitScheduled; UnitPending]] 0 in
  previousUnitComplete s (mkUnit 1 1)
  = Some (bool_decide (Segment (mkUnit 1 1) = segmentOffset s)
          || bool_decide (state_at s (Segment (mkUnit 1 1) - 1)
                            (Stage (mkUnit 1 1)) = UnitCompleted)).
Proof.
  apply (previousUnitComplete_allocated
           (mkStages
              (mkSegmenterView 0 1
                 (fun i => Some (mkRange (i * 10) (i * 10 + 10))))
              [mkStage (mkSegmenterView 0 1
                          (fun i => Some (mkRange (i * 10) (i * 10 + 10))));
               mkStage (mkSegmenterView 0 1
                          (fun i => Some (mkRange (i * 10) (i * 10 + 10))))]
              [[UnitScheduled; UnitCompleted]; [UnitScheduled; UnitPending]]
              0)
           (mkUnit 1 1)).
  - repeat constructor.
  - simpl. eauto.
Defined.

End StageRunsFacts.
